(** * fxART: the edge-aware flood fill and the curve rasterizer

    A shallow embedding of the two algorithmic parts of the application,
    [floodFill] of src/App.jsx and [drawFunction] and [fitCanvas] of
    src/components/Canvas.jsx, with the properties of the design document
    stated and settled against them.

    Conventions.
    - A number the fill engine handles is an integer, or the result of
      arithmetic on [undefined]: an [option Z], [None] standing for
      [undefined] and for [NaN] (every comparison with it is false).
    - The [Uint8ClampedArray] of an [ImageData] is a [list Z]; reads outside
      it give [undefined], writes outside it are dropped, writes inside it
      clamp to [0..255].
    - A [Uint8Array] mask, which only ever receives 0 and 1, is a
      [list bool].
    - The 32-bit conversions of [>>] and [&] are written out in
      [hexToRgba]; index arithmetic is taken to stay below 2^31.
    - The stack loop of the fill takes fuel, one unit a turn; the two scans
      and the span loop of a turn are bounded by the canvas and need none.
    - Numbers of the rasterizer and of the callers of the fill are
      rationals. The operations that size the canvas and that place a seed
      are rounded to doubles ([double_round]); the arithmetic of the
      sampling loop, the colour number of [handleMagic] and the index of a
      random expression are taken exactly. *)

From Stdlib Require Import ZArith List Bool Lia String Ascii.
From Stdlib Require Import QArith Qround Qminmax Qabs Lqa.
From stdpp Require Import base tactics option list list_numbers.

Local Open Scope Z_scope.

(** ** JavaScript values of the fill engine *)

Module Js.

(** [a - b] where an operand may be [undefined]. *)
Definition sub (a b : option Z) : option Z :=
  match a, b with
  | Some u, Some v => Some (u - v)
  | _, _ => None
  end.

Definition add (a b : option Z) : option Z :=
  match a, b with
  | Some u, Some v => Some (u + v)
  | _, _ => None
  end.

(** [Math.abs]. *)
Definition abs (a : option Z) : option Z := Z.abs <$> a.

(** [a <= t] and [a > t]; both are false on [NaN]. *)
Definition le (a : option Z) (t : Z) : bool :=
  match a with Some v => v <=? t | None => false end.

Definition gt (a : option Z) (t : Z) : bool :=
  match a with Some v => t <? v | None => false end.

(** [o === n] for a possibly undefined [o] and a number [n]. *)
Definition strict_eq (o : option Z) (n : Z) : bool :=
  match o with Some v => v =? n | None => false end.

(** Truthiness of an element read from a 0/1 mask. *)
Definition truthy (b : option bool) : bool :=
  match b with Some true => true | _ => false end.

(** [ToInt32], the conversion [>>] and [&] apply to their operands;
    [NaN] converts to 0. *)
Definition to_int32 (n : option Z) : Z :=
  match n with
  | Some v => (v + 2 ^ 31) mod 2 ^ 32 - 2 ^ 31
  | None => 0
  end.

End Js.

(** ** Typed arrays *)

(** [data[i]] on the pixel buffer. *)
Definition rd (data : list Z) (i : Z) : option Z :=
  if i <? 0 then None else data !! Z.to_nat i.

Definition clamp8 (v : Z) : Z := Z.max 0 (Z.min 255 v).

(** [data[i] = v] on the pixel buffer. *)
Definition wr (data : list Z) (i : Z) (v : Z) : list Z :=
  if i <? 0 then data else <[Z.to_nat i := clamp8 v]> data.

(** [mask[p]] and [mask[p] = 1 / 0] on a barrier mask. *)
Definition rdb (mask : list bool) (p : Z) : option bool :=
  if p <? 0 then None else mask !! Z.to_nat p.

Definition wrb (mask : list bool) (p : Z) (v : bool) : list bool :=
  if p <? 0 then mask else <[Z.to_nat p := v]> mask.

(** ** Colours *)

(** A colour array [[r, g, b, a]] of numbers. *)
Record rgba : Type := Rgba { ch0 : Z; ch1 : Z; ch2 : Z; ch3 : Z }.

(** The colour read at the seed; a channel is [undefined] when the seed
    index is outside the buffer. *)
Record seed_rgba : Type :=
  SeedRgba { t0 : option Z; t1 : option Z; t2 : option Z; t3 : option Z }.

Definition is_byte (v : Z) : Prop := 0 <= v <= 255.

Definition byte_rgba (c : rgba) : Prop :=
  is_byte (ch0 c) /\ is_byte (ch1 c) /\ is_byte (ch2 c) /\ is_byte (ch3 c).

(** *** [hexToRgba] *)

Fixpoint replace_hash (s : string) : string :=
  match s with
  | EmptyString => EmptyString
  | String c s' =>
      if Ascii.eqb c "#"%char then s' else String c (replace_hash s')
  end.

Fixpoint double_chars (s : string) : string :=
  match s with
  | EmptyString => EmptyString
  | String c s' => String c (String c (double_chars s'))
  end.

Definition hex_digit (c : ascii) : option Z :=
  let n := Z.of_N (N_of_ascii c) in
  if (48 <=? n) && (n <=? 57) then Some (n - 48)
  else if (97 <=? n) && (n <=? 102) then Some (n - 87)
  else if (65 <=? n) && (n <=? 70) then Some (n - 55)
  else None.

(** The digits [parseInt] consumes: the longest prefix of hexadecimal
    digits; no digit at all gives [NaN]. *)
Fixpoint hex_digits (s : string) (acc : option Z) : option Z :=
  match s with
  | EmptyString => acc
  | String c s' =>
      match hex_digit c with
      | Some d =>
          hex_digits s' (Some (match acc with Some v => v * 16 + d | None => d end))
      | None => acc
      end
  end.

Definition is_space (c : ascii) : bool :=
  let n := Z.of_N (N_of_ascii c) in
  (n =? 32) || ((9 <=? n) && (n <=? 13)).

Fixpoint skip_spaces (s : string) : string :=
  match s with
  | String c s' => if is_space c then skip_spaces s' else s
  | EmptyString => s
  end.

Definition strip_0x (s : string) : string :=
  match s with
  | String "0"%char (String c s') =>
      if Ascii.eqb c "x"%char || Ascii.eqb c "X"%char then s' else s
  | _ => s
  end.

(** [parseInt(h, 16)]. *)
Definition parseInt16 (h : string) : option Z :=
  match skip_spaces h with
  | String "-"%char s' => Z.opp <$> hex_digits (strip_0x s') None
  | String "+"%char s' => hex_digits (strip_0x s') None
  | s => hex_digits (strip_0x s) None
  end.

Definition hexToRgba (hex : string) : rgba :=
  let h := replace_hash hex in
  let h := if (String.length h =? 3)%nat then double_chars h else h in
  let num := Js.to_int32 (parseInt16 h) in
  Rgba (Z.land (Z.shiftr num 16) 255)
       (Z.land (Z.shiftr num 8) 255)
       (Z.land num 255)
       255.

(** ** The flood fill engine, [floodFill] of src/App.jsx *)

Section FloodFill.

(** [canvasEl.width], [canvasEl.height]. *)
Variables W H : Z.

Definition idx (xx yy : Z) : Z := (yy * W + xx) * 4.

Definition barrierThreshold : Z := 40.

(** [sum(abs(rgb - bg))] of the pixel starting at byte [i]. *)
Definition bg_dist (data : list Z) (bg : rgba) (i : Z) : option Z :=
  let dr := Js.sub (rd data i) (Some (ch0 bg)) in
  let dg := Js.sub (rd data (i + 1)) (Some (ch1 bg)) in
  let db := Js.sub (rd data (i + 2)) (Some (ch2 bg)) in
  Js.add (Js.add (Js.abs dr) (Js.abs dg)) (Js.abs db).

(** The loop [for (p = 0, i = 0; i < data.length; i += 4, p++)]. *)
Definition pixel_loop (data : list Z) : list Z :=
  seqZ 0 ((Z.of_nat (length data) + 3) / 4).

Definition build_barrier (data : list Z) (bg : rgba) : list bool :=
  foldl (fun barrier p =>
           if Js.gt (bg_dist data bg (4 * p)) barrierThreshold
           then wrb barrier p true else barrier)
        (replicate (Z.to_nat (W * H)) false)
        (pixel_loop data).

(** The two inner loops over [dy] and [dx]: is one of the eight
    neighbours inside the canvas set in [cur]? *)
Definition found_neighbour (cur : list bool) (x y : Z) : bool :=
  existsb (fun d : Z * Z =>
             let (dy, dx) := d in
             let yy := y + dy in
             let xx := x + dx in
             if (yy <? 0) || (H <=? yy) then false
             else if (dx =? 0) && (dy =? 0) then false
             else if (xx <? 0) || (W <=? xx) then false
             else Js.truthy (rdb cur (yy * W + xx)))
          [(-1, -1); (-1, 0); (-1, 1);
           (0, -1); (0, 0); (0, 1);
           (1, -1); (1, 0); (1, 1)].

(** One pass of the dilation at the pixel [(x, y)]. *)
Definition dilate_px (cur next : list bool) (y x : Z) : list bool :=
  let p := y * W + x in
  if Js.truthy (rdb cur p) then wrb next p true
  else if found_neighbour cur x y then wrb next p true
  else next.

(** One iteration of [for (let iter = 0; iter < gapClose; iter++)]. *)
Definition dilate (cur : list bool) : list bool :=
  foldl (fun next y => foldl (fun next x => dilate_px cur next y x) next (seqZ 0 W))
        (replicate (Z.to_nat (W * H)) false)
        (seqZ 0 H).

(** The barrier mask after the dilation block, before the carve-out. *)
Definition dilated_barrier (data : list Z) (bg : rgba) (gapClose : Z) : list bool :=
  Nat.iter (Z.to_nat gapClose) dilate (build_barrier data bg).

(** [sum] of the carve-out and of [closeEnough]: the Manhattan distance
    over the four channels between the pixel at byte [i] and [target]. *)
Definition seed_dist (data : list Z) (target : seed_rgba) (i : Z) : option Z :=
  let dr := Js.sub (rd data i) (t0 target) in
  let dg := Js.sub (rd data (i + 1)) (t1 target) in
  let db := Js.sub (rd data (i + 2)) (t2 target) in
  let da := Js.sub (rd data (i + 3)) (t3 target) in
  Js.add (Js.add (Js.add (Js.abs dr) (Js.abs dg)) (Js.abs db)) (Js.abs da).

(** The carve-out block. *)
Definition carve_out (data : list Z) (target : seed_rgba) (tolerance : Z)
    (barrier : list bool) : list bool :=
  let carveTol := Z.max tolerance 24 in
  foldl (fun barrier p =>
           if Js.le (seed_dist data target (4 * p)) carveTol
           then wrb barrier p false else barrier)
        barrier
        (pixel_loop data).

Definition sameColor (o : seed_rgba) (n : rgba) : bool :=
  Js.strict_eq (t0 o) (ch0 n) && Js.strict_eq (t1 o) (ch1 n)
  && Js.strict_eq (t2 o) (ch2 n) && Js.strict_eq (t3 o) (ch3 n).

Section Scanline.

(** What the closure [closeEnough] and the loop capture: the final barrier
    mask, the seed colour, the tolerance and the fill colour. *)
Variable barrier : list bool.
Variable target : seed_rgba.
Variable tolerance : Z.
Variable fillRgba : rgba.

Definition closeEnough (data : list Z) (i : Z) : bool :=
  let p := Z.shiftr i 2 in
  if Js.truthy (rdb barrier p) then false
  else Js.le (seed_dist data target i) tolerance.

(** [while (lx >= 0 && closeEnough(idx(lx, cy))) lx--], run for at most
    [n] tests; [cx + 1] tests always reach the exit. *)
Fixpoint scan_left (data : list Z) (cy : Z) (n : nat) (lx : Z) : Z :=
  match n with
  | O => lx
  | S n' =>
      if (0 <=? lx) && closeEnough data (idx lx cy)
      then scan_left data cy n' (lx - 1) else lx
  end.

(** [while (rx < width && closeEnough(idx(rx, cy))) rx++], run for at most
    [n] tests; [width - cx] tests always reach the exit. *)
Fixpoint scan_right (data : list Z) (cy : Z) (n : nat) (rx : Z) : Z :=
  match n with
  | O => rx
  | S n' =>
      if (rx <? W) && closeEnough data (idx rx cy)
      then scan_right data cy n' (rx + 1) else rx
  end.

(** The four channel writes of one pixel of the span. *)
Definition write_px (data : list Z) (di : Z) : list Z :=
  wr (wr (wr (wr data di (ch0 fillRgba)) (di + 1) (ch1 fillRgba))
         (di + 2) (ch2 fillRgba))
     (di + 3) (ch3 fillRgba).

(** The body of [for (let xx = lx; xx < rx; xx++)] for one [xx]. *)
Definition fill_px (cy xx : Z) (st : list Z * list (Z * Z)) : list Z * list (Z * Z) :=
  let data := write_px (fst st) (idx xx cy) in
  let stack := snd st in
  let stack :=
    if (0 <? cy) && closeEnough data (idx xx (cy - 1))
    then (xx, cy - 1) :: stack else stack in
  let stack :=
    if (cy <? H - 1) && closeEnough data (idx xx (cy + 1))
    then (xx, cy + 1) :: stack else stack in
  (data, stack).

(** The span loop, [n] pixels from [xx] on. *)
Fixpoint fill_span (cy : Z) (n : nat) (xx : Z) (st : list Z * list (Z * Z))
    : list Z * list (Z * Z) :=
  match n with
  | O => st
  | S n' => fill_span cy n' (xx + 1) (fill_px cy xx st)
  end.

(** One turn of [while (stack.length)]; the head of the list is the top of
    the stack. *)
Definition fill_step (data : list Z) (cx cy : Z) (stack : list (Z * Z))
    : list Z * list (Z * Z) :=
  let lx := scan_left data cy (Z.to_nat (cx + 1)) cx + 1 in
  let rx := scan_right data cy (Z.to_nat (W - cx)) cx in
  fill_span cy (Z.to_nat (rx - lx)) lx (data, stack).

(** The stack loop; [None] when [fuel] turns did not empty the stack. *)
Fixpoint fill_loop (fuel : nat) (data : list Z) (stack : list (Z * Z))
    : option (list Z) :=
  match stack with
  | [] => Some data
  | (cx, cy) :: stack' =>
      match fuel with
      | O => None
      | S fuel' =>
          let st := fill_step data cx cy stack' in
          fill_loop fuel' (fst st) (snd st)
      end
  end.

End Scanline.

(** The barrier mask the scanline loop works with. *)
Definition final_barrier (data : list Z) (target : seed_rgba)
    (tolerance gapClose : Z) (bgHex : string) : list bool :=
  carve_out data target tolerance
    (dilated_barrier data (hexToRgba bgHex) gapClose).

Definition seed_colour (data : list Z) (x y : Z) : seed_rgba :=
  let start := idx x y in
  SeedRgba (rd data start) (rd data (start + 1))
           (rd data (start + 2)) (rd data (start + 3)).

(** [floodFill(canvasEl, x, y, fillRgba, tolerance, gapClose, bgHex)] on a
    canvas whose image data is [data]: the image data of the canvas when the
    call returns, [None] when the stack loop is still running after [fuel]
    turns. *)
Definition floodFill (fuel : nat) (data : list Z) (x y : Z) (fillRgba : rgba)
    (tolerance gapClose : Z) (bgHex : string) : option (list Z) :=
  let start := idx x y in
  let target := seed_colour data x y in
  if sameColor target fillRgba then Some data
  else
    let barrier := final_barrier data target tolerance gapClose bgHex in
    if bool_decide (rdb barrier (Z.shiftr start 2) = Some true) then Some data
    else fill_loop barrier target tolerance fillRgba fuel data [(x, y)].

End FloodFill.



(** ** The curve rasterizer, [drawFunction] and [fitCanvas] of
    src/components/Canvas.jsx

    Numbers of the rasterizer are rationals. The products and quotients
    that size the canvas ([fitCanvas], the logical size of [drawFunction])
    are rounded to doubles as JavaScript rounds them; the arithmetic of the
    sampling loop is taken exactly. The host functions [Math.cos],
    [Math.sin] and the constant [Math.PI] are parameters, and so is the
    evaluator that mathjs compiled. *)

(** *** Doubles

    The result of an arithmetic operation of JavaScript is the double
    nearest to the exact result, ties going to the even mantissa: 53 bits
    of mantissa, the unit in the last place no smaller than [2^-1074].
    Results beyond the largest double (infinities) are outside the model. *)

(** [2^k] for an integer [k] of either sign. *)
Definition pow2 (k : Z) : Q :=
  if 0 <? k then inject_Z (2 ^ k) else 1 # Z.to_pos (2 ^ (- k)).

(** [floor (log2 x)] for a positive [x]. *)
Definition Qlog2 (x : Q) : Z :=
  let k := Z.log2 (Qnum x) - Z.log2 (Zpos (Qden x)) in
  if Qle_bool (pow2 k) x then k else k - 1.

(** The nearest integer, ties to the even one. *)
Definition round_half_even (v : Q) : Z :=
  let f := Qfloor v in
  match (v - inject_Z f ?= 1 # 2)%Q with
  | Lt => f
  | Eq => if Z.even f then f else f + 1
  | Gt => f + 1
  end.

(** The exponent of the unit in the last place of the double nearest to
    [x]. *)
Definition double_exp (x : Q) : Z := Z.max (-1074) (Qlog2 (Qabs x) - 52).

(** The double nearest to [x]. *)
Definition double_round (x : Q) : Q :=
  let r := Qred x in
  if Qeq_bool r 0 then 0%Q
  else (inject_Z (round_half_even (r / pow2 (double_exp r))) * pow2 (double_exp r))%Q.

Section Rasterizer.

Local Open Scope Q_scope.

Variable Math_PI : Q.
Variables Math_cos Math_sin : Q -> Q.

(** The object [scope]: the parameters and the sample variable. *)
Record scope : Type := Scope { sc_a : Q; sc_b : Q; sc_c : Q; sc_x : Q }.

(** [scope.x = x]. *)
Definition set_x (s : scope) (x : Q) : scope :=
  Scope (sc_a s) (sc_b s) (sc_c s) x.

(** What one sample gives: [compiled.evaluate(scope)] converted by
    [Number], finite; or not finite; or an exception. *)
Inductive sample : Type :=
| Finite (y : Q)
| NonFinite
| Threw.

Inductive path_cmd : Type :=
| MoveTo (px py : Q)
| LineTo (px py : Q).

(** The canvas element as [drawFunction] and [fitCanvas] use it. *)
Record canvas : Type := Canvas {
  cv_width : Z;
  cv_height : Z;
  cv_dpr : Q;
  style_width : Z;
  style_height : Z
}.

(** What a call of [drawFunction] does to the context. *)
Record drawn : Type := Drawn {
  d_cleared : option string;
  d_rotate : option Q;
  d_path : list path_cmd;
  d_alpha : Q;
  d_width : Q;
  d_style : string
}.

(** [v || d] on numbers and on strings. *)
Definition num_or (v d : Q) : Q := if Qeq_bool v 0 then d else v.

Definition str_or (s d : string) : string :=
  match s with EmptyString => d | _ => s end.

Definition X_RANGE_min : Q := -10.
Definition X_RANGE_max : Q := 10.
Definition yMin : Q := -5.
Definition yMax : Q := 5.

(** [canvas.width / dpr] and [canvas.height / dpr], with
    [dpr = canvas._dpr || 1]. *)
Definition css_width (c : canvas) : Q :=
  double_round (inject_Z (cv_width c) / num_or (cv_dpr c) 1).
Definition css_height (c : canvas) : Q :=
  double_round (inject_Z (cv_height c) / num_or (cv_dpr c) 1).

Definition tilt_rad (tiltAngleDeg : Q) : Q := tiltAngleDeg * Math_PI / 180.

Definition rotatedWidth (width height tiltAngleDeg : Q) : Q :=
  Qabs (width * Math_cos (tilt_rad tiltAngleDeg))
  + Qabs (height * Math_sin (tilt_rad tiltAngleDeg)).

Definition overscanPx (width height tiltAngleDeg : Q) : Q :=
  Qmax 0 ((rotatedWidth width height tiltAngleDeg - width) / 2).

Definition pxPerXExt (width height tiltAngleDeg : Q) : Q :=
  (width + 2 * overscanPx width height tiltAngleDeg) / (X_RANGE_max - X_RANGE_min).

Definition pxPerY (height : Q) : Q := height / (yMax - yMin).

(** [steps = Math.max(300, Math.floor(effectiveWidth))]. *)
Definition draw_steps (width height tiltAngleDeg : Q) : Z :=
  Z.max 300 (Qfloor (width + 2 * overscanPx width height tiltAngleDeg)).

(** [x = xMin + t * (xMax - xMin)] with [t = i / steps]. *)
Definition sample_x (steps i : Z) : Q :=
  X_RANGE_min + (inject_Z i / inject_Z steps) * (X_RANGE_max - X_RANGE_min).

Section Loop.

Variable compiled : scope -> sample.
Variable sc : scope.
Variables width height tiltAngleDeg : Q.

(** The sampling loop from index [i] on, [first] being the flag of the
    source; the path commands it issues, in order. *)
Fixpoint draw_loop (first : bool) (indices : list Z) : list path_cmd :=
  match indices with
  | [] => []
  | i :: rest =>
      let x := sample_x (draw_steps width height tiltAngleDeg) i in
      match compiled (set_x sc x) with
      | Finite y =>
          let px := (x - X_RANGE_min) * pxPerXExt width height tiltAngleDeg
                    - overscanPx width height tiltAngleDeg in
          let py := height - (y - yMin) * pxPerY height in
          if first then MoveTo px py :: draw_loop false rest
          else LineTo px py :: draw_loop false rest
      | NonFinite => draw_loop true rest
      | Threw => draw_loop true rest
      end
  end.

End Loop.

(** [for (let i = 0; i <= steps; i++)]. *)
Definition sample_indices (width height tiltAngleDeg : Q) : list Z :=
  seqZ 0 (draw_steps width height tiltAngleDeg + 1).

Definition drawFunction (c : canvas) (compiled : scope -> sample) (sc : scope)
    (lineColor bgColor : string) (tiltAngleDeg : Q) (skipClear : bool)
    (lineWidth lineOpacity : Q) : drawn :=
  let width := css_width c in
  let height := css_height c in
  {| d_cleared := if skipClear then None else Some (str_or bgColor "#ffffff");
     d_rotate := if Qeq_bool tiltAngleDeg 0 then None else Some (tilt_rad tiltAngleDeg);
     d_path := draw_loop compiled sc width height tiltAngleDeg true
                 (sample_indices width height tiltAngleDeg);
     d_alpha := Qmin 1 (Qmax 0 (num_or lineOpacity 1));
     d_width := Qmax (1 # 2) (num_or lineWidth 2);
     d_style := str_or lineColor "#111827" |}.

(** [Math.round]. *)
Definition Math_round (v : Q) : Z := Qfloor (v + (1 # 2)).

(** [fitCanvas], given the sizes it reads from the page. *)
Definition fitCanvas (clientWidth clientHeight innerHeight : Z) (heightVh : Q)
    (fillParent : bool) (devicePixelRatio : Q) : canvas :=
  let dpr := Qmax 1 (num_or devicePixelRatio 1) in
  let cssWidth := clientWidth in
  let cssHeight :=
    if fillParent then Z.max 0 clientHeight
    else Math_round (double_round (inject_Z innerHeight
                                   * double_round (heightVh / 100))) in
  {| cv_width := Qfloor (double_round (inject_Z cssWidth * dpr));
     cv_height := Qfloor (double_round (inject_Z cssHeight * dpr));
     cv_dpr := dpr;
     style_width := cssWidth;
     style_height := cssHeight |}.

End Rasterizer.

(** *** Counting on the path and on the samples *)

Definition is_moveTo (c : path_cmd) : bool :=
  match c with MoveTo _ _ => true | LineTo _ _ => false end.

Definition moveTo_count (path : list path_cmd) : nat :=
  length (List.filter is_moveTo path).

Definition failed (s : sample) : bool :=
  match s with Finite _ => false | NonFinite => true | Threw => true end.

(** The outcomes of the samples of one render, in order. *)
Definition outcomes (compiled : scope -> sample) (sc : scope) (steps : Z)
    (indices : list Z) : list sample :=
  List.map (fun i => compiled (set_x sc (sample_x steps i))) indices.

Definition failure_count (outs : list sample) : nat :=
  length (List.filter failed outs).

(** Every failed sample stands alone between two finite samples;
    [prev_ok] tells whether the sample before the list was finite. *)
Fixpoint gaps_isolated (prev_ok : bool) (outs : list sample) : bool :=
  match outs with
  | [] => prev_ok
  | s :: rest =>
      if failed s then prev_ok && gaps_isolated false rest
      else gaps_isolated true rest
  end.

(** The point a path command names. *)
Definition cmd_point (c : path_cmd) : Q * Q :=
  match c with MoveTo px py => (px, py) | LineTo px py => (px, py) end.

(** [lineOpacity] clamped to [0, 1]. *)
Definition clamp01 (v : Q) : Q := Qmin 1 (Qmax 0 v).

(** What the flag [first] adds to the number of segments still to start. *)
Definition flag_weight (first : bool) : nat := if first then 1%nat else 0%nat.


(** The indices of the finite samples of one render, in order. *)
Definition finite_indices (compiled : scope -> sample) (sc : scope) (steps : Z)
    (indices : list Z) : list Z :=
  List.filter (fun i => negb (failed (compiled (set_x sc (sample_x steps i)))))
              indices.

(** For each finite sample in turn, whether a new polyline has to start
    there: at the first finite sample, and at every finite sample that does
    not directly follow the finite sample before it; [prev] is the index of
    the finite sample before the list. *)
Fixpoint segment_starts (prev : option Z) (fin : list Z) : list bool :=
  match fin with
  | [] => []
  | i :: rest =>
      match prev with
      | Some p => negb (i =? p + 1)
      | None => true
      end :: segment_starts (Some i) rest
  end.

(** What the flag [first] knows when the loop reaches the sample [a]:
    it is down exactly when the sample before [a] was finite. *)
Definition flag_tracks (first : bool) (prev : option Z) (a : Z) : Prop :=
  match prev with
  | None => first = true
  | Some p => (first = false /\ p = a - 1) \/ (first = true /\ p < a - 1)
  end.

(** ** Views of the pixel buffer used by the statements *)

(** The colour a written pixel holds afterwards. *)
Definition stored_fill (fillRgba : rgba) : seed_rgba :=
  SeedRgba (Some (clamp8 (ch0 fillRgba))) (Some (clamp8 (ch1 fillRgba)))
           (Some (clamp8 (ch2 fillRgba))) (Some (clamp8 (ch3 fillRgba))).

(** The four channels of the pixel that starts at byte [i]. *)
Definition pixel_at (data : list Z) (i : Z) : seed_rgba :=
  SeedRgba (rd data i) (rd data (i + 1)) (rd data (i + 2)) (rd data (i + 3)).

(** The distance [closeEnough] computes for a pixel of colour [c]. *)
Definition colour_dist (target c : seed_rgba) : option Z :=
  Js.add (Js.add (Js.add (Js.abs (Js.sub (t0 c) (t0 target)))
                         (Js.abs (Js.sub (t1 c) (t1 target))))
                 (Js.abs (Js.sub (t2 c) (t2 target))))
         (Js.abs (Js.sub (t3 c) (t3 target))).


(** The pixel number [ps] holds the fill colour. *)
Definition pixel_holds (fillRgba : rgba) (ps : Z) (data : list Z) : Prop :=
  pixel_at data (4 * ps) = stored_fill fillRgba.

(** What [getImageData(0, 0, width, height)] returns: four bytes a pixel. *)
Definition image_data (W H : Z) (data : list Z) : Prop :=
  Z.of_nat (length data) = 4 * (W * H).

(** The number of pixels that are close enough, the quantity the scanline
    loop consumes. *)
Definition close_count (barrier : list bool) (target : seed_rgba)
    (tolerance : Z) (data : list Z) : nat :=
  length (List.filter (fun p => closeEnough barrier target tolerance data (4 * p))
                      (pixel_loop data)).

(** Turns of the stack loop that suffice on a [W] by [H] canvas. *)
Definition enough_fuel (W H : Z) : nat := S (2 * Z.to_nat (W * H)).

(** ** The region a fill covers *)

(** The pixel [(x, y)] lies on the canvas. *)
Definition inside (W H x y : Z) : Prop := 0 <= x < W /\ 0 <= y < H.

(** Two pixels share an edge. *)
Definition adjacent (x y x' y' : Z) : Prop :=
  Z.abs (x - x') + Z.abs (y - y') = 1.

(** The pixels that a path of edge-sharing pixels on the canvas, all
    satisfying [ok], joins to the seed [(sx, sy)]. *)
Inductive region (W H : Z) (ok : Z -> Z -> bool) (sx sy : Z) : Z -> Z -> Prop :=
| region_seed :
    inside W H sx sy -> ok sx sy = true -> region W H ok sx sy sx sy
| region_step x y x' y' :
    region W H ok sx sy x y -> adjacent x y x' y' -> inside W H x' y' ->
    ok x' y' = true -> region W H ok sx sy x' y'.

(** [closeEnough(idx(x, y))] on the buffer [data]. *)
Definition close_at (W : Z) (barrier : list bool) (target : seed_rgba)
    (tolerance : Z) (data : list Z) (x y : Z) : bool :=
  closeEnough barrier target tolerance data (idx W x y).

(** The state of the stack loop between two turns, on the way from the
    buffer [data0] and the seed [(sx, sy)]: a pixel is filled when it was
    close enough in [data0] and is not any more. *)
Record fill_inv (W H : Z) (barrier : list bool) (target : seed_rgba)
    (tolerance : Z) (fillRgba : rgba) (data0 : list Z) (sx sy : Z)
    (d : list Z) (stack : list (Z * Z)) : Prop := FillInv {
  inv_px : forall x y, inside W H x y ->
    pixel_at d (idx W x y) = pixel_at data0 (idx W x y)
    \/ (close_at W barrier target tolerance data0 x y = true
        /\ pixel_at d (idx W x y) = stored_fill fillRgba);
  inv_stack : forall cx cy, (cx, cy) ∈ stack ->
    inside W H cx cy
    /\ (close_at W barrier target tolerance data0 cx cy = true ->
        region W H (close_at W barrier target tolerance data0) sx sy cx cy);
  inv_sound : forall x y, inside W H x y ->
    close_at W barrier target tolerance data0 x y = true ->
    close_at W barrier target tolerance d x y = false ->
    region W H (close_at W barrier target tolerance data0) sx sy x y;
  inv_closed : forall x y x' y', inside W H x y ->
    close_at W barrier target tolerance data0 x y = true ->
    close_at W barrier target tolerance d x y = false ->
    adjacent x y x' y' -> inside W H x' y' ->
    close_at W barrier target tolerance data0 x' y' = true ->
    close_at W barrier target tolerance d x' y' = false \/ (x', y') ∈ stack;
  inv_seed :
    close_at W barrier target tolerance d sx sy = false \/ (sx, sy) ∈ stack
}.


(** ** The callers of the fill, [handleBucketClick] and [handleMagic] of
    src/App.jsx *)

(** [canvasEl.width || rect.width], divided by [rect.width]: a double. *)
Definition click_scale (canvas_dim : Z) (rect_dim : Q) : Q :=
  double_round (num_or (inject_Z canvas_dim) rect_dim / rect_dim).

(** The seed [handleBucketClick] passes to [floodFill] for a click at
    [(clientX, clientY)], the canvas having the bounding rectangle
    [rect_left, rect_top, rect_width, rect_height]; the difference and the
    product are rounded to doubles. *)
Definition click_coord (canvas_dim : Z) (rect_start rect_dim client : Q) : Z :=
  Qfloor (double_round (double_round (client - rect_start)
                        * click_scale canvas_dim rect_dim)).

Definition click_seed (canvas_width canvas_height : Z)
    (rect_left rect_top rect_width rect_height clientX clientY : Q) : Z * Z :=
  (click_coord canvas_width rect_left rect_width clientX,
   click_coord canvas_height rect_top rect_height clientY).

(** A digit of [Number.prototype.toString(16)]. *)
Definition hex_char (d : Z) : ascii :=
  if d <? 10 then ascii_of_N (Z.to_N (48 + d)) else ascii_of_N (Z.to_N (87 + d)).

(** The digits of [n], most significant first, in front of [acc]. *)
Fixpoint toString16_aux (fuel : nat) (n : Z) (acc : string) : string :=
  match fuel with
  | O => acc
  | S fuel' =>
      let acc' := String (hex_char (n mod 16)) acc in
      if n / 16 =? 0 then acc' else toString16_aux fuel' (n / 16) acc'
  end.

(** [n.toString(16)] for an integer [n]. *)
Definition toString16 (n : Z) : string :=
  if n <? 0
  then String "-"%char
         (toString16_aux (S (Z.to_nat (Z.log2 (- n)))) (- n) EmptyString)
  else toString16_aux (S (Z.to_nat (Z.log2 n))) n EmptyString.

Fixpoint pad_chars (k : nat) (c : ascii) (s : string) : string :=
  match k with
  | O => s
  | S k' => String c (pad_chars k' c s)
  end.

(** [s.padStart(len, c)] for a one-character filler. *)
Definition padStart (s : string) (len : nat) (c : ascii) : string :=
  pad_chars (len - String.length s) c s.

(** One turn of the loop of [handleMagic], the three calls of
    [Math.random()] having given [r1], [r2] and [r3]: the seed, each
    coordinate [Math.floor(r * (canvasEl.width || rect.width))] with the
    product rounded to a double, and the colour string. *)
Definition magic_point (r : Q) (canvas_dim : Z) (rect_dim : Q) : Z :=
  Qfloor (double_round (r * num_or (inject_Z canvas_dim) rect_dim)).

Definition magic_number (r : Q) : Z := Qfloor (r * 16777215).

Definition magic_color (r : Q) : string :=
  String "#"%char (padStart (toString16 (magic_number r)) 6 "0"%char).


(** ** The exact-colour fill, [handleCanvasClick] of
    src/components/Canvas.jsx *)

(** [parseHex]; a channel is [NaN] when [parseInt] finds no digit. *)
Definition parseHex (h : string) : option Z * option Z * option Z :=
  let h := match h with String "#"%char h' => h' | _ => h end in
  if (String.length h =? 3)%nat then
    match h with
    | String a (String b (String c EmptyString)) =>
        (parseInt16 (String a (String a EmptyString)),
         parseInt16 (String b (String b EmptyString)),
         parseInt16 (String c (String c EmptyString)))
    | _ => (None, None, None)
    end
  else
    (parseInt16 (substring 0 2 h), parseInt16 (substring 2 2 h),
     parseInt16 (substring 4 2 h)).

(** [data[i] === targetR], both sides being a number or [undefined]. *)
Definition same_value (d t : option Z) : bool :=
  match d, t with
  | Some u, Some v => u =? v
  | None, None => true
  | _, _ => false
  end.

(** [targetR === repR], the left side a number or [undefined], the right
    side a number or [NaN]. *)
Definition same_number (t r : option Z) : bool :=
  match t, r with
  | Some u, Some v => u =? v
  | _, _ => false
  end.

(** What a typed array stores for a number or [NaN], before the clamp. *)
Definition nan_to_0 (v : option Z) : Z := default 0 v.

Section CanvasClick.

(** [canvas.width], [canvas.height]. *)
Variables iw ih : Z.

(** The colour at the click and the replacement colour. *)
Variable target : seed_rgba.
Variables repR repG repB : option Z.

Definition matchTarget (data : list Z) (i : Z) : bool :=
  same_value (rd data i) (t0 target) && same_value (rd data (i + 1)) (t1 target)
  && same_value (rd data (i + 2)) (t2 target)
  && same_value (rd data (i + 3)) (t3 target).

Definition colorPixel (data : list Z) (i : Z) : list Z :=
  wr (wr (wr (wr data i (nan_to_0 repR)) (i + 1) (nan_to_0 repG))
         (i + 2) (nan_to_0 repB))
     (i + 3) 255.

(** [while (left >= 0) { ...; if (!matchTarget(i)) break; left-- }], at
    most [n] tests. *)
Fixpoint click_left (data : list Z) (cy : Z) (n : nat) (left : Z) : Z :=
  match n with
  | O => left
  | S n' =>
      if 0 <=? left then
        if matchTarget data ((cy * iw + left) * 4)
        then click_left data cy n' (left - 1) else left
      else left
  end.

Fixpoint click_right (data : list Z) (cy : Z) (n : nat) (right : Z) : Z :=
  match n with
  | O => right
  | S n' =>
      if right <? iw then
        if matchTarget data ((cy * iw + right) * 4)
        then click_right data cy n' (right + 1) else right
      else right
  end.

(** The body of the span loop for one [px]; the stack is the flat array of
    the source, its last element first. *)
Definition click_px (cy px : Z) (st : list Z * list Z) : list Z * list Z :=
  let data := colorPixel (fst st) ((cy * iw + px) * 4) in
  let stack := snd st in
  let stack :=
    if 0 <? cy then
      if matchTarget data (((cy - 1) * iw + px) * 4)
      then (cy - 1) :: px :: stack else stack
    else stack in
  let stack :=
    if cy <? ih - 1 then
      if matchTarget data (((cy + 1) * iw + px) * 4)
      then (cy + 1) :: px :: stack else stack
    else stack in
  (data, stack).

Fixpoint click_span (cy : Z) (n : nat) (px : Z) (st : list Z * list Z)
    : list Z * list Z :=
  match n with
  | O => st
  | S n' => click_span cy n' (px + 1) (click_px cy px st)
  end.

Definition click_step (data : list Z) (cx cy : Z) (stack : list Z)
    : list Z * list Z :=
  let left := click_left data cy (Z.to_nat (cx + 1)) cx + 1 in
  let right := click_right data cy (Z.to_nat (iw - cx)) cx in
  click_span cy (Z.to_nat (right - left)) left (data, stack).

(** [while (stack.length)]. With one element left [cx] would be
    [undefined], and the turn would do nothing. *)
Fixpoint click_loop (fuel : nat) (data : list Z) (stack : list Z)
    : option (list Z) :=
  match stack with
  | [] => Some data
  | cy :: rest =>
      match fuel with
      | O => None
      | S fuel' =>
          match rest with
          | [] => click_loop fuel' data []
          | cx :: stack' =>
              let st := click_step data cx cy stack' in
              click_loop fuel' (fst st) (snd st)
          end
      end
  end.

End CanvasClick.

(** The fill of [handleCanvasClick] at the pixel [(x, y)], [hex] being the
    trimmed colour string: the image data put back on the canvas, [None]
    when the stack loop is still running after [fuel] turns. *)
Definition canvas_click_fill (iw ih : Z) (fuel : nat) (data : list Z) (x y : Z)
    (hex : string) : option (list Z) :=
  let target := pixel_at data ((y * iw + x) * 4) in
  let '(repR, repG, repB) := parseHex hex in
  if same_number (t0 target) repR && same_number (t1 target) repG
     && same_number (t2 target) repB && same_number (t3 target) (Some 255)
  then Some data
  else click_loop iw ih target repR repG repB fuel data [y; x].

(** The stack of pairs that a flat stack holds. *)
Definition flat_stack (pairs : list (Z * Z)) : list Z :=
  flat_map (fun p => [snd p; fst p]) pairs.

(** The pixels of the colour read at the seed. *)
Definition same_colour_at (iw : Z) (data : list Z) (x y px py : Z) : bool :=
  matchTarget (pixel_at data ((y * iw + x) * 4)) data ((py * iw + px) * 4).


(** ** The batch of [handleMagic] and the random choice of an expression *)

(** One turn of the loop of [handleMagic]: turn [i] takes the calls
    [3 i], [3 i + 1] and [3 i + 2] of [Math.random()] from [rand]. *)
Definition magic_fill (W H : Z) (fuel : nat) (tolerance gapClose : Z)
    (bgHex : string) (rect_width rect_height : Q) (rand : nat -> Q) (i : nat)
    (data : list Z) : option (list Z) :=
  let px := magic_point (rand (3 * i)%nat) W rect_width in
  let py := magic_point (rand (3 * i + 1)%nat) H rect_height in
  let color := magic_color (rand (3 * i + 2)%nat) in
  floodFill W H fuel data px py (hexToRgba color) tolerance gapClose bgHex.

(** The ten fills of [handleMagic], each on the buffer the one before left;
    the pauses for a frame between them change nothing. [None] when a fill
    is still running after [fuel] turns of its stack loop. *)
Definition handleMagic (W H : Z) (fuel : nat) (tolerance gapClose : Z)
    (bgHex : string) (rect_width rect_height : Q) (rand : nat -> Q)
    (data : list Z) : option (list Z) :=
  foldl (fun acc i =>
           match acc with
           | Some d => magic_fill W H fuel tolerance gapClose bgHex rect_width
                         rect_height rand i d
           | None => None
           end)
        (Some data) (seq 0 10).




(** ** Small canvases used as test inputs *)

Definition white : list Z := [255; 255; 255; 255].
Definition black : list Z := [0; 0; 0; 255].
Definition red : rgba := Rgba 255 0 0 255.
Definition bgWhite : string := "#ffffff".

(** A white row of three pixels with a black pixel in the middle. *)
Definition row_wbw : list Z := white ++ black ++ white.

(** A white 2 by 2 canvas, and the same canvas filled with red. *)
Definition canvas_white : list Z := white ++ white ++ white ++ white.
Definition red_px : list Z := [255; 0; 0; 255].
Definition canvas_red : list Z := red_px ++ red_px ++ red_px ++ red_px.

(** A white column of two pixels, and a fill colour one step from white. *)
Definition column_white : list Z := white ++ white.
Definition near_white : rgba := Rgba 254 255 255 255.
Definition near_white_px : list Z := [254; 255; 255; 255].
Definition column_near_white : list Z := near_white_px ++ near_white_px.

(** A 200 by 100 canvas at device pixel ratio 1, drawn without tilt; at the
    angle 0 the host functions give [cos 0 = 1] and [sin 0 = 0]. *)
Definition canvas_200x100 : canvas := Canvas 200 100 1 200 100.
Definition pi_approx : Q := 355 # 113.
Definition cos_at_0 (rad : Q) : Q := 1.
Definition sin_at_0 (rad : Q) : Q := 0.
Definition scope_101 : scope := Scope 1 0 1 0.

(** An evaluator that is finite from 0 on and not finite below, as the
    compiled [sqrt(x)] is once [Number] has converted its complex values. *)
Definition half_domain (s : scope) : sample :=
  if Qle_bool 0 (sc_x s) then Finite 0 else NonFinite.

(** An evaluator that is finite everywhere but at [x = 0], as the compiled
    [1/x] is. *)
Definition pole_at_0 (s : scope) : sample :=
  if Qeq_bool (sc_x s) 0 then NonFinite else Finite (1 / sc_x s).

Definition render_200x100 (compiled : scope -> sample) : drawn :=
  drawFunction pi_approx cos_at_0 sin_at_0 canvas_200x100 compiled scope_101
    "#111827" "#ffffff" 0 false 2 1.

(** ** The model on small inputs *)

Example hexToRgba_six_digits :
  hexToRgba "#12aBcd" = Rgba 18 171 205 255.
Proof. reflexivity. Qed.

Example hexToRgba_three_digits :
  hexToRgba "#fe8" = Rgba 255 238 136 255.
Proof. reflexivity. Qed.

Example hexToRgba_not_a_number :
  hexToRgba "#zzz" = Rgba 0 0 0 255.
Proof. reflexivity. Qed.

(** An all-background canvas is recoloured entirely. *)
Example fill_white_canvas :
  floodFill 2 2 (enough_fuel 2 2) canvas_white 1 1 red 24 0 bgWhite = Some canvas_red.
Proof. reflexivity. Qed.

(** A black pixel stops the fill of a row. *)
Example fill_stops_at_line :
  floodFill 3 1 (enough_fuel 3 1) row_wbw 0 0 red 24 0 bgWhite
  = Some (red_px ++ black ++ white).
Proof. reflexivity. Qed.

(** One pass of dilation widens the black pixel to its two neighbours. *)
Example dilate_row :
  dilated_barrier 3 1 row_wbw (hexToRgba bgWhite) 0 = [false; true; false]
  /\ dilated_barrier 3 1 row_wbw (hexToRgba bgWhite) 1 = [true; true; true].
Proof. split; reflexivity. Qed.

(** A constant 0 on the 200 by 100 canvas: 301 samples, one segment, and
    the sample at [x = 0] lands on the pixel [(100, 50)]. *)
Example render_constant :
  length (d_path (render_200x100 (fun _ => Finite 0))) = 301%nat
  /\ moveTo_count (d_path (render_200x100 (fun _ => Finite 0))) = 1%nat
  /\ match d_path (render_200x100 (fun _ => Finite 0)) !! 150%nat with
     | Some (LineTo px py) => (px == 100 /\ py == 50)%Q
     | _ => False
     end.
Proof.
  split; [vm_compute; reflexivity |]. split; [vm_compute; reflexivity |].
  vm_compute. split; reflexivity.
Qed.

Example parseHex_six_digits : parseHex "#12aBcd" = (Some 18, Some 171, Some 205).
Proof. reflexivity. Qed.

Example parseHex_three_digits : parseHex "#fe8" = (Some 255, Some 238, Some 136).
Proof. reflexivity. Qed.

Example click_fill_row :
  canvas_click_fill 3 1 (enough_fuel 3 1) row_wbw 0 0 "#ff0000"
  = Some (red_px ++ black ++ white).
Proof. reflexivity. Qed.

Example click_fill_canvas :
  canvas_click_fill 2 2 (enough_fuel 2 2) canvas_white 1 0 "#ff0000" = Some canvas_red.
Proof. reflexivity. Qed.


(** The double nearest to 12/11 prints as 1.0909090909090908; a parent 121
    CSS pixels wide at that ratio gets 132 pixels, the product rounding up
    to 132, and the logical width [132 / dpr] exceeds 121. A viewport 50
    high at 29 per cent gives 14 CSS pixels, 50 * 0.29 being just below
    14.5. *)
Example fitCanvas_rounds :
  cv_width (fitCanvas 121 50 800 60 false (double_round (12 # 11))) = 132
  /\ Qfloor (inject_Z 121 * double_round (12 # 11)) = 131
  /\ (121 < css_width (fitCanvas 121 50 800 60 false (double_round (12 # 11))))%Q
  /\ style_height (fitCanvas 121 50 50 29 false 1) = 14.
Proof. vm_compute. repeat split; reflexivity. Qed.

(** The click of the last double before the right edge of a rectangle 57
    wide on a canvas 71 wide. *)
Example click_seed_rounds :
  click_seed 71 71 0 0 57 57 (57 - (1 # 2 ^ 47)) 0 = (71, 0).
Proof. vm_compute. reflexivity. Qed.

(** A pole in the middle of the domain: two polylines. *)
Example segments_at_pole :
  List.filter (fun b : bool => b)
    (List.map is_moveTo (d_path (render_200x100 pole_at_0))) = [true; true].
Proof. vm_compute. reflexivity. Qed.
(** ** Lemmas on the typed arrays *)

Lemma length_wrb mask p v : length (wrb mask p v) = length mask.
Proof. unfold wrb. destruct (p <? 0); [done | apply length_insert]. Qed.

Lemma length_wr data i v : length (wr data i v) = length data.
Proof. unfold wr. destruct (i <? 0); [done | apply length_insert]. Qed.

Lemma wrb_lookup_eq mask (q : nat) v :
  (q < length mask)%nat -> wrb mask (Z.of_nat q) v !! q = Some v.
Proof.
  intros Hq. unfold wrb.
  destruct (Z.ltb_spec (Z.of_nat q) 0) as [Hn | _]; [lia |].
  rewrite Nat2Z.id. by apply list_lookup_insert_eq.
Qed.

Lemma wrb_lookup_ne mask p (q : nat) v :
  p <> Z.of_nat q -> wrb mask p v !! q = mask !! q.
Proof.
  intros Hne. unfold wrb.
  destruct (Z.ltb_spec p 0) as [_ | Hp]; [done |].
  apply list_lookup_insert_ne. lia.
Qed.

Lemma wrb_keeps mask p (q : nat) v :
  mask !! q = Some v -> wrb mask p v !! q = Some v.
Proof.
  intros Hq. destruct (decide (p = Z.of_nat q)) as [-> | Hne].
  - apply wrb_lookup_eq. by eapply lookup_lt_Some.
  - by rewrite wrb_lookup_ne.
Qed.

(** A loop whose turns keep the length of the mask and never change the
    entry [q] once it is [v] leaves it at [v] as soon as one turn sets it. *)
Lemma foldl_sets_entry {A} {v : bool} (f : list bool -> A -> list bool) (q : nat) (a0 : A) :
  (forall b a, length (f b a) = length b) ->
  (forall b a, b !! q = Some v -> f b a !! q = Some v) ->
  (forall b, (q < length b)%nat -> f b a0 !! q = Some v) ->
  forall l b, a0 ∈ l -> (q < length b)%nat -> foldl f b l !! q = Some v.
Proof.
  intros Hlen Hkeep Hset.
  assert (Hstay : forall l b, b !! q = Some v -> foldl f b l !! q = Some v).
  { induction l as [| a l IH]; intros b Hb; simpl; [done |]. apply IH, Hkeep, Hb. }
  induction l as [| a l IH]; intros b Hin Hq.
  - by apply elem_of_nil in Hin.
  - simpl. apply elem_of_cons in Hin as [<- | Hin].
    + apply Hstay, Hset, Hq.
    + apply IH; [done |]. by rewrite Hlen.
Qed.

Lemma foldl_length {A B} (f : list B -> A -> list B) :
  (forall b a, length (f b a) = length b) ->
  forall l b, length (foldl f b l) = length b.
Proof.
  intros Hlen. induction l as [| a l IH]; intros b; simpl; [done |].
  by rewrite IH.
Qed.

(** ** The barrier mask and its dilation *)

Section BarrierFacts.

Variables W H : Z.

Lemma length_build_barrier data bg :
  length (build_barrier W H data bg) = Z.to_nat (W * H).
Proof.
  unfold build_barrier. rewrite foldl_length; [apply length_replicate |].
  intros b a. destruct (Js.gt _ _); [apply length_wrb | done].
Qed.

Lemma length_dilate_px cur next y x :
  length (dilate_px W H cur next y x) = length next.
Proof.
  unfold dilate_px. destruct (Js.truthy _); [apply length_wrb |].
  destruct (found_neighbour _ _ _ _ _); [apply length_wrb | done].
Qed.

Lemma length_dilate cur : length (dilate W H cur) = Z.to_nat (W * H).
Proof.
  unfold dilate. rewrite foldl_length; [apply length_replicate |].
  intros b y. apply foldl_length. intros b' x. apply length_dilate_px.
Qed.

Lemma length_dilated_barrier data bg gapClose :
  length (dilated_barrier W H data bg gapClose) = Z.to_nat (W * H).
Proof.
  unfold dilated_barrier. destruct (Z.to_nat gapClose) as [| n]; simpl.
  - apply length_build_barrier.
  - apply length_dilate.
Qed.

Lemma dilate_px_keeps cur next y x (q : nat) :
  next !! q = Some true -> dilate_px W H cur next y x !! q = Some true.
Proof.
  intros Hq. unfold dilate_px.
  destruct (Js.truthy _); [by apply wrb_keeps |].
  destruct (found_neighbour _ _ _ _ _); [by apply wrb_keeps | done].
Qed.

(** A pass of the dilation keeps every barrier pixel of its input. *)
Lemma dilate_extensive cur (q : nat) :
  0 <= W ->
  (q < Z.to_nat (W * H))%nat ->
  cur !! q = Some true -> dilate W H cur !! q = Some true.
Proof.
  intros HW Hq Hcur.
  assert (HWH : Z.of_nat q < W * H) by lia.
  assert (HWpos : 0 < W) by (destruct (Z.eq_dec W 0) as [HW0 | HW0]; [rewrite HW0 in HWH |]; lia).
  set (y := Z.of_nat q / W). set (x := Z.of_nat q mod W).
  assert (Hx : 0 <= x < W) by (apply Z.mod_pos_bound; lia).
  assert (Hp : y * W + x = Z.of_nat q).
  { unfold y, x. rewrite (Z.div_mod (Z.of_nat q) W) at 3 by lia. lia. }
  assert (Hy : 0 <= y < H).
  { split; [apply Z.div_pos; lia |]. apply Z.div_lt_upper_bound; lia. }
  unfold dilate.
  apply (foldl_sets_entry _ q y).
  - intros b a. apply foldl_length. intros b' x'. apply length_dilate_px.
  - intros b a Hb. revert b Hb.
    induction (seqZ 0 W) as [| x' l IH]; intros b Hb; simpl; [done |].
    apply IH. by apply dilate_px_keeps.
  - intros b Hb. apply (foldl_sets_entry _ q x).
    + intros b' x'. apply length_dilate_px.
    + intros b' x'. apply dilate_px_keeps.
    + intros b' Hb'. unfold dilate_px. rewrite Hp.
      unfold rdb at 1. destruct (Z.ltb_spec (Z.of_nat q) 0); [lia |].
      rewrite Nat2Z.id, Hcur. simpl. by apply wrb_lookup_eq.
    + apply elem_of_seqZ. lia.
    + done.
  - apply elem_of_seqZ. lia.
  - rewrite length_replicate. done.
Qed.

End BarrierFacts.

(** C9. Gap-closing monotonicity: a pixel that the barrier mask marks after
    [r] dilation passes is still marked after [r + 1] passes, so the set of
    non-barrier pixels can only shrink or stay when [gapCloseRadius] goes
    from [r] to [r + 1]. *)
Theorem gap_close_monotone (W H : Z) (data : list Z) (bg : rgba) (r : Z) (p : nat) :
  0 <= W ->
  dilated_barrier W H data bg r !! p = Some true ->
  dilated_barrier W H data bg (r + 1) !! p = Some true.
Proof.
  intros HW Hp.
  destruct (Z.le_gt_cases 0 r) as [Hr | Hr].
  - unfold dilated_barrier in *.
    replace (Z.to_nat (r + 1)) with (S (Z.to_nat r)) by lia. simpl.
    apply dilate_extensive; [done | | done].
    apply lookup_lt_Some in Hp.
    fold (dilated_barrier W H data bg r) in Hp.
    by rewrite length_dilated_barrier in Hp.
  - unfold dilated_barrier in *.
    replace (Z.to_nat (r + 1)) with (Z.to_nat r) by lia. done.
Qed.

Lemma gap_close_monotone_witness :
  dilated_barrier 3 1 row_wbw (hexToRgba bgWhite) 0 !! 1%nat = Some true
  /\ dilated_barrier 3 1 row_wbw (hexToRgba bgWhite) 1 !! 1%nat = Some true.
Proof.
  split; [reflexivity |].
  apply (gap_close_monotone 3 1 row_wbw (hexToRgba bgWhite) 0 1%nat); [lia | reflexivity].
Defined.

(** ** Pixel writes and [closeEnough] *)

Lemma rd_Some data i v : rd data i = Some v -> 0 <= i < Z.of_nat (length data).
Proof.
  unfold rd. destruct (Z.ltb_spec i 0); [done |].
  intros Hl. apply lookup_lt_Some in Hl. lia.
Qed.

Lemma rd_wr_eq data i v :
  0 <= i < Z.of_nat (length data) -> rd (wr data i v) i = Some (clamp8 v).
Proof.
  intros Hi. unfold rd, wr. destruct (Z.ltb_spec i 0); [lia |].
  apply list_lookup_insert_eq. lia.
Qed.

Lemma rd_wr_ne data i j v : i <> j -> rd (wr data i v) j = rd data j.
Proof.
  intros Hne. unfold rd, wr.
  destruct (Z.ltb_spec j 0); [done |].
  destruct (Z.ltb_spec i 0); [done |].
  apply list_lookup_insert_ne. lia.
Qed.

Lemma clamp8_byte v : is_byte v -> clamp8 v = v.
Proof. unfold is_byte, clamp8. lia. Qed.

Lemma shiftr_pixel p : Z.shiftr (4 * p) 2 = p.
Proof.
  rewrite Z.shiftr_div_pow2 by lia. change (2 ^ 2) with 4.
  rewrite Z.mul_comm. apply Z.div_mul. lia.
Qed.

Lemma idx_pixel W xx yy : idx W xx yy = 4 * (yy * W + xx).
Proof. unfold idx. lia. Qed.

Section PixelFacts.

Variable barrier : list bool.
Variable target : seed_rgba.
Variable tolerance : Z.
Variable fillRgba : rgba.

Local Abbreviation ce := (closeEnough barrier target tolerance).
Local Abbreviation wpx := (write_px fillRgba).

Lemma seed_dist_pixel data i : seed_dist data target i = colour_dist target (pixel_at data i).
Proof. reflexivity. Qed.

Lemma length_write_px data di : length (wpx data di) = length data.
Proof. unfold write_px. by rewrite !length_wr. Qed.

Lemma pixel_at_write_other data p q :
  p <> q -> pixel_at (wpx data (4 * q)) (4 * p) = pixel_at data (4 * p).
Proof.
  intros Hne. unfold pixel_at, write_px.
  by rewrite !rd_wr_ne by lia.
Qed.

Lemma pixel_at_write_same data q :
  0 <= 4 * q -> 4 * q + 3 < Z.of_nat (length data) ->
  pixel_at (wpx data (4 * q)) (4 * q) = stored_fill fillRgba.
Proof.
  intros Hlo Hhi. unfold pixel_at, write_px, stored_fill.
  f_equal.
  - rewrite !rd_wr_ne by lia. apply rd_wr_eq. lia.
  - rewrite !rd_wr_ne by lia. apply rd_wr_eq. rewrite !length_wr. lia.
  - rewrite !rd_wr_ne by lia. apply rd_wr_eq. rewrite !length_wr. lia.
  - apply rd_wr_eq. rewrite !length_wr. lia.
Qed.

Lemma colour_dist_Some c v :
  colour_dist target c = Some v ->
  is_Some (t0 c) /\ is_Some (t1 c) /\ is_Some (t2 c) /\ is_Some (t3 c) /\ 0 <= v.
Proof.
  unfold colour_dist.
  destruct (t0 c), (t1 c), (t2 c), (t3 c), (t0 target), (t1 target),
    (t2 target), (t3 target); simpl; try done.
  intros [= <-]. repeat split; eauto. lia.
Qed.

(** A pixel that is close enough lies inside the buffer. *)
Lemma closeEnough_inside data i :
  ce data i = true -> 0 <= i /\ i + 3 < Z.of_nat (length data).
Proof.
  unfold closeEnough. destruct (Js.truthy _); [done |].
  rewrite seed_dist_pixel.
  destruct (colour_dist target (pixel_at data i)) as [v |] eqn:Hd; [| done].
  intros _. apply colour_dist_Some in Hd as (H0 & _ & _ & H3 & _).
  destruct H0 as [v0 H0], H3 as [v3 H3]. simpl in H0, H3.
  apply rd_Some in H0, H3. lia.
Qed.

Lemma closeEnough_write_other data p q :
  p <> q -> ce (wpx data (4 * q)) (4 * p) = ce data (4 * p).
Proof.
  intros Hne. unfold closeEnough.
  by rewrite !seed_dist_pixel, pixel_at_write_other.
Qed.


(** With an undefined seed colour nothing is close enough. *)
Lemma closeEnough_undefined data i : t0 target = None -> ce data i = false.
Proof.
  intros Hnone. unfold closeEnough. destruct (Js.truthy _); [done |].
  unfold seed_dist. rewrite Hnone.
  by destruct (rd data i).
Qed.

End PixelFacts.

(** ** The scanline loop *)

Section LoopFacts.

Variables W H : Z.
Variable barrier : list bool.
Variable target : seed_rgba.
Variable tolerance : Z.
Variable fillRgba : rgba.

Local Abbreviation ce := (closeEnough barrier target tolerance).
Local Abbreviation wpx := (write_px fillRgba).
Local Abbreviation span := (fill_span W H barrier target tolerance fillRgba).
Local Abbreviation step := (fill_step W H barrier target tolerance fillRgba).
Local Abbreviation loop := (fill_loop W H barrier target tolerance fillRgba).

Lemma fill_loop_unfold fuel data cx cy stack :
  loop (S fuel) data ((cx, cy) :: stack) =
  loop fuel (fst (step data cx cy stack)) (snd (step data cx cy stack)).
Proof. reflexivity. Qed.

Lemma scan_left_le data cy n lx :
  scan_left W barrier target tolerance data cy n lx <= lx.
Proof.
  revert lx. induction n as [| n IH]; intros lx; simpl; [lia |].
  destruct (_ && _); [| lia]. specialize (IH (lx - 1)). lia.
Qed.

Lemma scan_right_ge data cy n rx :
  rx <= scan_right W barrier target tolerance data cy n rx.
Proof.
  revert rx. induction n as [| n IH]; intros rx; simpl; [lia |].
  destruct (_ && _); [| lia]. specialize (IH (rx + 1)). lia.
Qed.

(** Every pixel the left scan passed is close enough. *)
Lemma scan_left_close data cy n lx xx :
  scan_left W barrier target tolerance data cy n lx < xx <= lx ->
  ce data (idx W xx cy) = true.
Proof.
  revert lx. induction n as [| n IH]; intros lx; simpl; [lia |].
  destruct (0 <=? lx) eqn:Hlo; simpl; [| lia].
  destruct (ce data (idx W lx cy)) eqn:Hce; [| lia].
  intros Hxx. destruct (decide (xx = lx)) as [-> | Hne]; [done |].
  apply (IH (lx - 1)). lia.
Qed.

Lemma scan_right_close data cy n rx xx :
  rx <= xx < scan_right W barrier target tolerance data cy n rx ->
  ce data (idx W xx cy) = true.
Proof.
  revert rx. induction n as [| n IH]; intros rx; simpl; [lia |].
  destruct (rx <? W) eqn:Hhi; simpl; [| lia].
  destruct (ce data (idx W rx cy)) eqn:Hce; [| lia].
  intros Hxx. destruct (decide (xx = rx)) as [-> | Hne]; [done |].
  apply (IH (rx + 1)). lia.
Qed.

(** The loops stop where the source's [while] stops. *)
Lemma scan_left_exit data cy cx :
  let lx := scan_left W barrier target tolerance data cy (Z.to_nat (cx + 1)) cx in
  (0 <=? lx) && ce data (idx W lx cy) = false.
Proof.
  simpl.
  assert (Hgen : forall n lx, lx - Z.of_nat n < 0 ->
    let r := scan_left W barrier target tolerance data cy n lx in
    (0 <=? r) && ce data (idx W r cy) = false).
  { induction n as [| n IH]; intros lx Hn; simpl.
    - destruct (Z.leb_spec 0 lx); [lia | done].
    - destruct ((0 <=? lx) && ce data (idx W lx cy)) eqn:Ht; [| done].
      apply IH. lia. }
  apply Hgen. lia.
Qed.

Lemma scan_right_exit data cy cx :
  let rx := scan_right W barrier target tolerance data cy (Z.to_nat (W - cx)) cx in
  (rx <? W) && ce data (idx W rx cy) = false.
Proof.
  simpl.
  assert (Hgen : forall n rx, W <= rx + Z.of_nat n ->
    let r := scan_right W barrier target tolerance data cy n rx in
    (r <? W) && ce data (idx W r cy) = false).
  { induction n as [| n IH]; intros rx Hn; simpl.
    - destruct (Z.ltb_spec rx W); [lia | done].
    - destruct ((rx <? W) && ce data (idx W rx cy)) eqn:Ht; [| done].
      apply IH. lia. }
  apply Hgen. lia.
Qed.

Lemma length_fill_px cy xx st :
  length (fst (fill_px W H barrier target tolerance fillRgba cy xx st)) = length (fst st).
Proof. simpl. apply length_write_px. Qed.

Lemma length_fill_span cy n xx st :
  length (fst (span cy n xx st)) = length (fst st).
Proof.
  revert xx st. induction n as [| n IH]; intros xx st; simpl; [done |].
  by rewrite IH, length_fill_px.
Qed.

(** *** Where nothing is close enough the loop changes nothing *)

Lemma fill_step_nothing_close data cx cy stack :
  (forall i, ce data i = false) -> step data cx cy stack = (data, stack).
Proof.
  intros Hno. unfold fill_step.
  assert (Hl : forall n, scan_left W barrier target tolerance data cy n cx = cx).
  { intros [| n]; simpl; [done |]. by rewrite Hno, andb_false_r. }
  assert (Hr : forall n, scan_right W barrier target tolerance data cy n cx = cx).
  { intros [| n]; simpl; [done |]. by rewrite Hno, andb_false_r. }
  rewrite Hl, Hr. replace (Z.to_nat (cx - (cx + 1))) with 0%nat by lia. done.
Qed.

Lemma fill_loop_nothing_close fuel data x y :
  (forall i, ce data i = false) -> loop (S fuel) data [(x, y)] = Some data.
Proof.
  intros Hno. rewrite fill_loop_unfold, fill_step_nothing_close by done.
  by destruct fuel.
Qed.


(** *** A recoloured pixel keeps the fill colour *)

Section SeedPixel.

(** The pixel number of the pixel under observation. *)
Variable ps : Z.

Local Abbreviation holds_fill := (pixel_holds fillRgba ps).

Lemma write_px_keeps data q : holds_fill data -> holds_fill (wpx data (4 * q)).
Proof.
  unfold pixel_holds. intros Hp.
  destruct (decide (ps = q)) as [<- | Hne].
  - assert (H0 : rd data (4 * ps) = Some (clamp8 (ch0 fillRgba)))
      by (by injection Hp).
    assert (H3 : rd data (4 * ps + 3) = Some (clamp8 (ch3 fillRgba)))
      by (by injection Hp).
    apply rd_Some in H0, H3. apply pixel_at_write_same; lia.
  - by rewrite pixel_at_write_other.
Qed.

Lemma fill_span_keeps cy n xx st :
  holds_fill (fst st) -> holds_fill (fst (span cy n xx st)).
Proof.
  revert xx st. induction n as [| n IH]; intros xx st Hp; simpl; [done |].
  apply IH. simpl. rewrite idx_pixel. by apply write_px_keeps.
Qed.

Lemma fill_span_sets cy n xx x0 st :
  ps = cy * W + x0 ->
  xx <= x0 < xx + Z.of_nat n ->
  0 <= 4 * ps -> 4 * ps + 3 < Z.of_nat (length (fst st)) ->
  holds_fill (fst (span cy n xx st)).
Proof.
  intros Hps. revert xx st.
  induction n as [| n IH]; intros xx st Hx Hlo Hhi; [lia |].
  simpl. destruct (decide (xx = x0)) as [-> | Hne].
  - apply fill_span_keeps. simpl. rewrite idx_pixel, <- Hps.
    by apply pixel_at_write_same.
  - apply IH; [lia | done |]. by rewrite length_fill_px.
Qed.

Lemma fill_step_keeps data cx cy stack :
  holds_fill data -> holds_fill (fst (step data cx cy stack)).
Proof. intros Hp. unfold fill_step. by apply fill_span_keeps. Qed.

Lemma fill_loop_keeps fuel data stack d' :
  holds_fill data -> loop fuel data stack = Some d' -> holds_fill d'.
Proof.
  revert data stack.
  induction fuel as [| fuel IH]; intros data stack Hp Hrun.
  - destruct stack as [| [cx cy] stack]; simpl in Hrun; [congruence | done].
  - destruct stack as [| [cx cy] stack]; [simpl in Hrun; congruence |].
    rewrite fill_loop_unfold in Hrun.
    eapply IH; [| exact Hrun]. by apply fill_step_keeps.
Qed.

(** The first turn of the loop recolours a seed that is close enough. *)
Lemma fill_step_sets_seed data x y stack :
  ps = y * W + x ->
  0 <= x < W ->
  ce data (idx W x y) = true ->
  holds_fill (fst (step data x y stack)).
Proof.
  intros Hps Hx Hce. unfold fill_step.
  pose proof (closeEnough_inside _ _ _ _ _ Hce) as [Hlo Hhi].
  rewrite idx_pixel, <- Hps in Hlo, Hhi.
  set (l := scan_left W barrier target tolerance data y (Z.to_nat (x + 1)) x).
  set (r := scan_right W barrier target tolerance data y (Z.to_nat (W - x)) x).
  assert (Hl : l < x).
  { unfold l. replace (Z.to_nat (x + 1)) with (S (Z.to_nat x)) by lia. simpl.
    destruct (Z.leb_spec 0 x); [| lia]. rewrite Hce. simpl.
    pose proof (scan_left_le data y (Z.to_nat x) (x - 1)). lia. }
  assert (Hr : x < r).
  { unfold r. replace (Z.to_nat (W - x)) with (S (Z.to_nat (W - x - 1))) by lia.
    simpl. destruct (Z.ltb_spec x W); [| lia]. rewrite Hce. simpl.
    pose proof (scan_right_ge data y (Z.to_nat (W - x - 1)) (x + 1)). lia. }
  apply (fill_span_sets y _ _ x); [done | lia | done | done].
Qed.

End SeedPixel.

End LoopFacts.

(** ** Termination of the scanline loop *)

Lemma filter_length_le {A} (f g : A -> bool) (l : list A) :
  (forall a, a ∈ l -> g a = true -> f a = true) ->
  (length (List.filter g l) <= length (List.filter f l))%nat.
Proof.
  induction l as [| a l IH]; intros Hle; simpl; [done |].
  assert (IH' : (length (List.filter g l) <= length (List.filter f l))%nat).
  { apply IH. intros b Hb. apply Hle. by right. }
  destruct (g a) eqn:Hg.
  - rewrite (Hle a) by (done || left). simpl. lia.
  - destruct (f a); simpl; lia.
Qed.

Lemma filter_length_lt {A} (f g : A -> bool) (l : list A) (q : A) :
  (forall a, a ∈ l -> g a = true -> f a = true) ->
  q ∈ l -> f q = true -> g q = false ->
  (length (List.filter g l) < length (List.filter f l))%nat.
Proof.
  induction l as [| a l IH]; intros Hle Hq Hf Hg; [by apply elem_of_nil in Hq |].
  assert (Hle' : forall b, b ∈ l -> g b = true -> f b = true).
  { intros b Hb. apply Hle. by right. }
  simpl. apply elem_of_cons in Hq as [<- | Hq].
  - rewrite Hf, Hg. simpl.
    pose proof (filter_length_le f g l Hle'). lia.
  - specialize (IH Hle' Hq Hf Hg).
    destruct (g a) eqn:Hga.
    + rewrite (Hle a) by (done || left). simpl. lia.
    + destruct (f a); simpl; lia.
Qed.

Lemma filter_length_bound {A} (f : A -> bool) (l : list A) :
  (length (List.filter f l) <= length l)%nat.
Proof. induction l as [| a l IH]; simpl; [done |]. destruct (f a); simpl; lia. Qed.

Section Measure.

Variables W H : Z.
Variable barrier : list bool.
Variable target : seed_rgba.
Variable tolerance : Z.
Variable fillRgba : rgba.

(** The fill colour, once stored, is not close enough to the seed colour. *)
Hypothesis fill_far :
  Js.le (colour_dist target (stored_fill fillRgba)) tolerance = false.

Local Abbreviation ce := (closeEnough barrier target tolerance).
Local Abbreviation wpx := (write_px fillRgba).
Local Abbreviation span := (fill_span W H barrier target tolerance fillRgba).
Local Abbreviation step := (fill_step W H barrier target tolerance fillRgba).
Local Abbreviation loop := (fill_loop W H barrier target tolerance fillRgba).
Local Abbreviation count := (close_count barrier target tolerance).

Lemma closeEnough_written data q :
  ce data (4 * q) = true -> ce (wpx data (4 * q)) (4 * q) = false.
Proof.
  intros Hce. apply closeEnough_inside in Hce as [Hlo Hhi].
  unfold closeEnough. destruct (Js.truthy _); [done |].
  by rewrite seed_dist_pixel, pixel_at_write_same.
Qed.

Lemma pixel_loop_write data di : pixel_loop (wpx data di) = pixel_loop data.
Proof. unfold pixel_loop. by rewrite length_write_px. Qed.

Lemma close_count_write data q :
  ce data (4 * q) = true -> (count (wpx data (4 * q)) < count data)%nat.
Proof.
  intros Hce. unfold close_count. rewrite pixel_loop_write.
  apply (filter_length_lt _ _ _ q).
  - intros p _. destruct (decide (p = q)) as [-> | Hne].
    + by rewrite closeEnough_written.
    + by rewrite closeEnough_write_other.
  - apply closeEnough_inside in Hce as [Hlo Hhi].
    unfold pixel_loop. apply elem_of_seqZ.
    assert (q + 1 <= (Z.of_nat (length data) + 3) / 4)
      by (apply Z.div_le_lower_bound; lia).
    lia.
  - done.
  - by apply closeEnough_written.
Qed.

(** The potential of a loop state: pending stack entries, and two pushes
    for each pixel that can still be recoloured. *)
Local Abbreviation potential st := (length (snd st) + 2 * count (fst st))%nat.

Lemma fill_px_potential cy xx st :
  ce (fst st) (idx W xx cy) = true ->
  (potential (fill_px W H barrier target tolerance fillRgba cy xx st)
   <= potential st)%nat.
Proof.
  intros Hce. rewrite idx_pixel in Hce.
  pose proof (close_count_write _ _ Hce) as Hcount.
  unfold fill_px. rewrite idx_pixel. simpl.
  destruct (_ && _); destruct (_ && _); simpl; lia.
Qed.

Lemma fill_span_potential cy n xx st :
  (forall k, xx <= k < xx + Z.of_nat n -> ce (fst st) (idx W k cy) = true) ->
  (potential (span cy n xx st) <= potential st)%nat.
Proof.
  revert xx st. induction n as [| n IH]; intros xx st Hall; simpl; [done |].
  etrans; [apply IH | apply fill_px_potential; apply Hall; lia].
  intros k Hk. simpl. rewrite !idx_pixel.
  rewrite closeEnough_write_other by lia.
  rewrite <- idx_pixel. apply Hall. lia.
Qed.

Lemma fill_step_potential data cx cy stack :
  (potential (step data cx cy stack) <= length stack + 2 * count data)%nat.
Proof.
  unfold fill_step.
  set (l := scan_left W barrier target tolerance data cy (Z.to_nat (cx + 1)) cx).
  set (r := scan_right W barrier target tolerance data cy (Z.to_nat (W - cx)) cx).
  etrans; [apply fill_span_potential | done].
  intros k Hk. simpl.
  destruct (Z.le_gt_cases k cx).
  - apply (scan_left_close W barrier target tolerance data cy (Z.to_nat (cx + 1)) cx).
    fold l. lia.
  - apply (scan_right_close W barrier target tolerance data cy (Z.to_nat (W - cx)) cx).
    fold r. lia.
Qed.

(** The stack empties within [potential] turns. *)
Lemma fill_loop_terminates fuel data stack :
  (length stack + 2 * count data <= fuel)%nat ->
  is_Some (loop fuel data stack).
Proof.
  revert data stack. induction fuel as [| fuel IH]; intros data stack Hfuel.
  - destruct stack as [| [cx cy] stack]; simpl in *; [eauto | lia].
  - destruct stack as [| [cx cy] stack]; [simpl; eauto |].
    rewrite fill_loop_unfold. apply IH.
    pose proof (fill_step_potential data cx cy stack). simpl in *. lia.
Qed.

Lemma close_count_bound data : (count data <= length (pixel_loop data))%nat.
Proof. apply filter_length_bound. Qed.

End Measure.

Lemma length_pixel_loop W H data :
  image_data W H data -> length (pixel_loop data) = Z.to_nat (W * H).
Proof.
  unfold image_data, pixel_loop. intros Hlen.
  rewrite length_seqZ, Hlen. f_equal.
  replace (4 * (W * H) + 3) with (3 + (W * H) * 4) by lia.
  rewrite Z.div_add by lia. reflexivity.
Qed.

(** Whenever the stored fill colour is farther from the seed colour than the
    tolerance, the call returns. *)
Lemma floodFill_returns W H data x y fillRgba tolerance gapClose bgHex :
  image_data W H data ->
  Js.le (colour_dist (seed_colour W data x y) (stored_fill fillRgba)) tolerance = false ->
  is_Some (floodFill W H (enough_fuel W H) data x y fillRgba tolerance gapClose bgHex).
Proof.
  intros Himg Hfar. unfold floodFill.
  destruct (sameColor _ _); [eauto |].
  destruct (bool_decide _); [eauto |].
  apply fill_loop_terminates; [done |].
  pose proof (close_count_bound
    (final_barrier W H data (seed_colour W data x y) tolerance gapClose bgHex)
    (seed_colour W data x y) tolerance data) as Hb.
  rewrite (length_pixel_loop W H) in Hb by done.
  unfold enough_fuel. simpl. lia.
Qed.

(** ** The seed pixel *)

Section SeedFacts.

Variables W H : Z.
Variable data : list Z.
Variables x y : Z.

Hypothesis Himg : image_data W H data.
Hypothesis Hx : 0 <= x < W.
Hypothesis Hy : 0 <= y < H.

Lemma seed_pixel_inside : 0 <= y * W + x < W * H.
Proof. nia. Qed.

Lemma seed_index_inside :
  0 <= idx W x y /\ idx W x y + 3 < Z.of_nat (length data).
Proof.
  pose proof seed_pixel_inside. unfold image_data in Himg.
  rewrite idx_pixel. lia.
Qed.

Lemma rd_inside i : 0 <= i < Z.of_nat (length data) -> is_Some (rd data i).
Proof.
  intros Hi. unfold rd. destruct (Z.ltb_spec i 0); [lia |].
  apply lookup_lt_is_Some. lia.
Qed.

(** The seed pixel is at distance 0 from the colour read at the seed. *)
Lemma seed_dist_self :
  seed_dist data (seed_colour W data x y) (idx W x y) = Some 0.
Proof.
  destruct seed_index_inside as [Hlo Hhi].
  unfold seed_dist, seed_colour. simpl.
  destruct (rd_inside (idx W x y)) as [v0 ->]; [lia |].
  destruct (rd_inside (idx W x y + 1)) as [v1 ->]; [lia |].
  destruct (rd_inside (idx W x y + 2)) as [v2 ->]; [lia |].
  destruct (rd_inside (idx W x y + 3)) as [v3 ->]; [lia |].
  simpl. f_equal. lia.
Qed.

Lemma carve_out_clears target tolerance barrier (q : nat) :
  (q < length barrier)%nat ->
  4 * Z.of_nat q < Z.of_nat (length data) ->
  Js.le (seed_dist data target (4 * Z.of_nat q)) (Z.max tolerance 24) = true ->
  carve_out data target tolerance barrier !! q = Some false.
Proof.
  intros Hq Hin Hle. unfold carve_out.
  apply (foldl_sets_entry _ q (Z.of_nat q)).
  - intros b a. destruct (Js.le (seed_dist data target (4 * a)) _);
      [apply length_wrb | done].
  - intros b a Hb. destruct (Js.le (seed_dist data target (4 * a)) _);
      [by apply wrb_keeps | done].
  - intros b Hb. rewrite Hle. by apply wrb_lookup_eq.
  - unfold pixel_loop. apply elem_of_seqZ.
    assert (Z.of_nat q + 1 <= (Z.of_nat (length data) + 3) / 4)
      by (apply Z.div_le_lower_bound; lia).
    lia.
  - done.
Qed.

(** The carve-out always clears the seed pixel. *)
Lemma seed_not_barrier tolerance gapClose bgHex :
  rdb (final_barrier W H data (seed_colour W data x y) tolerance gapClose bgHex)
      (Z.shiftr (idx W x y) 2) = Some false.
Proof.
  pose proof seed_pixel_inside as Hp.
  destruct seed_index_inside as [Hlo Hhi].
  rewrite idx_pixel, shiftr_pixel. unfold rdb.
  destruct (Z.ltb_spec (y * W + x) 0); [lia |].
  unfold final_barrier. apply carve_out_clears.
  - rewrite length_dilated_barrier. lia.
  - rewrite idx_pixel in Hhi. lia.
  - rewrite Z2Nat.id, <- idx_pixel, seed_dist_self by lia. simpl. lia.
Qed.

Lemma seed_close_enough tolerance gapClose bgHex :
  0 <= tolerance ->
  closeEnough
    (final_barrier W H data (seed_colour W data x y) tolerance gapClose bgHex)
    (seed_colour W data x y) tolerance data (idx W x y) = true.
Proof.
  intros Htol. unfold closeEnough.
  rewrite seed_not_barrier, seed_dist_self. simpl. lia.
Qed.

End SeedFacts.

Lemma sameColor_stored fillRgba :
  byte_rgba fillRgba -> sameColor (stored_fill fillRgba) fillRgba = true.
Proof.
  intros (H0 & H1 & H2 & H3). unfold sameColor, stored_fill. simpl.
  rewrite !clamp8_byte, !Z.eqb_refl by done. done.
Qed.

(** When the loop was entered and the call returned, the seed pixel holds
    the fill colour. *)
Lemma floodFill_recolours_seed W H fuel data x y fillRgba tolerance gapClose bgHex d' :
  image_data W H data -> 0 <= x < W -> 0 <= y < H -> 0 <= tolerance ->
  sameColor (seed_colour W data x y) fillRgba = false ->
  floodFill W H fuel data x y fillRgba tolerance gapClose bgHex = Some d' ->
  seed_colour W d' x y = stored_fill fillRgba.
Proof.
  intros Himg Hx Hy Htol Hsame Hrun. unfold floodFill in Hrun.
  rewrite Hsame, (seed_not_barrier W H data x y Himg Hx Hy) in Hrun.
  simpl in Hrun.
  destruct fuel as [| fuel]; [done |].
  rewrite fill_loop_unfold in Hrun.
  change (seed_colour W d' x y) with (pixel_at d' (idx W x y)).
  rewrite idx_pixel.
  eapply (fill_loop_keeps W H _ _ _ _ (y * W + x)); [| exact Hrun].
  apply fill_step_sets_seed; [done | done |].
  by apply seed_close_enough.
Qed.

(** ** The properties of the flood fill *)


(** X16. On an image of the canvas and a seed inside it, the carve-out
    always un-marks the seed pixel, whatever the tolerance, the gap-closing
    radius and the background: the seed is at distance 0 from the colour
    read at the seed. So the abort after the carve-out never fires for such
    a seed, also when the seed lies on a barrier pixel. The call leaves the
    buffer unchanged when the seed already has the fill colour; otherwise,
    with a tolerance of at least 0 (24 in particular), a call that returns
    has recoloured the seed pixel, and the call does return whenever the
    fill colour is farther from the seed colour than the tolerance. *)
Theorem seed_is_always_carved_out (W H : Z) (data : list Z) (x y : Z)
    (fillRgba : rgba) (tolerance gapClose : Z) (bgHex : string) :
  image_data W H data -> 0 <= x < W -> 0 <= y < H ->
  let target := seed_colour W data x y in
  rdb (final_barrier W H data target tolerance gapClose bgHex)
      (Z.shiftr (idx W x y) 2) = Some false
  /\ (sameColor target fillRgba = true ->
      forall fuel,
        floodFill W H fuel data x y fillRgba tolerance gapClose bgHex = Some data)
  /\ (sameColor target fillRgba = false -> byte_rgba fillRgba -> 0 <= tolerance ->
      forall fuel d',
        floodFill W H fuel data x y fillRgba tolerance gapClose bgHex = Some d' ->
        seed_colour W d' x y = stored_fill fillRgba /\ d' <> data)
  /\ (Js.le (colour_dist target (stored_fill fillRgba)) tolerance = false ->
      is_Some (floodFill W H (enough_fuel W H) data x y fillRgba tolerance
                 gapClose bgHex)).
Proof.
  intros Himg Hx Hy target.
  split; [by apply seed_not_barrier |].
  split; [| split].
  - intros Hsame fuel. unfold floodFill. fold target. by rewrite Hsame.
  - intros Hsame Hbyte Htol fuel d' Hrun.
    assert (Hd : seed_colour W d' x y = stored_fill fillRgba)
      by (eapply floodFill_recolours_seed; eauto).
    split; [done |]. intros ->.
    unfold target in Hsame. rewrite Hd, sameColor_stored in Hsame by done.
    done.
  - intros Hfar. by apply floodFill_returns.
Qed.


(** C10, as amended. A seed whose byte index [(y * width + x) * 4] falls
    outside the pixel buffer reads an undefined target colour, nothing is
    close enough, the span at the seed is empty and the call returns with
    every pixel unchanged. *)
Theorem floodFill_seed_index_outside (W H : Z) (data : list Z) (x y : Z)
    (fillRgba : rgba) (tolerance gapClose : Z) (bgHex : string) (fuel : nat) :
  idx W x y < 0 \/ Z.of_nat (length data) <= idx W x y ->
  floodFill W H (S fuel) data x y fillRgba tolerance gapClose bgHex = Some data.
Proof.
  intros Hout.
  assert (Hnone : t0 (seed_colour W data x y) = None).
  { simpl. unfold rd. destruct (Z.ltb_spec (idx W x y) 0); [done |].
    apply lookup_ge_None. lia. }
  unfold floodFill.
  assert (Hsame : sameColor (seed_colour W data x y) fillRgba = false).
  { unfold sameColor. by rewrite Hnone. }
  rewrite Hsame. destruct (bool_decide _); [done |].
  apply fill_loop_nothing_close. intros i. by apply closeEnough_undefined.
Qed.

(** Seeds above or below the canvas, in a column of the canvas, are such
    seeds. *)
Lemma row_outside_index_outside W H data x y :
  image_data W H data -> 0 <= x < W -> y < 0 \/ H <= y ->
  idx W x y < 0 \/ Z.of_nat (length data) <= idx W x y.
Proof.
  unfold image_data. intros Himg Hx Hy. rewrite idx_pixel, Himg.
  destruct Hy; [left | right]; nia.
Qed.

(** A black pixel on a white background is a barrier pixel, the barrier mask
    marks it before the carve-out, and a fill seeded on it with tolerance 24
    recolours it. *)
Lemma seed_on_barrier_is_recoloured :
  Js.gt (bg_dist black (hexToRgba bgWhite) 0) barrierThreshold = true
  /\ dilated_barrier 1 1 black (hexToRgba bgWhite) 1 !! 0%nat = Some true
  /\ floodFill 1 1 (enough_fuel 1 1) black 0 0 red 24 1 bgWhite = Some red_px
  /\ floodFill 1 1 (enough_fuel 1 1) black 0 0 red 24 1 bgWhite <> Some black.
Proof.
  split; [reflexivity |]. split; [reflexivity |]. split; [reflexivity |].
  vm_compute. discriminate.
Qed.


Lemma seed_is_always_carved_out_witness :
  rdb (final_barrier 1 1 black (seed_colour 1 black 0 0) 24 1 bgWhite)
      (Z.shiftr (idx 1 0 0) 2) = Some false
  /\ seed_colour 1 red_px 0 0 = stored_fill red
  /\ red_px <> black.
Proof.
  destruct (seed_is_always_carved_out 1 1 black 0 0 red 24 1 bgWhite)
    as (Hcarved & _ & Hfill & _); [reflexivity | lia | lia |].
  split; [exact Hcarved |].
  apply (Hfill eq_refl) with (fuel := enough_fuel 1 1);
    [unfold byte_rgba, is_byte; simpl; lia | lia | reflexivity].
Defined.


(** The seed [(2, 0)] is right of a 2 by 2 canvas; its index is that of the
    pixel [(0, 1)], and the fill recolours the canvas. *)
Lemma seed_right_of_canvas_fills :
  ~ (0 <= 2 < 2)
  /\ floodFill 2 2 (enough_fuel 2 2) canvas_white 2 0 red 24 1 bgWhite = Some canvas_red
  /\ floodFill 2 2 (enough_fuel 2 2) canvas_white 2 0 red 24 1 bgWhite <> Some canvas_white.
Proof.
  split; [lia |]. split; [reflexivity |]. vm_compute. discriminate.
Qed.

Lemma floodFill_seed_index_outside_witness :
  floodFill 2 2 1 canvas_white 0 2 red 24 1 bgWhite = Some canvas_white.
Proof.
  apply (floodFill_seed_index_outside 2 2 canvas_white 0 2 red 24 1 bgWhite 0).
  apply (row_outside_index_outside 2 2); [reflexivity | lia | lia].
Defined.

(** ** A fill colour within the tolerance of the seed colour *)

Section NearFill.

Local Abbreviation near_barrier :=
  (final_barrier 1 2 column_white (seed_colour 1 column_white 0 0) 24 1 bgWhite).
Local Abbreviation near_loop :=
  (fill_loop 1 2 near_barrier (seed_colour 1 column_white 0 0) 24 near_white).
Local Abbreviation near_step :=
  (fill_step 1 2 near_barrier (seed_colour 1 column_white 0 0) 24 near_white).

(** A recoloured pixel is still close enough to the seed colour. *)
Lemma near_white_close_enough :
  closeEnough near_barrier (seed_colour 1 column_white 0 0) 24
    column_near_white (idx 1 0 0) = true.
Proof. reflexivity. Qed.

(** Once both pixels are recoloured, the loop moves between two states. *)
Lemma near_step_top : near_step column_near_white 0 0 [] = (column_near_white, [(0, 1)]).
Proof. vm_compute. reflexivity. Qed.

Lemma near_step_bottom : near_step column_near_white 0 1 [] = (column_near_white, [(0, 0)]).
Proof. vm_compute. reflexivity. Qed.

Lemma near_loop_cycles fuel :
  near_loop fuel column_near_white [(0, 0)] = None
  /\ near_loop fuel column_near_white [(0, 1)] = None.
Proof.
  induction fuel as [| fuel [IHtop IHbottom]]; [done |].
  rewrite !fill_loop_unfold, near_step_top, near_step_bottom. done.
Qed.

End NearFill.


(** C2, at the input where the code departs from it: on a white column of
    two pixels, seeded at the top with a fill colour that differs from white
    by one step of one channel and tolerance 24, the fill colour is not the
    seed colour, a recoloured pixel is still close enough, and no number of
    turns empties the stack: the call never returns. *)
Theorem floodFill_near_fill_never_returns (fuel : nat) :
  sameColor (seed_colour 1 column_white 0 0) near_white = false
  /\ floodFill 1 2 fuel column_white 0 0 near_white 24 1 bgWhite = None.
Proof.
  split; [reflexivity |].
  unfold floodFill.
  replace (sameColor (seed_colour 1 column_white 0 0) near_white)
    with false by reflexivity.
  replace (bool_decide _) with false by reflexivity.
  destruct fuel as [| fuel]; [reflexivity |].
  rewrite fill_loop_unfold.
  replace (fill_step 1 2 _ _ 24 near_white column_white 0 0 [])
    with (near_white_px ++ white, [(0, 1)]) by (vm_compute; reflexivity).
  cbn [fst snd].
  destruct fuel as [| fuel]; [reflexivity |].
  rewrite fill_loop_unfold.
  replace (fill_step 1 2 _ _ 24 near_white (near_white_px ++ white) 0 1 [])
    with (column_near_white, [(0, 0)]) by (vm_compute; reflexivity).
  cbn [fst snd].
  apply near_loop_cycles.
Qed.
(** ** Rounding to doubles *)

Section Doubles.

Local Open Scope Q_scope.

(** Rounding to the nearest integer never crosses an integer. *)
Lemma round_half_even_le (v : Q) (n : Z) :
  v <= inject_Z n -> (round_half_even v <= n)%Z.
Proof.
  intros Hv. unfold round_half_even.
  assert (Hf : (Qfloor v <= n)%Z).
  { rewrite <- (Qfloor_Z n). by apply Qfloor_resp_le. }
  assert (Hup : inject_Z (Qfloor v) < v -> (Qfloor v + 1 <= n)%Z).
  { intros Hlt. enough (Qfloor v < n)%Z by lia.
    rewrite Zlt_Qlt. by apply (Qlt_le_trans _ v). }
  destruct (v - inject_Z (Qfloor v) ?= 1 # 2) eqn:Hc; [| done |].
  - destruct (Z.even (Qfloor v)); [done |].
    apply Hup. apply Qeq_alt in Hc. lra.
  - apply Hup. apply Qgt_alt in Hc. lra.
Qed.

Lemma round_half_even_ge (v : Q) (n : Z) :
  inject_Z n <= v -> (n <= round_half_even v)%Z.
Proof.
  intros Hv. unfold round_half_even.
  assert (Hf : (n <= Qfloor v)%Z).
  { rewrite <- (Qfloor_Z n). by apply Qfloor_resp_le. }
  destruct (v - inject_Z (Qfloor v) ?= 1 # 2); [| done | lia].
  destruct (Z.even (Qfloor v)); lia.
Qed.

(** Below [2^53] the logarithm is at most 52. *)
Lemma Qlog2_small (a : Q) :
  0 < a -> a < inject_Z (2 ^ 53) -> (Qlog2 a <= 52)%Z.
Proof.
  intros Hpos Hlt. unfold Qlog2.
  set (k := (Z.log2 (Qnum a) - Z.log2 (Z.pos (Qden a)))%Z).
  destruct (Qle_bool (pow2 k) a) eqn:Hk.
  - apply Qle_bool_iff in Hk.
    destruct (Z.le_gt_cases k 52) as [| Hbig]; [done | exfalso].
    unfold pow2 in Hk. replace (0 <? k)%Z with true in Hk by (symmetry; lia).
    assert (Hp : (2 ^ 53 <= 2 ^ k)%Z) by (apply Z.pow_le_mono_r; lia).
    rewrite Zle_Qle in Hp. lra.
  - enough (k <= 53)%Z by lia.
    destruct (Z.le_gt_cases k 53) as [| Hbig]; [done | exfalso].
    assert (Hn : (0 < Qnum a)%Z) by (unfold Qlt in Hpos; simpl in Hpos; lia).
    destruct (Z.log2_spec (Qnum a) Hn) as [Hn1 _].
    destruct (Z.log2_spec (Z.pos (Qden a)) ltac:(lia)) as [_ Hd2].
    pose proof (Z.log2_nonneg (Z.pos (Qden a))) as Hld.
    set (ld := Z.log2 (Z.pos (Qden a))) in *.
    replace (Z.log2 (Qnum a)) with (54 + (k - 54) + ld)%Z in Hn1 by lia.
    rewrite !Z.pow_add_r in Hn1 by lia.
    rewrite Z.pow_succ_r in Hd2 by lia.
    assert (Hk1 : (1 <= 2 ^ (k - 54))%Z)
      by (change 1%Z with (2 ^ 0)%Z; apply Z.pow_le_mono_r; lia).
    assert (Hl1 : (0 < 2 ^ ld)%Z) by (apply Z.pow_pos_nonneg; lia).
    unfold Qlt in Hlt. simpl in Hlt.
    change (2 ^ 54)%Z with 18014398509481984%Z in Hn1.
    change (2 ^ 53)%Z with 9007199254740992%Z in Hlt.
    nia.
Qed.

Lemma double_exp_small (r : Q) :
  ~ r == 0 -> Qabs r < inject_Z (2 ^ 53) -> (double_exp r <= 0)%Z.
Proof.
  intros Hne Hlt. unfold double_exp.
  assert (Hpos : 0 < Qabs r).
  { destruct (Qlt_le_dec 0 (Qabs r)) as [| Hle]; [done |].
    exfalso. apply Hne.
    pose proof (Qle_Qabs r) as H1. pose proof (Qle_Qabs (- r)) as H2.
    rewrite Qabs_opp in H2. lra. }
  pose proof (Qlog2_small (Qabs r) Hpos Hlt). lia.
Qed.

(** A double below [2^53] in absolute value lies on a grid that holds
    every integer, so rounding to it never crosses an integer. *)
Lemma double_round_grid (x : Q) :
  Qabs x < inject_Z (2 ^ 53) ->
  double_round x == 0 /\ x == 0
  \/ exists (P : positive),
       double_round x == inject_Z (round_half_even (x * inject_Z (Z.pos P))) * (1 # P).
Proof.
  intros Hx. unfold double_round.
  pose proof (Qred_correct x) as Hr.
  destruct (Qeq_bool (Qred x) 0) eqn:Hz.
  - left. apply Qeq_bool_iff in Hz. split; [reflexivity | by rewrite <- Hr].
  - right. apply Qeq_bool_neq in Hz.
    assert (He : (double_exp (Qred x) <= 0)%Z).
    { apply double_exp_small; [done |]. by rewrite Hr. }
    unfold pow2. replace (0 <? double_exp (Qred x))%Z with false by (symmetry; lia).
    exists (Z.to_pos (2 ^ (- double_exp (Qred x)))).
    set (P := Z.to_pos _).
    assert (Hv : Qred x / (1 # P) == x * inject_Z (Z.pos P)).
    { rewrite Hr. unfold Qdiv, Qinv. simpl. reflexivity. }
    assert (Hround : round_half_even (Qred x / (1 # P))
                     = round_half_even (x * inject_Z (Z.pos P))).
    { unfold round_half_even.
      rewrite (Qfloor_comp _ _ Hv).
      assert (Hc : (Qred x / (1 # P) - inject_Z (Qfloor (x * inject_Z (Z.pos P))) ?= 1 # 2)
                   = (x * inject_Z (Z.pos P) - inject_Z (Qfloor (x * inject_Z (Z.pos P))) ?= 1 # 2)).
      { apply Qcompare_comp; [by rewrite Hv | reflexivity]. }
      by rewrite Hc. }
    rewrite Hround. reflexivity.
Qed.

Lemma grid_unit (P : positive) (n : Z) :
  inject_Z (n * Z.pos P) * (1 # P) == inject_Z n.
Proof. unfold Qeq, Qmult, inject_Z. simpl. lia. Qed.

Lemma double_round_le (x : Q) (n : Z) :
  Qabs x < inject_Z (2 ^ 53) -> x <= inject_Z n -> double_round x <= inject_Z n.
Proof.
  intros Hx Hle.
  destruct (double_round_grid x Hx) as [[Hz H0] | [P HP]].
  - rewrite Hz. by rewrite H0 in Hle.
  - rewrite HP, <- (grid_unit P n).
    apply Qmult_le_compat_r; [| done].
    rewrite <- Zle_Qle. apply round_half_even_le.
    rewrite inject_Z_mult. apply Qmult_le_compat_r; [done | done].
Qed.

Lemma double_round_ge (x : Q) (n : Z) :
  Qabs x < inject_Z (2 ^ 53) -> inject_Z n <= x -> inject_Z n <= double_round x.
Proof.
  intros Hx Hle.
  destruct (double_round_grid x Hx) as [[Hz H0] | [P HP]].
  - rewrite Hz. by rewrite H0 in Hle.
  - rewrite HP, <- (grid_unit P n).
    apply Qmult_le_compat_r; [| done].
    rewrite <- Zle_Qle. apply round_half_even_ge.
    rewrite inject_Z_mult. apply Qmult_le_compat_r; [done | done].
Qed.

(** An integer below [2^53] in absolute value is a double. *)
Lemma double_round_Z (x : Q) (n : Z) :
  x == inject_Z n -> (Z.abs n < 2 ^ 53)%Z -> double_round x == inject_Z n.
Proof.
  intros Hx Hn.
  assert (Habs : Qabs x < inject_Z (2 ^ 53)).
  { rewrite Hx. apply Qabs_Qlt_condition.
    rewrite <- inject_Z_opp, <- !Zlt_Qlt. lia. }
  apply Qle_antisym.
  - apply double_round_le; [done |]. rewrite Hx. apply Qle_refl.
  - apply double_round_ge; [done |]. rewrite Hx. apply Qle_refl.
Qed.

Lemma pow2_pos (k : Z) : 0 < pow2 k.
Proof.
  unfold pow2. destruct (0 <? k)%Z eqn:Hk; [| reflexivity].
  change 0 with (inject_Z 0). rewrite <- Zlt_Qlt. apply Z.pow_pos_nonneg; lia.
Qed.

(** Rounding keeps the sign, whatever the magnitude. *)
Lemma double_round_nonneg (x : Q) : 0 <= x -> 0 <= double_round x.
Proof.
  intros Hx. unfold double_round.
  pose proof (Qred_correct x) as Hr.
  destruct (Qeq_bool (Qred x) 0); [apply Qle_refl |].
  pose proof (pow2_pos (double_exp (Qred x))) as Hp.
  apply Qmult_le_0_compat; [| by apply Qlt_le_weak].
  change 0 with (inject_Z 0). rewrite <- Zle_Qle.
  apply round_half_even_ge. change (inject_Z 0) with 0.
  apply Qle_shift_div_l; [done |]. rewrite Qmult_0_l, Hr. done.
Qed.

(** Rounding does not tell two fractions of one value apart. *)
Lemma double_round_comp (x x' : Q) : x == x' -> double_round x = double_round x'.
Proof. intros Hx. unfold double_round. by rewrite (Qred_complete _ _ Hx). Qed.

(** The logarithm is a lower bound. *)
Lemma Qlog2_lower (a : Q) : 0 < a -> pow2 (Qlog2 a) <= a.
Proof.
  intros Hpos. unfold Qlog2.
  set (k := (Z.log2 (Qnum a) - Z.log2 (Z.pos (Qden a)))%Z).
  destruct (Qle_bool (pow2 k) a) eqn:Hk; [by apply Qle_bool_iff |].
  assert (Hn : (0 < Qnum a)%Z) by (unfold Qlt in Hpos; simpl in Hpos; lia).
  destruct (Z.log2_spec (Qnum a) Hn) as [Hn1 _].
  destruct (Z.log2_spec (Z.pos (Qden a)) ltac:(lia)) as [_ Hd2].
  pose proof (Z.log2_nonneg (Z.pos (Qden a))) as Hld.
  pose proof (Z.log2_nonneg (Qnum a)) as Hln.
  set (ld := Z.log2 (Z.pos (Qden a))) in *.
  set (ln := Z.log2 (Qnum a)) in *.
  rewrite Z.pow_succ_r in Hd2 by lia.
  assert (Hl1 : (0 < 2 ^ ld)%Z) by (apply Z.pow_pos_nonneg; lia).
  unfold pow2. destruct (0 <? k - 1)%Z eqn:Hk1.
  - unfold Qle. simpl. rewrite Z.mul_1_r.
    assert (He : (2 ^ ln = 2 ^ (k - 1) * (2 * 2 ^ ld))%Z).
    { rewrite <- Z.pow_succ_r, <- Z.pow_add_r by lia. f_equal. lia. }
    assert (Hp : (0 < 2 ^ (k - 1))%Z) by (apply Z.pow_pos_nonneg; lia).
    nia.
  - assert (Hp : (0 < 2 ^ (- (k - 1)))%Z) by (apply Z.pow_pos_nonneg; lia).
    unfold Qle. simpl. rewrite Z2Pos.id by done.
    assert (He : (2 * 2 ^ ld = 2 ^ ln * 2 ^ (- (k - 1)))%Z).
    { rewrite <- Z.pow_succ_r, <- Z.pow_add_r by lia. f_equal. lia. }
    nia.
Qed.

(** The grid of a double below an integer [n] has more than [2^52] points
    below [n]. *)
Lemma double_exp_grid (a : Q) (n : Z) :
  0 < a -> a < inject_Z n -> (double_exp a <= 0)%Z ->
  (2 ^ 52 < n * 2 ^ (- double_exp a))%Z.
Proof.
  intros Hpos Hlt He.
  assert (Hn : (1 <= n)%Z).
  { enough (0 < n)%Z by lia. rewrite Zlt_Qlt. by apply (Qlt_trans _ a). }
  assert (Habs : Qabs a = a).
  { destruct a as [p q]. unfold Qlt in Hpos. simpl in Hpos.
    unfold Qabs. f_equal. lia. }
  unfold double_exp in *. rewrite Habs in *.
  pose proof (Qlog2_lower a Hpos) as Hlow.
  set (L := Qlog2 a) in *.
  destruct (Z.max_spec (-1074) (L - 52)) as [[Hc ->] | [Hc ->]].
  - assert (Hlt' : pow2 L < inject_Z n) by (by apply (Qle_lt_trans _ a)).
    assert (Hp : (0 < 2 ^ (- (L - 52)))%Z) by (apply Z.pow_pos_nonneg; lia).
    unfold pow2 in Hlt'. destruct (0 <? L)%Z eqn:HL.
    + rewrite <- Zlt_Qlt in Hlt'.
      assert (H52 : (2 ^ 52 = 2 ^ L * 2 ^ (- (L - 52)))%Z).
      { rewrite <- Z.pow_add_r by lia. f_equal. lia. }
      rewrite H52. apply Z.mul_lt_mono_pos_r; done.
    + assert (HpL : (0 < 2 ^ (- L))%Z) by (apply Z.pow_pos_nonneg; lia).
      unfold Qlt in Hlt'. simpl in Hlt'. rewrite Z2Pos.id in Hlt' by done.
      assert (H52 : (2 ^ (- (L - 52)) = 2 ^ 52 * 2 ^ (- L))%Z).
      { rewrite <- Z.pow_add_r by lia. f_equal. lia. }
      rewrite H52. nia.
  - change (- -1074)%Z with 1074%Z.
    assert (H1 : (2 ^ 52 < 2 ^ 1074)%Z) by (apply Z.pow_lt_mono_r; lia).
    assert (H2 : (0 < 2 ^ 1074)%Z) by (apply Z.pow_pos_nonneg; lia).
    nia.
Qed.

(** Rounding to the nearest integer stays below an integer that is more than
    one half away. *)
Lemma round_half_even_lt (v : Q) (n : Z) :
  v < inject_Z n - (1 # 2) -> (round_half_even v < n)%Z.
Proof.
  intros Hv. unfold round_half_even.
  pose proof (Qfloor_le v) as Hf.
  assert (Hfn : (Qfloor v < n)%Z).
  { rewrite Zlt_Qlt. lra. }
  destruct (v - inject_Z (Qfloor v) ?= 1 # 2) eqn:Hc; [| done |].
  - destruct (Z.even (Qfloor v)); [done |].
    apply Qeq_alt in Hc.
    enough (inject_Z (Qfloor v + 1) < inject_Z n) by (by rewrite Zlt_Qlt).
    rewrite inject_Z_plus. change (inject_Z 1) with 1. lra.
  - apply Qgt_alt in Hc.
    enough (inject_Z (Qfloor v + 1) < inject_Z n) by (by rewrite Zlt_Qlt).
    rewrite inject_Z_plus. change (inject_Z 1) with 1. lra.
Qed.

(** The product of an integer [n] below [2^53] and a factor that is at most
    the last double before 1 rounds to a double below [n]. *)
Lemma double_round_below (x : Q) (n : Z) :
  (0 < n < 2 ^ 53)%Z -> 0 <= x -> x <= inject_Z n * (1 - (1 # 2 ^ 53)) ->
  double_round x < inject_Z n.
Proof.
  intros [Hn0 Hn] Hx0 Hx.
  assert (Hnq : 0 < inject_Z n) by (change 0 with (inject_Z 0); by rewrite <- Zlt_Qlt).
  assert (Hxn : x < inject_Z n).
  { apply (Qle_lt_trans _ _ _ Hx).
    assert (Hs : 0 < inject_Z n * (1 # 2 ^ 53))
      by (apply Qmult_lt_0_compat; [done | reflexivity]).
    lra. }
  assert (Hn53 : inject_Z n < inject_Z (2 ^ 53)) by (by rewrite <- Zlt_Qlt).
  destruct (Qeq_dec x 0) as [Hz | Hnz].
  { rewrite (double_round_comp x 0 Hz). exact Hnq. }
  pose proof (Qred_correct x) as Hr.
  assert (Hrpos : 0 < Qred x).
  { rewrite Hr. destruct (Qlt_le_dec 0 x) as [| Hle]; [done |].
    exfalso. apply Hnz. by apply Qle_antisym. }
  assert (Hrabs : Qabs (Qred x) < inject_Z (2 ^ 53)).
  { rewrite Qabs_pos by (by apply Qlt_le_weak). rewrite Hr.
    by apply (Qlt_trans _ (inject_Z n)). }
  assert (Hrnz : ~ Qred x == 0).
  { intros Hz. rewrite Hz in Hrpos. by apply Qlt_irrefl in Hrpos. }
  pose proof (double_exp_small (Qred x) Hrnz Hrabs) as He.
  assert (Hrn : Qred x < inject_Z n) by (by rewrite Hr).
  pose proof (double_exp_grid (Qred x) n Hrpos Hrn He) as Hgrid.
  unfold double_round.
  destruct (Qeq_bool (Qred x) 0) eqn:Hb; [by apply Qeq_bool_iff in Hb |].
  unfold pow2. replace (0 <? double_exp (Qred x))%Z with false by (symmetry; lia).
  set (P := (2 ^ (- double_exp (Qred x)))%Z) in *.
  assert (HP : (0 < P)%Z) by (apply Z.pow_pos_nonneg; lia).
  assert (HPq : inject_Z (Z.pos (Z.to_pos P)) = inject_Z P) by (by rewrite Z2Pos.id).
  assert (Hv : Qred x / (1 # Z.to_pos P) == x * inject_Z P).
  { rewrite Hr, <- HPq. unfold Qdiv, Qinv. simpl. reflexivity. }
  assert (Hround : (round_half_even (Qred x / (1 # Z.to_pos P)) < n * P)%Z).
  { apply round_half_even_lt. rewrite Hv, inject_Z_mult.
    assert (HPpos : 0 < inject_Z P)
      by (change 0 with (inject_Z 0); by rewrite <- Zlt_Qlt).
    assert (Hg : inject_Z (2 ^ 52) < inject_Z n * inject_Z P)
      by (by rewrite <- inject_Z_mult, <- Zlt_Qlt).
    assert (Hx' : x * inject_Z P
                  <= inject_Z n * (1 - (1 # 2 ^ 53)) * inject_Z P)
      by (apply Qmult_le_compat_r; [done | by apply Qlt_le_weak]).
    assert (Hhalf : inject_Z (2 ^ 52) * (1 # 2 ^ 53) == 1 # 2) by reflexivity.
    set (np := inject_Z n * inject_Z P) in *.
    assert (He' : inject_Z n * (1 - (1 # 2 ^ 53)) * inject_Z P
                  == np - np * (1 # 2 ^ 53)) by (unfold np; ring).
    rewrite He' in Hx'.
    assert (Hs : inject_Z (2 ^ 52) * (1 # 2 ^ 53) < np * (1 # 2 ^ 53))
      by (apply Qmult_lt_compat_r; [reflexivity | done]).
    lra. }
  rewrite <- (grid_unit (Z.to_pos P) n), Z2Pos.id by done.
  apply Qmult_lt_compat_r; [reflexivity |].
  by rewrite <- Zlt_Qlt.
Qed.

End Doubles.

(** ** The sampling loop of the rasterizer *)

Section RasterFacts.

Variable Math_PI : Q.
Variables Math_cos Math_sin : Q -> Q.
Variable compiled : scope -> sample.
Variable sc : scope.
Variables width height tiltAngleDeg : Q.

Local Abbreviation steps := (draw_steps Math_PI Math_cos Math_sin width height tiltAngleDeg).
Local Abbreviation run :=
  (draw_loop Math_PI Math_cos Math_sin compiled sc width height tiltAngleDeg).
Local Abbreviation outs := (outcomes compiled sc steps).

(** A new segment needs a failed sample before it, or the start. *)
Lemma moveTo_count_le first indices :
  (moveTo_count (run first indices)
   <= failure_count (outs indices) + flag_weight first)%nat.
Proof.
  revert first. unfold moveTo_count, failure_count.
  induction indices as [| i rest IH]; intros first; simpl; [lia |].
  destruct (compiled _) as [y | |]; simpl.
  - specialize (IH false). destruct first; simpl in *; lia.
  - specialize (IH true). simpl in IH. lia.
  - specialize (IH true). simpl in IH. lia.
Qed.

(** With isolated failures every failure starts exactly one segment. *)
Lemma moveTo_count_isolated first indices :
  gaps_isolated (negb first) (outs indices) = true ->
  moveTo_count (run first indices)
  = (failure_count (outs indices) + flag_weight first)%nat.
Proof.
  revert first. unfold moveTo_count, failure_count.
  induction indices as [| i rest IH]; intros first; simpl.
  - destruct first; simpl; [done | lia].
  - destruct (compiled _) as [y | |]; simpl.
    + intros Hiso. specialize (IH false Hiso).
      destruct first; simpl in *; lia.
    + intros Hiso. apply andb_prop in Hiso as [Hprev Hiso].
      destruct first; [done |]. specialize (IH true Hiso). simpl in *. lia.
    + intros Hiso. apply andb_prop in Hiso as [Hprev Hiso].
      destruct first; [done |]. specialize (IH true Hiso). simpl in *. lia.
Qed.

(** When every sample fails no segment is started at all. *)
Lemma moveTo_count_all_failed first indices :
  forallb failed (outs indices) = true -> run first indices = [].
Proof.
  revert first. induction indices as [| i rest IH]; intros first; simpl; [done |].
  destruct (compiled _) as [y | |]; simpl; [done | apply IH | apply IH].
Qed.

(** The points of the path are the finite samples, mapped by the two
    affine maps of the source. *)
Lemma draw_loop_points first indices :
  List.map cmd_point (run first indices)
  = flat_map
      (fun i =>
         let x := sample_x steps i in
         match compiled (set_x sc x) with
         | Finite y =>
             [(((x - X_RANGE_min) * pxPerXExt Math_PI Math_cos Math_sin width height tiltAngleDeg
                - overscanPx Math_PI Math_cos Math_sin width height tiltAngleDeg)%Q,
               (height - (y - yMin) * pxPerY height)%Q)]
         | NonFinite => []
         | Threw => []
         end)
      indices.
Proof.
  revert first. induction indices as [| i rest IH]; intros first; simpl; [done |].
  destruct (compiled _) as [y | |]; simpl.
  - destruct first; simpl; by rewrite IH.
  - apply IH.
  - apply IH.
Qed.

Lemma draw_steps_min : (300 <= steps)%Z.
Proof. unfold draw_steps. lia. Qed.

Lemma overscanPx_nonneg :
  (0 <= overscanPx Math_PI Math_cos Math_sin width height tiltAngleDeg)%Q.
Proof. unfold overscanPx. apply Q.le_max_l. Qed.

(** The samples stay in the mathematical domain, whatever the overscan. *)
Lemma sample_x_in_domain i :
  (0 <= i <= steps)%Z ->
  (X_RANGE_min <= sample_x steps i /\ sample_x steps i <= X_RANGE_max)%Q.
Proof.
  intros Hi. pose proof draw_steps_min as Hs.
  assert (Hpos : (0 < inject_Z steps)%Q).
  { change 0%Q with (inject_Z 0). rewrite <- Zlt_Qlt. lia. }
  assert (Ht0 : (0 <= inject_Z i / inject_Z steps)%Q).
  { apply Qle_shift_div_l; [done |]. rewrite Qmult_0_l.
    change 0%Q with (inject_Z 0). rewrite <- Zle_Qle. lia. }
  assert (Ht1 : (inject_Z i / inject_Z steps <= 1)%Q).
  { apply Qle_shift_div_r; [done |]. rewrite Qmult_1_l.
    rewrite <- Zle_Qle. lia. }
  unfold sample_x, X_RANGE_min, X_RANGE_max.
  set (t := (inject_Z i / inject_Z steps)%Q) in *.
  split; lra.
Qed.

Lemma sample_x_first : (sample_x steps 0 == X_RANGE_min)%Q.
Proof.
  unfold sample_x, X_RANGE_min, X_RANGE_max.
  change (inject_Z 0) with 0%Q. unfold Qdiv. rewrite Qmult_0_l. lra.
Qed.

Lemma sample_x_last : (sample_x steps steps == X_RANGE_max)%Q.
Proof.
  pose proof draw_steps_min as Hs.
  assert (Hne : ~ (inject_Z steps == 0)%Q).
  { change 0%Q with (inject_Z 0). rewrite inject_Z_injective. lia. }
  unfold sample_x, X_RANGE_min, X_RANGE_max.
  assert (Ht : (inject_Z steps / inject_Z steps == 1)%Q) by (field; done).
  rewrite Ht. lra.
Qed.

End RasterFacts.

(** ** The properties of the rasterizer *)

(** C3, as amended. In every render the number of moveTo-starts is at most
    the number of samples that failed or were not finite, plus one; the two
    are equal when every such sample stands alone between two finite samples
    (so neither the first nor the last sample fails); and no segment is
    started when every sample fails. *)
Theorem moveTo_count_bound (Math_PI : Q) (Math_cos Math_sin : Q -> Q)
    (c : canvas) (compiled : scope -> sample) (sc : scope)
    (lineColor bgColor : string) (tiltAngleDeg : Q) (skipClear : bool)
    (lineWidth lineOpacity : Q) :
  let width := css_width c in
  let height := css_height c in
  let outs :=
    outcomes compiled sc
      (draw_steps Math_PI Math_cos Math_sin width height tiltAngleDeg)
      (sample_indices Math_PI Math_cos Math_sin width height tiltAngleDeg) in
  let moves :=
    moveTo_count
      (d_path (drawFunction Math_PI Math_cos Math_sin c compiled sc lineColor
                 bgColor tiltAngleDeg skipClear lineWidth lineOpacity)) in
  (moves <= failure_count outs + 1)%nat
  /\ (gaps_isolated false outs = true -> moves = (failure_count outs + 1)%nat)
  /\ (forallb failed outs = true -> moves = 0%nat).
Proof.
  intros width height outs moves. unfold moves, outs. simpl.
  split; [| split].
  - apply (moveTo_count_le _ _ _ _ _ _ _ _ true).
  - intros Hiso. by apply (moveTo_count_isolated _ _ _ _ _ _ _ _ true).
  - intros Hall. by rewrite moveTo_count_all_failed.
Qed.

(** C7. For every canvas size and tilt angle the overscan margin is
    [max(0, (|width cos t| + |height sin t| - width) / 2)], it is not
    negative, and the path visits exactly the finite samples [(x, y)] at
    [px = (x - xMin) * pxPerXExt - overscan] and
    [py = height - (y - yMin) * pxPerY], with
    [pxPerXExt = (width + 2 overscan) / (xMax - xMin)]; the samples
    [x = xMin + (i / steps) (xMax - xMin)] run from [xMin] to [xMax] and stay
    in the mathematical domain, with or without overscan. *)
Theorem draw_points_mapping (Math_PI : Q) (Math_cos Math_sin : Q -> Q)
    (c : canvas) (compiled : scope -> sample) (sc : scope)
    (lineColor bgColor : string) (tiltAngleDeg : Q) (skipClear : bool)
    (lineWidth lineOpacity : Q) :
  let width := css_width c in
  let height := css_height c in
  let rad := (tiltAngleDeg * Math_PI / 180)%Q in
  let overscan :=
    Qmax 0 ((Qabs (width * Math_cos rad) + Qabs (height * Math_sin rad) - width) / 2) in
  let ext := ((width + 2 * overscan) / (X_RANGE_max - X_RANGE_min))%Q in
  let steps := Z.max 300 (Qfloor (width + 2 * overscan)) in
  let x := fun i : Z =>
    (X_RANGE_min + (inject_Z i / inject_Z steps) * (X_RANGE_max - X_RANGE_min))%Q in
  List.map cmd_point
    (d_path (drawFunction Math_PI Math_cos Math_sin c compiled sc lineColor
               bgColor tiltAngleDeg skipClear lineWidth lineOpacity))
  = flat_map
      (fun i =>
         match compiled (set_x sc (x i)) with
         | Finite y =>
             [(((x i - X_RANGE_min) * ext - overscan)%Q,
               (height - (y - yMin) * (height / (yMax - yMin)))%Q)]
         | NonFinite => []
         | Threw => []
         end)
      (seqZ 0 (steps + 1))
  /\ (0 <= overscan)%Q
  /\ (forall i, (0 <= i <= steps)%Z -> (X_RANGE_min <= x i /\ x i <= X_RANGE_max)%Q)
  /\ (x 0%Z == X_RANGE_min)%Q
  /\ (x steps == X_RANGE_max)%Q.
Proof.
  intros width height rad overscan ext steps x.
  split; [| split; [| split; [| split]]].
  - apply (draw_loop_points Math_PI Math_cos Math_sin compiled sc width height
             tiltAngleDeg true).
  - apply (overscanPx_nonneg Math_PI Math_cos Math_sin width height tiltAngleDeg).
  - apply (sample_x_in_domain Math_PI Math_cos Math_sin width height tiltAngleDeg).
  - apply (sample_x_first Math_PI Math_cos Math_sin width height tiltAngleDeg).
  - apply (sample_x_last Math_PI Math_cos Math_sin width height tiltAngleDeg).
Qed.




(** A [lineOpacity] of 0, which no call supplies, would be replaced by 1
    before the clamp. *)
Lemma zero_opacity_strokes_opaque (Math_PI : Q) (Math_cos Math_sin : Q -> Q)
    (c : canvas) (compiled : scope -> sample) (sc : scope)
    (lineColor bgColor : string) (tiltAngleDeg : Q) (skipClear : bool)
    (lineWidth : Q) :
  d_alpha (drawFunction Math_PI Math_cos Math_sin c compiled sc lineColor
             bgColor tiltAngleDeg skipClear lineWidth 0) = 1%Q
  /\ clamp01 0 = 0%Q.
Proof. split; reflexivity. Qed.

(** C6, as amended. After [fitCanvas] the pixel buffer is
    [floor(logical width * dpr)] by [floor(logical height * dpr)], the
    products being the doubles JavaScript computes, where [dpr] is the
    device pixel ratio raised to at least 1. For products below [2^53]
    each dimension lies between the floor and the ceiling of the exact
    product, and equals the ceiling when the ratio is an integer. *)
Theorem fitCanvas_dimensions (clientWidth clientHeight innerHeight : Z)
    (heightVh : Q) (fillParent : bool) (devicePixelRatio : Q) :
  let c := fitCanvas clientWidth clientHeight innerHeight heightVh fillParent
             devicePixelRatio in
  let pw := (inject_Z (style_width c) * cv_dpr c)%Q in
  let ph := (inject_Z (style_height c) * cv_dpr c)%Q in
  cv_width c = Qfloor (double_round pw)
  /\ cv_height c = Qfloor (double_round ph)
  /\ cv_dpr c = Qmax 1 (num_or devicePixelRatio 1)
  /\ (1 <= cv_dpr c)%Q
  /\ ((Qabs pw < inject_Z (2 ^ 53))%Q ->
      (Qfloor pw <= cv_width c <= Qceiling pw)%Z)
  /\ ((Qabs ph < inject_Z (2 ^ 53))%Q ->
      (Qfloor ph <= cv_height c <= Qceiling ph)%Z)
  /\ (forall k : Z, (cv_dpr c == inject_Z k)%Q ->
        (Qabs pw < inject_Z (2 ^ 53))%Q -> (Qabs ph < inject_Z (2 ^ 53))%Q ->
        cv_width c = Qceiling pw /\ cv_height c = Qceiling ph).
Proof.
  intros c pw ph.
  assert (Hbetween : forall p : Q, (Qabs p < inject_Z (2 ^ 53))%Q ->
            (Qfloor p <= Qfloor (double_round p) <= Qceiling p)%Z).
  { intros p Hp. split.
    - rewrite <- (Qfloor_Z (Qfloor p)). apply Qfloor_resp_le.
      apply double_round_ge; [done | apply Qfloor_le].
    - rewrite <- (Qfloor_Z (Qceiling p)). apply Qfloor_resp_le.
      apply double_round_le; [done | apply Qle_ceiling]. }
  assert (Hint : forall (w k : Z) (d : Q), (d == inject_Z k)%Q ->
            Qfloor (inject_Z w * d) = Qceiling (inject_Z w * d)).
  { intros w k d Hd.
    assert (He : (inject_Z w * d == inject_Z (w * k))%Q)
      by (rewrite Hd, inject_Z_mult; reflexivity).
    rewrite (Qfloor_comp _ _ He), (Qceiling_comp _ _ He).
    by rewrite Qfloor_Z, Qceiling_Z. }
  split; [reflexivity |]. split; [reflexivity |]. split; [reflexivity |].
  split; [apply Q.le_max_l |].
  split; [apply Hbetween |]. split; [apply Hbetween |].
  intros k Hk Hw Hh.
  pose proof (Hbetween pw Hw) as Hbw. pose proof (Hbetween ph Hh) as Hbh.
  pose proof (Hint (style_width c) k (cv_dpr c) Hk) as Hiw.
  pose proof (Hint (style_height c) k (cv_dpr c) Hk) as Hih.
  fold pw in Hiw. fold ph in Hih.
  change (cv_width c) with (Qfloor (double_round pw)).
  change (cv_height c) with (Qfloor (double_round ph)).
  lia.
Qed.

(** An evaluator that fails on the left half of the domain: 150 failed
    samples and one segment, not 151. *)
Lemma half_domain_one_segment :
  moveTo_count (d_path (render_200x100 half_domain)) = 1%nat
  /\ failure_count
       (outcomes half_domain scope_101
          (draw_steps pi_approx cos_at_0 sin_at_0 200 100 0)
          (sample_indices pi_approx cos_at_0 sin_at_0 200 100 0)) = 150%nat
  /\ moveTo_count (d_path (render_200x100 half_domain))
     <> (failure_count
           (outcomes half_domain scope_101
              (draw_steps pi_approx cos_at_0 sin_at_0 200 100 0)
              (sample_indices pi_approx cos_at_0 sin_at_0 200 100 0)) + 1)%nat.
Proof.
  split; [vm_compute; reflexivity |]. split; [vm_compute; reflexivity |].
  vm_compute. discriminate.
Qed.

(** One isolated failure in the middle: two segments. *)
Lemma moveTo_count_bound_witness :
  moveTo_count (d_path (render_200x100 pole_at_0)) = 2%nat.
Proof.
  pose proof (moveTo_count_bound pi_approx cos_at_0 sin_at_0 canvas_200x100
                pole_at_0 scope_101 "#111827" "#ffffff" 0 false 2 1) as Hb.
  destruct Hb as (_ & Hiso & _).
  unfold render_200x100.
  etrans; [apply Hiso; vm_compute; reflexivity | vm_compute; reflexivity].
Defined.

Lemma draw_points_mapping_witness :
  (X_RANGE_min <= sample_x 300 150 /\ sample_x 300 150 <= X_RANGE_max)%Q.
Proof.
  pose proof (draw_points_mapping pi_approx cos_at_0 sin_at_0 canvas_200x100
                half_domain scope_101 "#111827" "#ffffff" 0 false 2 1) as Hm.
  destruct Hm as (_ & _ & Hdom & _).
  apply (Hdom 150%Z). vm_compute. split; discriminate.
Defined.

(** A logical width of 101 at ratio 3/2: 151 pixels, where the ceiling of
    151.5 is 152. *)
Lemma fitCanvas_floor_not_ceiling :
  cv_width (fitCanvas 101 50 800 60 false (3 # 2)) = 151%Z
  /\ style_width (fitCanvas 101 50 800 60 false (3 # 2)) = 101%Z
  /\ Qceiling (inject_Z 101 * (3 # 2)) = 152%Z
  /\ cv_width (fitCanvas 101 50 800 60 false (3 # 2))
     <> Qceiling (inject_Z (style_width (fitCanvas 101 50 800 60 false (3 # 2))) * (3 # 2)).
Proof.
  split; [vm_compute; reflexivity |]. split; [reflexivity |].
  split; [reflexivity |].
  vm_compute. discriminate.
Qed.

Lemma fitCanvas_dimensions_witness :
  cv_width (fitCanvas 101 50 800 60 false 2) = Qceiling (inject_Z 101 * 2)
  /\ cv_height (fitCanvas 101 50 800 60 false 2) = Qceiling (inject_Z 480 * 2).
Proof.
  pose proof (fitCanvas_dimensions 101 50 800 60 false 2) as Hd.
  destruct Hd as (_ & _ & _ & _ & _ & _ & Hint).
  apply (Hint 2%Z); [reflexivity | vm_compute; reflexivity | vm_compute; reflexivity].
Defined.


(** * Further properties of the code *)

(** ** What a fill can change *)

Lemma closeEnough_pixel barrier target tolerance d d' i :
  pixel_at d i = pixel_at d' i ->
  closeEnough barrier target tolerance d i = closeEnough barrier target tolerance d' i.
Proof.
  intros Hpx. unfold closeEnough. by rewrite !seed_dist_pixel, Hpx.
Qed.

Section Containment.

Variables W H : Z.
Variable barrier : list bool.
Variable target : seed_rgba.
Variable tolerance : Z.
Variable fillRgba : rgba.
Variable data0 : list Z.

Local Abbreviation ce := (closeEnough barrier target tolerance).
Local Abbreviation wpx := (write_px fillRgba).
Local Abbreviation span := (fill_span W H barrier target tolerance fillRgba).
Local Abbreviation step := (fill_step W H barrier target tolerance fillRgba).
Local Abbreviation loop := (fill_loop W H barrier target tolerance fillRgba).

(** Every pixel is as in [data0], or was close enough there and now holds
    the fill colour. *)
Local Abbreviation only_close d :=
  (forall p : Z,
     pixel_at d (4 * p) = pixel_at data0 (4 * p)
     \/ (ce data0 (4 * p) = true /\ pixel_at d (4 * p) = stored_fill fillRgba)).

Lemma write_px_only_close d q :
  ce d (4 * q) = true -> only_close d -> only_close (wpx d (4 * q)).
Proof.
  intros Hce Hinv p. destruct (decide (p = q)) as [-> | Hne].
  - pose proof (closeEnough_inside _ _ _ _ _ Hce) as [Hlo Hhi].
    right. split; [| by apply pixel_at_write_same].
    destruct (Hinv q) as [Hsame | [Hc0 _]]; [| done].
    by rewrite <- (closeEnough_pixel _ _ _ _ _ _ Hsame).
  - rewrite pixel_at_write_other by done. apply Hinv.
Qed.

Lemma fill_span_only_close cy n xx st :
  (forall k, xx <= k < xx + Z.of_nat n -> ce (fst st) (idx W k cy) = true) ->
  only_close (fst st) -> only_close (fst (span cy n xx st)).
Proof.
  revert xx st. induction n as [| n IH]; intros xx st Hall Hinv; simpl; [done |].
  apply IH.
  - intros k Hk. simpl. rewrite !idx_pixel.
    rewrite closeEnough_write_other by lia.
    rewrite <- idx_pixel. apply Hall. lia.
  - simpl. rewrite idx_pixel. apply write_px_only_close; [| done].
    rewrite <- idx_pixel. apply Hall. lia.
Qed.

Lemma fill_step_span_close d cx cy k :
  let lx := scan_left W barrier target tolerance d cy (Z.to_nat (cx + 1)) cx + 1 in
  let rx := scan_right W barrier target tolerance d cy (Z.to_nat (W - cx)) cx in
  lx <= k < rx -> ce d (idx W k cy) = true.
Proof.
  intros lx rx Hk. destruct (Z.le_gt_cases k cx).
  - apply (scan_left_close W barrier target tolerance d cy (Z.to_nat (cx + 1)) cx).
    unfold lx in Hk. lia.
  - apply (scan_right_close W barrier target tolerance d cy (Z.to_nat (W - cx)) cx).
    unfold rx in Hk. lia.
Qed.

Lemma fill_step_only_close d cx cy stack :
  only_close d -> only_close (fst (step d cx cy stack)).
Proof.
  intros Hinv. unfold fill_step. apply fill_span_only_close; [| done].
  intros k Hk. simpl. apply (fill_step_span_close d cx cy k). lia.
Qed.

Lemma fill_loop_only_close fuel d stack d' :
  only_close d -> loop fuel d stack = Some d' -> only_close d'.
Proof.
  revert d stack. induction fuel as [| fuel IH]; intros d stack Hinv Hrun.
  - destruct stack as [| [cx cy] stack]; simpl in Hrun; [| done].
    by injection Hrun as <-.
  - destruct stack as [| [cx cy] stack]; [simpl in Hrun; by injection Hrun as <- |].
    rewrite fill_loop_unfold in Hrun.
    eapply IH; [| exact Hrun]. by apply fill_step_only_close.
Qed.

Lemma length_fill_loop fuel d stack d' :
  loop fuel d stack = Some d' -> length d' = length d.
Proof.
  revert d stack. induction fuel as [| fuel IH]; intros d stack Hrun.
  - destruct stack as [| [cx cy] stack]; simpl in Hrun; [| done].
    by injection Hrun as <-.
  - destruct stack as [| [cx cy] stack]; [simpl in Hrun; by injection Hrun as <- |].
    rewrite fill_loop_unfold in Hrun. apply IH in Hrun. rewrite Hrun.
    unfold fill_step. apply length_fill_span.
Qed.

End Containment.

(** X1. Whatever the seed, a call that returns keeps the size of the buffer,
    and every pixel is either as before or was close enough to the seed
    colour (not marked in the final barrier mask and within the tolerance) and
    now holds the fill colour: the fill never recolours a barrier pixel or a
    pixel farther from the seed colour than the tolerance. *)
Theorem floodFill_changes_only_close (W H : Z) (fuel : nat) (data : list Z)
    (x y : Z) (fillRgba : rgba) (tolerance gapClose : Z) (bgHex : string)
    (d' : list Z) :
  floodFill W H fuel data x y fillRgba tolerance gapClose bgHex = Some d' ->
  length d' = length data
  /\ forall p : Z,
       pixel_at d' (4 * p) = pixel_at data (4 * p)
       \/ (closeEnough
             (final_barrier W H data (seed_colour W data x y) tolerance gapClose bgHex)
             (seed_colour W data x y) tolerance data (4 * p) = true
           /\ pixel_at d' (4 * p) = stored_fill fillRgba).
Proof.
  unfold floodFill. intros Hrun.
  destruct (sameColor _ _); [injection Hrun as <-; by split; [| left] |].
  destruct (bool_decide _); [injection Hrun as <-; by split; [| left] |].
  split; [by eapply length_fill_loop |].
  eapply fill_loop_only_close; [| exact Hrun]. by left.
Qed.

(** ** The region a fill covers *)

Lemma pixel_index_inj W H x y x' y' :
  inside W H x y -> inside W H x' y' ->
  y * W + x = y' * W + x' -> x = x' /\ y = y'.
Proof.
  unfold inside. intros [Hx Hy] [Hx' Hy'] Heq.
  assert (y = y') as -> by nia. lia.
Qed.

Section Region.

Variables W H : Z.
Variable barrier : list bool.
Variable target : seed_rgba.
Variable tolerance : Z.
Variable fillRgba : rgba.
Variable data0 : list Z.
Variables sx sy : Z.

Hypothesis fill_far :
  Js.le (colour_dist target (stored_fill fillRgba)) tolerance = false.
Hypothesis seed_inside : inside W H sx sy.
Hypothesis seed_close : close_at W barrier target tolerance data0 sx sy = true.

Local Abbreviation ce := (closeEnough barrier target tolerance).
Local Abbreviation C := (close_at W barrier target tolerance).
Local Abbreviation wpx := (write_px fillRgba).
Local Abbreviation span := (fill_span W H barrier target tolerance fillRgba).
Local Abbreviation step := (fill_step W H barrier target tolerance fillRgba).
Local Abbreviation loop := (fill_loop W H barrier target tolerance fillRgba).
Local Abbreviation reg := (region W H (close_at W barrier target tolerance data0) sx sy).
Local Abbreviation inv := (fill_inv W H barrier target tolerance fillRgba data0 sx sy).

Lemma stored_not_close d i :
  pixel_at d i = stored_fill fillRgba -> ce d i = false.
Proof.
  intros Hpx. unfold closeEnough. destruct (Js.truthy _); [done |].
  by rewrite seed_dist_pixel, Hpx.
Qed.

(** *** The span loop, pixel by pixel *)

Lemma span_px_other cy n xx st p :
  (forall k, xx <= k < xx + Z.of_nat n -> p <> cy * W + k) ->
  pixel_at (fst (span cy n xx st)) (4 * p) = pixel_at (fst st) (4 * p).
Proof.
  revert xx st. induction n as [| n IH]; intros xx st Hp; simpl; [done |].
  rewrite IH by (intros k Hk; apply Hp; lia).
  simpl. rewrite idx_pixel. apply pixel_at_write_other. apply Hp. lia.
Qed.

Lemma span_px_in cy n xx st k :
  xx <= k < xx + Z.of_nat n ->
  0 <= idx W k cy -> idx W k cy + 3 < Z.of_nat (length (fst st)) ->
  pixel_at (fst (span cy n xx st)) (idx W k cy) = stored_fill fillRgba.
Proof.
  intros Hk Hlo Hhi. rewrite idx_pixel in *.
  by apply (fill_span_sets W H barrier target tolerance fillRgba (cy * W + k) cy n xx k).
Qed.

(** What the span loop pushes: the close enough pixels above and below the
    span. *)
Lemma span_stack cy n xx st e :
  0 <= xx -> xx + Z.of_nat n <= W ->
  e ∈ snd (span cy n xx st) <->
  e ∈ snd st
  \/ exists k, xx <= k < xx + Z.of_nat n
       /\ ((e = (k, cy - 1) /\ 0 < cy /\ C (fst st) k (cy - 1) = true)
           \/ (e = (k, cy + 1) /\ cy < H - 1 /\ C (fst st) k (cy + 1) = true)).
Proof.
  revert xx st. induction n as [| n IH]; intros xx st Hlo Hhi; simpl.
  - split; [by left | intros [Hin | (k & Hk & _)]; [done | lia]].
  - rewrite IH by lia. clear IH.
    set (d1 := wpx (fst st) (idx W xx cy)).
    assert (Hup : forall k, 0 <= k < W ->
              C d1 k (cy - 1) = C (fst st) k (cy - 1)).
    { intros k Hk. unfold close_at, d1. rewrite !idx_pixel.
      apply closeEnough_write_other. lia. }
    assert (Hdn : forall k, 0 <= k < W ->
              C d1 k (cy + 1) = C (fst st) k (cy + 1)).
    { intros k Hk. unfold close_at, d1. rewrite !idx_pixel.
      apply closeEnough_write_other. lia. }
    assert (Hpush : forall e',
      e' ∈ snd (fill_px W H barrier target tolerance fillRgba cy xx st) <->
      e' ∈ snd st
      \/ (e' = (xx, cy - 1) /\ 0 < cy /\ C (fst st) xx (cy - 1) = true)
      \/ (e' = (xx, cy + 1) /\ cy < H - 1 /\ C (fst st) xx (cy + 1) = true)).
    { intros e'. unfold fill_px. fold d1. simpl.
      fold (C d1 xx (cy - 1)). fold (C d1 xx (cy + 1)).
      rewrite Hup, Hdn by lia.
      destruct (Z.ltb_spec 0 cy), (Z.ltb_spec cy (H - 1));
        destruct (C (fst st) xx (cy - 1)), (C (fst st) xx (cy + 1)); simpl;
        rewrite ?elem_of_cons; intuition (try lia; try congruence). }
    rewrite Hpush. simpl. fold d1.
    split.
    + intros [[Hin | Hnow] | (k & Hk & Hpushk)].
      * by left.
      * right. exists xx. split; [lia | done].
      * right. exists k. split; [lia |].
        rewrite <- Hup, <- Hdn by lia. done.
    + intros [Hin | (k & Hk & Hpushk)]; [by left; left |].
      destruct (decide (k = xx)) as [-> | Hne].
      * left. by right.
      * right. exists k. split; [lia |].
        rewrite Hup, Hdn by lia. done.
Qed.

(** *** The two scans *)

Lemma scan_left_lower d cy n lx :
  -1 <= lx -> -1 <= scan_left W barrier target tolerance d cy n lx.
Proof.
  revert lx. induction n as [| n IH]; intros lx Hlx; simpl; [done |].
  destruct (Z.leb_spec 0 lx); simpl; [| done].
  destruct (ce d (idx W lx cy)); [| done]. apply IH. lia.
Qed.

Lemma scan_right_upper d cy n rx :
  rx <= W -> scan_right W barrier target tolerance d cy n rx <= W.
Proof.
  revert rx. induction n as [| n IH]; intros rx Hrx; simpl; [done |].
  destruct (Z.ltb_spec rx W); simpl; [| done].
  destruct (ce d (idx W rx cy)); [| done]. apply IH. lia.
Qed.

(** The span of a turn: inside the row, close enough throughout, holding
    the popped pixel when that is close enough, and not extensible. *)
Lemma scan_facts d cx cy :
  0 <= cx < W ->
  let lx := scan_left W barrier target tolerance d cy (Z.to_nat (cx + 1)) cx + 1 in
  let rx := scan_right W barrier target tolerance d cy (Z.to_nat (W - cx)) cx in
  0 <= lx <= cx + 1 /\ cx <= rx <= W
  /\ (forall k, lx <= k < rx -> C d k cy = true)
  /\ (C d cx cy = true -> lx <= cx < rx)
  /\ (0 < lx -> C d (lx - 1) cy = false)
  /\ (rx < W -> C d rx cy = false).
Proof.
  intros Hcx lx rx.
  pose proof (scan_left_lower d cy (Z.to_nat (cx + 1)) cx ltac:(lia)) as Hl1.
  pose proof (scan_left_le W barrier target tolerance d cy (Z.to_nat (cx + 1)) cx) as Hl2.
  pose proof (scan_right_ge W barrier target tolerance d cy (Z.to_nat (W - cx)) cx) as Hr1.
  pose proof (scan_right_upper d cy (Z.to_nat (W - cx)) cx ltac:(lia)) as Hr2.
  pose proof (scan_left_exit W barrier target tolerance d cy cx) as Hle.
  pose proof (scan_right_exit W barrier target tolerance d cy cx) as Hre.
  simpl in Hle, Hre. fold rx in Hr1, Hr2, Hre.
  split; [unfold lx; lia |]. split; [lia |].
  split; [intros k Hk; by apply (fill_step_span_close W barrier target tolerance d cx cy k) |].
  split; [| split].
  - intros Hce. unfold close_at in Hce. split.
    + unfold lx. replace (Z.to_nat (cx + 1)) with (S (Z.to_nat cx)) by lia. simpl.
      destruct (Z.leb_spec 0 cx); [| lia]. rewrite Hce. simpl.
      pose proof (scan_left_le W barrier target tolerance d cy (Z.to_nat cx) (cx - 1)). lia.
    + unfold rx. replace (Z.to_nat (W - cx)) with (S (Z.to_nat (W - cx - 1))) by lia.
      simpl. destruct (Z.ltb_spec cx W); [| lia]. rewrite Hce. simpl.
      pose proof (scan_right_ge W barrier target tolerance d cy (Z.to_nat (W - cx - 1)) (cx + 1)). lia.
  - intros Hpos. unfold close_at. unfold lx in *.
    replace (scan_left W barrier target tolerance d cy (Z.to_nat (cx + 1)) cx + 1 - 1)
      with (scan_left W barrier target tolerance d cy (Z.to_nat (cx + 1)) cx) by lia.
    destruct (Z.leb_spec 0 (scan_left W barrier target tolerance d cy (Z.to_nat (cx + 1)) cx));
      [done | lia].
  - intros Hlt. unfold close_at. destruct (Z.ltb_spec rx W); [done | lia].
Qed.

Lemma scan_facts_not_close d cx cy :
  0 <= cx < W -> C d cx cy = false ->
  scan_left W barrier target tolerance d cy (Z.to_nat (cx + 1)) cx = cx
  /\ scan_right W barrier target tolerance d cy (Z.to_nat (W - cx)) cx = cx.
Proof.
  intros Hcx Hce. unfold close_at in Hce. split.
  - replace (Z.to_nat (cx + 1)) with (S (Z.to_nat cx)) by lia. simpl.
    by rewrite Hce, andb_false_r.
  - replace (Z.to_nat (W - cx)) with (S (Z.to_nat (W - cx - 1))) by lia. simpl.
    by rewrite Hce, andb_false_r.
Qed.

Lemma region_ok x y :
  reg x y -> inside W H x y /\ C data0 x y = true.
Proof. intros Hr. by destruct Hr. Qed.

(** *** One turn of the stack loop keeps the invariant *)

Section Turn.

Variable d : list Z.
Variables cx cy : Z.
Variable stack : list (Z * Z).
Hypothesis Hinv : inv d ((cx, cy) :: stack).

Local Abbreviation lx :=
  (scan_left W barrier target tolerance d cy (Z.to_nat (cx + 1)) cx + 1).
Local Abbreviation rx :=
  (scan_right W barrier target tolerance d cy (Z.to_nat (W - cx)) cx).
Local Abbreviation d' := (fst (step d cx cy stack)).
Local Abbreviation stack' := (snd (step d cx cy stack)).

Lemma popped_inside : inside W H cx cy.
Proof. apply (inv_stack _ _ _ _ _ _ _ _ _ _ _ Hinv). by left. Qed.

Lemma close_is_original x y :
  inside W H x y -> C d x y = true ->
  C data0 x y = true /\ pixel_at d (idx W x y) = pixel_at data0 (idx W x y).
Proof.
  intros Hin Hce.
  destruct (inv_px _ _ _ _ _ _ _ _ _ _ _ Hinv x y Hin) as [Hsame | [_ Hst]].
  - split; [| done]. unfold close_at in *.
    by rewrite <- (closeEnough_pixel _ _ _ _ _ _ Hsame).
  - unfold close_at in Hce. by rewrite (stored_not_close _ _ Hst) in Hce.
Qed.

Lemma span_inside k : lx <= k < rx -> inside W H k cy /\ C d k cy = true.
Proof.
  intros Hk. destruct popped_inside as [Hcx Hcy].
  destruct (scan_facts d cx cy Hcx) as (Hl & Hr & Hspan & _).
  split; [split; lia | by apply Hspan].
Qed.

Lemma span_empty_or_popped : C d cx cy = false -> rx < lx.
Proof.
  intros Hce. destruct popped_inside as [Hcx _].
  destruct (scan_facts_not_close d cx cy Hcx Hce) as [-> ->]. lia.
Qed.

Lemma turn_px_in x y :
  inside W H x y -> y = cy -> lx <= x < rx ->
  pixel_at d' (idx W x y) = stored_fill fillRgba.
Proof.
  intros Hin -> Hx. unfold fill_step.
  destruct (span_inside x Hx) as [_ Hce].
  apply closeEnough_inside in Hce as [Hlo Hhi].
  apply span_px_in; [lia | done | done].
Qed.

Lemma turn_px_out x y :
  inside W H x y -> ~ (y = cy /\ lx <= x < rx) ->
  pixel_at d' (idx W x y) = pixel_at d (idx W x y).
Proof.
  intros Hin Hout. unfold fill_step. rewrite idx_pixel.
  rewrite span_px_other; [done |].
  intros k Hk Heq.
  destruct (span_inside k ltac:(lia)) as [Hkin _].
  destruct (pixel_index_inj W H x y k cy Hin Hkin Heq) as [-> ->].
  apply Hout. split; [done | lia].
Qed.

Lemma turn_close_in x y :
  inside W H x y -> y = cy -> lx <= x < rx -> C d' x y = false.
Proof.
  intros Hin Hy Hx. unfold close_at.
  apply stored_not_close. by apply turn_px_in.
Qed.

Lemma turn_close_out x y :
  inside W H x y -> ~ (y = cy /\ lx <= x < rx) -> C d' x y = C d x y.
Proof.
  intros Hin Hout. unfold close_at.
  apply closeEnough_pixel. by apply turn_px_out.
Qed.

Lemma turn_stack e :
  e ∈ stack' <->
  e ∈ stack
  \/ exists k, lx <= k < rx
       /\ ((e = (k, cy - 1) /\ 0 < cy /\ C d k (cy - 1) = true)
           \/ (e = (k, cy + 1) /\ cy < H - 1 /\ C d k (cy + 1) = true)).
Proof.
  destruct popped_inside as [Hcx Hcy].
  destruct (scan_facts d cx cy Hcx) as (Hl & Hr & _).
  unfold fill_step. rewrite span_stack by lia. simpl.
  split; (intros [Hin | (k & Hk & Hpush)]; [by left | right; exists k; split; [lia | done]]).
Qed.

Lemma popped_region : C d cx cy = true -> reg cx cy.
Proof.
  intros Hce. destruct (close_is_original cx cy popped_inside Hce) as [Hc0 _].
  apply (inv_stack _ _ _ _ _ _ _ _ _ _ _ Hinv cx cy); [by left | done].
Qed.

Lemma span_region k : lx <= k < rx -> reg k cy.
Proof.
  intros Hk.
  assert (Hce : C d cx cy = true).
  { destruct (C d cx cy) eqn:Hce; [done |].
    pose proof (span_empty_or_popped Hce). lia. }
  destruct popped_inside as [Hcx Hcy].
  destruct (scan_facts d cx cy Hcx) as (_ & _ & _ & Hpop & _).
  specialize (Hpop Hce).
  assert (Hgen : forall (m : nat) k', lx <= k' < rx -> Z.abs (k' - cx) = Z.of_nat m -> reg k' cy).
  { induction m as [| m IH]; intros k' Hk' Hdist.
    - replace k' with cx by lia. by apply popped_region.
    - destruct (span_inside k' Hk') as [Hin Hcek].
      destruct (close_is_original k' cy Hin Hcek) as [Hc0 _].
      destruct (Z.lt_ge_cases k' cx).
      + apply (region_step _ _ _ _ _ (k' + 1) cy); [apply IH; lia | | done | done].
        unfold adjacent. lia.
      + apply (region_step _ _ _ _ _ (k' - 1) cy); [apply IH; lia | | done | done].
        unfold adjacent. lia. }
  apply (Hgen (Z.to_nat (Z.abs (k - cx))) k); [done | lia].
Qed.

Lemma fill_step_inv : inv d' stack'.
Proof.
  destruct popped_inside as [Hcx Hcy].
  destruct (scan_facts d cx cy Hcx) as (Hl & Hr & Hspan & Hpop & Hleft & Hright).
  constructor.
  - intros x y Hin.
    destruct (decide (y = cy /\ lx <= x < rx)) as [[-> Hx] | Hout].
    + right. split; [| by apply turn_px_in].
      destruct (span_inside x Hx) as [_ Hce].
      by destruct (close_is_original x cy Hin Hce).
    + rewrite (turn_px_out x y Hin Hout).
      apply (inv_px _ _ _ _ _ _ _ _ _ _ _ Hinv x y Hin).
  - intros ex ey Hin. apply turn_stack in Hin as [Hin | (k & Hk & Hpush)].
    + apply (inv_stack _ _ _ _ _ _ _ _ _ _ _ Hinv). by right.
    + destruct (span_inside k Hk) as [[Hkx _] _].
      pose proof (span_region k Hk) as Hreg.
      destruct Hpush as [([= -> ->] & Hpos & _) | ([= -> ->] & Hpos & _)].
      * assert (Hin' : inside W H k (cy - 1)) by (split; lia).
        split; [done |]. intros Hc0.
        apply (region_step _ _ _ _ _ k cy); [done | | done | done].
        unfold adjacent. lia.
      * assert (Hin' : inside W H k (cy + 1)) by (split; lia).
        split; [done |]. intros Hc0.
        apply (region_step _ _ _ _ _ k cy); [done | | done | done].
        unfold adjacent. lia.
  - intros x y Hin Hc0 Hnow.
    destruct (decide (y = cy /\ lx <= x < rx)) as [[-> Hx] | Hout].
    + by apply span_region.
    + rewrite (turn_close_out x y Hin Hout) in Hnow.
      by apply (inv_sound _ _ _ _ _ _ _ _ _ _ _ Hinv).
  - intros x y x' y' Hin Hc0 Hnow Hadj Hin' Hc0'.
    destruct (C d' x' y') eqn:Hnow'; [| by left]. right.
    assert (Hout' : ~ (y' = cy /\ lx <= x' < rx)).
    { intros [Hy' Hx']. by rewrite (turn_close_in x' y' Hin' Hy' Hx') in Hnow'. }
    rewrite (turn_close_out x' y' Hin' Hout') in Hnow'.
    assert (Hcases : (x' = x - 1 /\ y' = y) \/ (x' = x + 1 /\ y' = y)
                     \/ (x' = x /\ y' = y - 1) \/ (x' = x /\ y' = y + 1))
      by (unfold adjacent in Hadj; lia).
    destruct (decide (y = cy /\ lx <= x < rx)) as [[-> Hx] | Hout].
    + destruct Hin' as [Hx' Hy'].
      destruct Hcases as [[-> ->] | [[-> ->] | [[-> ->] | [-> ->]]]].
      * assert (x - 1 = lx - 1) as Heq by lia.
        rewrite Heq, Hleft in Hnow' by lia. done.
      * assert (x + 1 = rx) as Heq by lia.
        rewrite Heq, Hright in Hnow' by lia. done.
      * apply turn_stack. right. exists x. split; [done |]. left.
        split; [done |]. split; [lia | done].
      * apply turn_stack. right. exists x. split; [done |]. right.
        split; [done |]. split; [lia | done].
    + rewrite (turn_close_out x y Hin Hout) in Hnow.
      destruct (inv_closed _ _ _ _ _ _ _ _ _ _ _ Hinv x y x' y' Hin Hc0 Hnow Hadj Hin' Hc0')
        as [Hf | Hs]; [congruence |].
      apply elem_of_cons in Hs as [[= -> ->] | Hs].
      * exfalso. apply Hout'. split; [done |]. by apply Hpop.
      * apply turn_stack. by left.
  - destruct (inv_seed _ _ _ _ _ _ _ _ _ _ _ Hinv) as [Hf | Hs].
    + left. destruct (decide (sy = cy /\ lx <= sx < rx)) as [[Hy Hx] | Hout].
      * by apply turn_close_in.
      * by rewrite (turn_close_out sx sy seed_inside Hout).
    + apply elem_of_cons in Hs as [Heq | Hs].
      * injection Heq as Hex Hey. left. rewrite Hex, Hey.
        destruct (C d cx cy) eqn:Hce.
        -- apply turn_close_in; [apply popped_inside | done | by apply Hpop].
        -- rewrite turn_close_out; [done | apply popped_inside |].
           pose proof (span_empty_or_popped Hce). lia.
      * right. apply turn_stack. by left.
Qed.

End Turn.

(** *** The whole loop *)

Lemma fill_inv_start : inv data0 [(sx, sy)].
Proof.
  constructor.
  - intros x y _. by left.
  - intros cx cy Hin. apply list_elem_of_singleton in Hin as [= -> ->].
    split; [done |]. intros _. by apply region_seed.
  - intros x y _ Hc0 Hnow. congruence.
  - intros x y x' y' _ Hc0 Hnow. congruence.
  - right. by apply list_elem_of_singleton.
Qed.

Lemma fill_loop_inv fuel d stack d' :
  inv d stack -> loop fuel d stack = Some d' -> inv d' [].
Proof.
  revert d stack. induction fuel as [| fuel IH]; intros d stack Hinv Hrun.
  - destruct stack as [| [cx cy] stack]; simpl in Hrun; [| done].
    by injection Hrun as <-.
  - destruct stack as [| [cx cy] stack]; [simpl in Hrun; by injection Hrun as <- |].
    rewrite fill_loop_unfold in Hrun.
    eapply IH; [| exact Hrun]. by apply fill_step_inv.
Qed.

(** With the stack empty the filled pixels are the region of the seed. *)
Lemma fill_inv_end d' x y :
  inv d' [] -> inside W H x y ->
  (reg x y -> pixel_at d' (idx W x y) = stored_fill fillRgba)
  /\ (~ reg x y -> pixel_at d' (idx W x y) = pixel_at data0 (idx W x y)).
Proof.
  intros Hinv Hin.
  assert (Hfilled : forall u v, reg u v -> C d' u v = false).
  { intros u v Hr. induction Hr as [Hs Hok | u v u' v' Hr IH Hadj Hin' Hok].
    - destruct (inv_seed _ _ _ _ _ _ _ _ _ _ _ Hinv) as [Hf | Hs']; [done |].
      by apply elem_of_nil in Hs'.
    - destruct (region_ok u v Hr) as [Hinu Hoku].
      destruct (inv_closed _ _ _ _ _ _ _ _ _ _ _ Hinv u v u' v' Hinu Hoku IH Hadj Hin' Hok)
        as [Hf | Hs']; [done |].
      by apply elem_of_nil in Hs'. }
  destruct (inv_px _ _ _ _ _ _ _ _ _ _ _ Hinv x y Hin) as [Hsame | [Hc0 Hst]].
  - split; [| done]. intros Hr.
    destruct (region_ok x y Hr) as [_ Hok].
    pose proof (Hfilled x y Hr) as Hf. unfold close_at in Hf, Hok.
    rewrite (closeEnough_pixel _ _ _ _ _ _ Hsame) in Hf. congruence.
  - split; [done |]. intros Hnr. exfalso. apply Hnr.
    apply (inv_sound _ _ _ _ _ _ _ _ _ _ _ Hinv x y Hin Hc0).
    unfold close_at. by apply stored_not_close.
Qed.

End Region.

Lemma sameColor_dist t fillRgba :
  sameColor t fillRgba = true -> byte_rgba fillRgba ->
  colour_dist t (stored_fill fillRgba) = Some 0.
Proof.
  intros Hsame (H0 & H1 & H2 & H3). unfold sameColor in Hsame.
  destruct t as [[a0 |] [a1 |] [a2 |] [a3 |]]; simpl in Hsame;
    rewrite ?andb_false_r in Hsame; try done.
  apply andb_prop in Hsame as [Hsame E3]. apply andb_prop in Hsame as [Hsame E2].
  apply andb_prop in Hsame as [E0 E1].
  apply Z.eqb_eq in E0, E1, E2, E3. subst.
  unfold colour_dist, stored_fill. simpl. rewrite !clamp8_byte by done.
  simpl. f_equal. lia.
Qed.

(** X2. On an image of the canvas, with a seed on it, a fill colour of byte
    channels farther from the seed colour than the tolerance, and a tolerance
    of at least 0, the call returns, and it recolours exactly the pixels
    that a path of edge-sharing, close enough pixels joins to the seed:
    those hold the fill colour afterwards, every other pixel of the canvas is
    as before. *)
Theorem floodFill_fills_region (W H : Z) (data : list Z) (x y : Z)
    (fillRgba : rgba) (tolerance gapClose : Z) (bgHex : string) :
  image_data W H data -> inside W H x y -> byte_rgba fillRgba ->
  0 <= tolerance ->
  Js.le (colour_dist (seed_colour W data x y) (stored_fill fillRgba)) tolerance
  = false ->
  let ok :=
    close_at W
      (final_barrier W H data (seed_colour W data x y) tolerance gapClose bgHex)
      (seed_colour W data x y) tolerance data in
  exists d',
    floodFill W H (enough_fuel W H) data x y fillRgba tolerance gapClose bgHex
    = Some d'
    /\ forall px py, inside W H px py ->
         (region W H ok x y px py ->
          pixel_at d' (idx W px py) = stored_fill fillRgba)
         /\ (~ region W H ok x y px py ->
             pixel_at d' (idx W px py) = pixel_at data (idx W px py)).
Proof.
  intros Himg [Hx Hy] Hbyte Htol Hfar ok.
  destruct (floodFill_returns W H data x y fillRgba tolerance gapClose bgHex Himg Hfar)
    as [d' Hrun].
  exists d'. split; [done |].
  unfold floodFill in Hrun.
  destruct (sameColor (seed_colour W data x y) fillRgba) eqn:Hsame.
  { rewrite (sameColor_dist _ _ Hsame Hbyte) in Hfar. simpl in Hfar.
    apply Z.leb_gt in Hfar. lia. }
  rewrite (seed_not_barrier W H data x y Himg Hx Hy) in Hrun.
  rewrite bool_decide_false in Hrun by discriminate.
  intros px py Hin.
  apply (fill_inv_end W H _ _ tolerance fillRgba data x y Hfar d' px py); [| done].
  pose proof (seed_close_enough W H data x y Himg Hx Hy tolerance gapClose bgHex Htol)
    as Hclose.
  set (B := final_barrier W H data (seed_colour W data x y) tolerance gapClose bgHex) in *.
  set (T := seed_colour W data x y) in *.
  apply (fill_loop_inv W H B T tolerance fillRgba data x y Hfar (conj Hx Hy)
           (enough_fuel W H) data [(x, y)] d'); [| exact Hrun].
  apply (fill_inv_start W H B T tolerance fillRgba data x y (conj Hx Hy) Hclose).
Qed.

(** On a canvas where every pixel is acceptable, every pixel is joined to
    the seed. *)
Lemma region_whole_canvas W H ok sx sy :
  (forall u v, inside W H u v -> ok u v = true) ->
  inside W H sx sy ->
  forall u v, inside W H u v -> region W H ok sx sy u v.
Proof.
  intros Hok Hs.
  assert (Hrow : forall (m : nat) u, inside W H u sy ->
            Z.abs (u - sx) = Z.of_nat m -> region W H ok sx sy u sy).
  { induction m as [| m IH]; intros u Hu Hd.
    - replace u with sx by lia. apply region_seed; [done | by apply Hok].
    - destruct Hu as [Hux Huy], Hs as [Hsx Hsy0].
      destruct (Z.lt_ge_cases u sx).
      + apply (region_step _ _ _ _ _ (u + 1) sy);
          [apply IH; [split; lia | lia] | unfold adjacent; lia | by split
          | apply Hok; by split].
      + apply (region_step _ _ _ _ _ (u - 1) sy);
          [apply IH; [split; lia | lia] | unfold adjacent; lia | by split
          | apply Hok; by split]. }
  assert (Hcol : forall (m : nat) u v, inside W H u v ->
            Z.abs (v - sy) = Z.of_nat m -> region W H ok sx sy u v).
  { induction m as [| m IH]; intros u v Huv Hd.
    - replace v with sy in * by lia.
      apply (Hrow (Z.to_nat (Z.abs (u - sx)))); [done | lia].
    - destruct Huv as [Hux Huy], Hs as [Hsx Hsy0].
      destruct (Z.lt_ge_cases v sy).
      + apply (region_step _ _ _ _ _ u (v + 1));
          [apply IH; [split; lia | lia] | unfold adjacent; lia | by split
          | apply Hok; by split].
      + apply (region_step _ _ _ _ _ u (v - 1));
          [apply IH; [split; lia | lia] | unfold adjacent; lia | by split
          | apply Hok; by split]. }
  intros u v Huv. apply (Hcol (Z.to_nat (Z.abs (v - sy)))); [done | lia].
Qed.

(** A pixel of the colour read at the seed is never a barrier after the
    carve-out, and is close enough at every tolerance from 0 on. *)
Lemma seed_coloured_close W H data x y px py tolerance gapClose bgHex :
  image_data W H data -> inside W H x y -> inside W H px py ->
  0 <= tolerance ->
  pixel_at data (idx W px py) = seed_colour W data x y ->
  close_at W
    (final_barrier W H data (seed_colour W data x y) tolerance gapClose bgHex)
    (seed_colour W data x y) tolerance data px py = true.
Proof.
  intros Himg [Hx Hy] [Hpx Hpy] Htol Hsame.
  pose proof (seed_dist_self W H data x y Himg Hx Hy) as Hself.
  pose proof (seed_pixel_inside W H px py Hpx Hpy) as Hp.
  destruct (seed_index_inside W H data px py Himg Hpx Hpy) as [Hlo Hhi].
  assert (Hd : seed_dist data (seed_colour W data x y) (idx W px py) = Some 0).
  { rewrite seed_dist_pixel, Hsame.
    rewrite seed_dist_pixel in Hself. exact Hself. }
  unfold close_at, closeEnough.
  assert (Hb : rdb (final_barrier W H data (seed_colour W data x y) tolerance
                      gapClose bgHex) (Z.shiftr (idx W px py) 2) = Some false).
  { rewrite idx_pixel, shiftr_pixel. unfold rdb.
    destruct (Z.ltb_spec (py * W + px) 0); [lia |].
    unfold final_barrier. apply carve_out_clears.
    - rewrite length_dilated_barrier. lia.
    - rewrite idx_pixel in Hhi. lia.
    - rewrite Z2Nat.id, <- idx_pixel, Hd by lia. simpl. lia. }
  rewrite Hb, Hd. simpl. lia.
Qed.

(** X3. On a canvas of one colour the whole canvas is recoloured: with the
    hypotheses of X2, when every pixel has the colour read at the seed, the
    call returns and every pixel of the canvas holds the fill colour. *)
Theorem floodFill_uniform_canvas (W H : Z) (data : list Z) (x y : Z)
    (fillRgba : rgba) (tolerance gapClose : Z) (bgHex : string) :
  image_data W H data -> inside W H x y -> byte_rgba fillRgba ->
  0 <= tolerance ->
  Js.le (colour_dist (seed_colour W data x y) (stored_fill fillRgba)) tolerance
  = false ->
  (forall px py, inside W H px py ->
     pixel_at data (idx W px py) = seed_colour W data x y) ->
  exists d',
    floodFill W H (enough_fuel W H) data x y fillRgba tolerance gapClose bgHex
    = Some d'
    /\ forall px py, inside W H px py ->
         pixel_at d' (idx W px py) = stored_fill fillRgba.
Proof.
  intros Himg Hseed Hbyte Htol Hfar Huni.
  destruct (floodFill_fills_region W H data x y fillRgba tolerance gapClose bgHex
              Himg Hseed Hbyte Htol Hfar) as (d' & Hrun & Hreg).
  exists d'. split; [done |].
  intros px py Hin. apply (Hreg px py Hin).
  apply region_whole_canvas; [| done | done].
  intros u v Huv. apply seed_coloured_close; auto.
Qed.

(** ** The barrier mask, pixel by pixel *)

Lemma wrb_true_lookup mask p (q : nat) (c : bool) :
  (if c then wrb mask p true else mask) !! q = Some true <->
  mask !! q = Some true
  \/ ((q < length mask)%nat /\ c = true /\ p = Z.of_nat q).
Proof.
  destruct c;
    [| split; [by left | intros [Hm | (_ & Hc & _)]; [done | discriminate]]].
  destruct (decide (p = Z.of_nat q)) as [-> | Hne].
  - split.
    + intros Hl. right. apply lookup_lt_Some in Hl.
      rewrite length_wrb in Hl. done.
    + intros [Hl | (Hq & _ & _)].
      * apply wrb_lookup_eq. by eapply lookup_lt_Some.
      * by apply wrb_lookup_eq.
  - rewrite wrb_lookup_ne by done.
    split; [by left | intros [Hm | (_ & _ & Heq)]; [done | congruence]].
Qed.

(** A loop whose turns only set entries sets the entries that one of its
    turns sets. *)
Lemma foldl_marks {A} (f : list bool -> A -> list bool) (P : A -> nat -> Prop) :
  (forall b a, length (f b a) = length b) ->
  (forall b a q, f b a !! q = Some true <->
                 b !! q = Some true \/ ((q < length b)%nat /\ P a q)) ->
  forall l b q,
    foldl f b l !! q = Some true <->
    b !! q = Some true \/ ((q < length b)%nat /\ exists a, a ∈ l /\ P a q).
Proof.
  intros Hlen Hf. induction l as [| a l IH]; intros b q; simpl.
  - split; [by left | intros [Hb | (_ & a & Ha & _)]; [done |]].
    by apply elem_of_nil in Ha.
  - rewrite IH, Hf, Hlen. split.
    + intros [[Hb | [Hq Hp]] | (Hq & a' & Ha' & Hp)].
      * by left.
      * right. split; [done |]. exists a. split; [by left | done].
      * right. split; [done |]. exists a'. split; [by right | done].
    + intros [Hb | (Hq & a' & Ha' & Hp)]; [by left; left |].
      apply elem_of_cons in Ha' as [-> | Ha'].
      * left. by right.
      * right. split; [done |]. by exists a'.
Qed.

(** A loop whose turns only clear entries keeps the entries that none of
    its turns clears. *)
Lemma foldl_clears (c : Z -> bool) (l : list Z) (b : list bool) (q : nat) :
  foldl (fun b p => if c p then wrb b p false else b) b l !! q = Some true <->
  b !! q = Some true /\ (Z.of_nat q ∈ l -> c (Z.of_nat q) = false).
Proof.
  revert b. induction l as [| a l IH]; intros b; simpl.
  - split; [intros Hb; split; [done | by intros Hin%elem_of_nil] | by intros [Hb _]].
  - rewrite IH. clear IH.
    destruct (decide (a = Z.of_nat q)) as [-> | Hne].
    + destruct (c (Z.of_nat q)) eqn:Hc.
      * split.
        -- intros [Hl _]. apply lookup_lt_Some in Hl as Hq.
           rewrite length_wrb in Hq. by rewrite wrb_lookup_eq in Hl.
        -- intros [_ Hno]. discriminate Hno. by left.
      * split; [intros [Hb Hno]; split; [done |]; by intros _ | ].
        intros [Hb Hno]. split; [done |]. by intros _.
    + assert (Hsame : (if c a then wrb b a false else b) !! q = b !! q).
      { destruct (c a); [by apply wrb_lookup_ne | done]. }
      rewrite Hsame. split; intros [Hb Hno]; (split; [done |]); intros Hin; apply Hno.
      * apply elem_of_cons in Hin as [Heq | Hin]; [congruence | done].
      * by right.
Qed.

Section BarrierPixels.

Variables W H : Z.

Lemma pixel_number_inside x y :
  inside W H x y -> 0 <= y * W + x < W * H.
Proof. intros [Hx Hy]. nia. Qed.

(** The pixel with the number [q] of the canvas. *)
Lemma pixel_of_number (q : nat) :
  0 <= W -> Z.of_nat q < W * H ->
  exists x y, inside W H x y /\ y * W + x = Z.of_nat q.
Proof.
  intros HW Hq.
  assert (HWpos : 0 < W)
    by (destruct (Z.eq_dec W 0) as [HW0 | HW0]; [rewrite HW0 in Hq |]; lia).
  exists (Z.of_nat q mod W), (Z.of_nat q / W).
  pose proof (Z.mod_pos_bound (Z.of_nat q) W HWpos).
  pose proof (Z.div_mod (Z.of_nat q) W ltac:(lia)).
  split; [| lia]. split; [done |].
  split; [apply Z.div_pos; lia | apply Z.div_lt_upper_bound; lia].
Qed.

(** Before the dilation the mask marks the pixels farther than the
    threshold from the background. *)
Lemma build_barrier_lookup data bg x y :
  image_data W H data -> inside W H x y ->
  build_barrier W H data bg !! Z.to_nat (y * W + x) = Some true <->
  Js.gt (bg_dist data bg (idx W x y)) barrierThreshold = true.
Proof.
  intros Himg Hin. pose proof (pixel_number_inside x y Hin) as Hp.
  unfold build_barrier.
  rewrite (foldl_marks _
    (fun p q => Js.gt (bg_dist data bg (4 * p)) barrierThreshold = true
                /\ p = Z.of_nat q)).
  - rewrite length_replicate, idx_pixel. split.
    + intros [Hb | (_ & p & _ & Hgt & ->)].
      * apply lookup_replicate in Hb as [Hb _]. done.
      * by rewrite Z2Nat.id in Hgt by lia.
    + intros Hgt. right. split; [lia |]. exists (y * W + x).
      split; [| split; [done | lia]].
      unfold pixel_loop. apply elem_of_seqZ. unfold image_data in Himg.
      rewrite Himg. replace (4 * (W * H) + 3) with (3 + (W * H) * 4) by lia.
      rewrite Z.div_add by lia. change (3 / 4) with 0. lia.
  - intros b a. destruct (Js.gt _ _); [apply length_wrb | done].
  - intros b a q. apply wrb_true_lookup.
Qed.

(** The eight neighbours the two inner loops visit. *)
Lemma found_neighbour_spec cur x y :
  found_neighbour W H cur x y = true <->
  exists x' y',
    inside W H x' y' /\ Z.abs (x - x') <= 1 /\ Z.abs (y - y') <= 1
    /\ (x', y') <> (x, y)
    /\ cur !! Z.to_nat (y' * W + x') = Some true.
Proof.
  unfold found_neighbour. rewrite existsb_exists. split.
  - intros ([dy dx] & Hd & Hbody).
    destruct (Z.ltb_spec (y + dy) 0); [done |].
    destruct (Z.leb_spec H (y + dy)); [done |]. simpl in Hbody.
    destruct ((dx =? 0) && (dy =? 0)) eqn:Hzero; [done |].
    destruct (Z.ltb_spec (x + dx) 0); [done |].
    destruct (Z.leb_spec W (x + dx)); [done |]. simpl in Hbody.
    assert (Hrange : -1 <= dx <= 1 /\ -1 <= dy <= 1).
    { simpl in Hd. repeat (destruct Hd as [[= <- <-] | Hd]; [lia |]). done. }
    exists (x + dx), (y + dy).
    split; [split; lia |]. split; [lia |]. split; [lia |]. split.
    + intros [= Hx Hy]. assert (dx = 0) as -> by lia. assert (dy = 0) as -> by lia.
      done.
    + unfold rdb in Hbody.
      assert (0 <= (y + dy) * W + (x + dx)) by nia.
      destruct (Z.ltb_spec ((y + dy) * W + (x + dx)) 0); [lia |].
      by destruct (cur !! Z.to_nat ((y + dy) * W + (x + dx))) as [[|] |].
  - intros (x' & y' & [Hx' Hy'] & Hdx & Hdy & Hne & Hcur).
    exists (y' - y, x' - x). split.
    + assert (Hcases : (x' - x = -1 \/ x' - x = 0 \/ x' - x = 1)
                       /\ (y' - y = -1 \/ y' - y = 0 \/ y' - y = 1)) by lia.
      destruct Hcases as [[-> | [-> | ->]] [-> | [-> | ->]]]; simpl; tauto.
    + replace (y + (y' - y)) with y' by lia. replace (x + (x' - x)) with x' by lia.
      destruct (Z.ltb_spec y' 0); [lia |]. destruct (Z.leb_spec H y'); [lia |].
      simpl.
      assert (Hnz : (x' - x =? 0) && (y' - y =? 0) = false).
      { destruct (Z.eqb_spec (x' - x) 0), (Z.eqb_spec (y' - y) 0); try done.
        exfalso. apply Hne. f_equal; lia. }
      rewrite Hnz.
      destruct (Z.ltb_spec x' 0); [lia |]. destruct (Z.leb_spec W x'); [lia |].
      simpl. unfold rdb.
      assert (0 <= y' * W + x') by nia.
      destruct (Z.ltb_spec (y' * W + x') 0); [lia |]. by rewrite Hcur.
Qed.

(** One pass marks the pixels at most one step, in any of the eight
    directions, from a marked pixel. *)
Lemma dilate_lookup cur x y :
  inside W H x y ->
  dilate W H cur !! Z.to_nat (y * W + x) = Some true <->
  exists x' y',
    inside W H x' y' /\ Z.abs (x - x') <= 1 /\ Z.abs (y - y') <= 1
    /\ cur !! Z.to_nat (y' * W + x') = Some true.
Proof.
  intros Hin. pose proof (pixel_number_inside x y Hin) as Hp.
  set (marks := fun (y0 x0 : Z) (q : nat) =>
    (Js.truthy (rdb cur (y0 * W + x0)) || found_neighbour W H cur x0 y0 = true)
    /\ y0 * W + x0 = Z.of_nat q).
  assert (Hpx : forall y0 b x0 q,
    dilate_px W H cur b y0 x0 !! q = Some true <->
    b !! q = Some true \/ ((q < length b)%nat /\ marks y0 x0 q)).
  { intros y0 b x0 q. unfold dilate_px, marks.
    destruct (Js.truthy _) eqn:Ht; simpl.
    - rewrite (wrb_true_lookup b _ q true). tauto.
    - rewrite (wrb_true_lookup b _ q (found_neighbour W H cur x0 y0)). tauto. }
  unfold dilate.
  rewrite (foldl_marks _ (fun y0 q => exists x0, x0 ∈ seqZ 0 W /\ marks y0 x0 q)).
  - rewrite length_replicate. split.
    + intros [Hb | (_ & y0 & Hy0 & x0 & Hx0 & Hset & Heq)].
      { apply lookup_replicate in Hb as [Hb _]. done. }
      apply elem_of_seqZ in Hy0, Hx0.
      assert (Hin0 : inside W H x0 y0) by (split; lia).
      rewrite Z2Nat.id in Heq by lia.
      destruct (pixel_index_inj W H x0 y0 x y Hin0 Hin Heq) as [-> ->].
      apply orb_prop in Hset as [Hset | Hset].
      * exists x, y. split; [done |]. split; [lia |]. split; [lia |].
        unfold rdb in Hset. destruct (Z.ltb_spec (y * W + x) 0); [lia |].
        by destruct (cur !! Z.to_nat (y * W + x)) as [[|] |].
      * apply found_neighbour_spec in Hset as (x' & y' & Hin' & Hdx & Hdy & _ & Hcur).
        by exists x', y'.
    + intros (x' & y' & Hin' & Hdx & Hdy & Hcur).
      right. split; [lia |]. destruct Hin as [Hx Hy].
      exists y. split; [apply elem_of_seqZ; lia |].
      exists x. split; [apply elem_of_seqZ; lia |].
      split; [| lia]. apply orb_true_intro.
      destruct (decide ((x', y') = (x, y))) as [[= -> ->] | Hne].
      * left. unfold rdb. destruct (Z.ltb_spec (y * W + x) 0); [lia |].
        by rewrite Hcur.
      * right. apply found_neighbour_spec. by exists x', y'.
  - intros b y0. apply foldl_length. intros b' x0. apply length_dilate_px.
  - intros b y0 q.
    rewrite (foldl_marks _ (marks y0)).
    + reflexivity.
    + intros b' x0. apply length_dilate_px.
    + intros b' x0 q'. apply Hpx.
Qed.

End BarrierPixels.

(** X4. Gap closing is a dilation by [gapClose] pixels: on an image of the
    canvas, after [r >= 0] passes the mask marks a pixel of the canvas
    exactly when some pixel of the canvas at most [r] steps away, in any of
    the eight directions, is farther than the threshold 40 from the
    background colour. *)
Theorem dilated_barrier_radius (W H : Z) (data : list Z) (bg : rgba) (r x y : Z) :
  image_data W H data -> 0 <= r -> inside W H x y ->
  dilated_barrier W H data bg r !! Z.to_nat (y * W + x) = Some true <->
  exists x' y',
    inside W H x' y' /\ Z.abs (x - x') <= r /\ Z.abs (y - y') <= r
    /\ Js.gt (bg_dist data bg (idx W x' y')) barrierThreshold = true.
Proof.
  intros Himg Hr. unfold dilated_barrier.
  assert (Hgen : forall (n : nat) x y, inside W H x y ->
    Nat.iter n (dilate W H) (build_barrier W H data bg) !! Z.to_nat (y * W + x)
    = Some true <->
    exists x' y',
      inside W H x' y' /\ Z.abs (x - x') <= Z.of_nat n
      /\ Z.abs (y - y') <= Z.of_nat n
      /\ Js.gt (bg_dist data bg (idx W x' y')) barrierThreshold = true);
    [| intros Hin; rewrite (Hgen (Z.to_nat r) x y Hin), Z2Nat.id by done; done].
  clear x y. induction n as [| n IH]; intros x y Hin.
  - simpl. rewrite build_barrier_lookup by done. split.
    + intros Hgt. exists x, y. split; [done |]. split; [lia |]. split; [lia | done].
    + intros (x' & y' & _ & Hdx & Hdy & Hgt).
      replace x with x' by lia. replace y with y' by lia. done.
  - simpl. rewrite dilate_lookup by done. split.
    + intros (x1 & y1 & Hin1 & Hdx & Hdy & Hcur).
      apply IH in Hcur as (x' & y' & Hin' & Hdx' & Hdy' & Hgt); [| done].
      exists x', y'. split; [done |]. split; [lia |]. split; [lia | done].
    + intros (x' & y' & Hin' & Hdx & Hdy & Hgt).
      exists (Z.max (x - 1) (Z.min (x + 1) x')), (Z.max (y - 1) (Z.min (y + 1) y')).
      destruct Hin as [Hx Hy], Hin' as [Hx' Hy'].
      assert (Hin1 : inside W H (Z.max (x - 1) (Z.min (x + 1) x'))
                       (Z.max (y - 1) (Z.min (y + 1) y'))) by (split; lia).
      split; [done |]. split; [lia |]. split; [lia |].
      apply IH; [done |]. exists x', y'.
      split; [by split |]. split; [lia |]. split; [lia | done].
Qed.

(** X5. The carve-out only removes marks: on an image of the canvas, the
    final mask marks a pixel of the canvas exactly when the dilated mask
    marks it and its colour is farther than [max(tolerance, 24)] from the
    seed colour (or that distance is not a number). *)
Theorem final_barrier_lookup (W H : Z) (data : list Z) (target : seed_rgba)
    (tolerance gapClose : Z) (bgHex : string) (x y : Z) :
  image_data W H data -> inside W H x y ->
  final_barrier W H data target tolerance gapClose bgHex !! Z.to_nat (y * W + x)
  = Some true <->
  dilated_barrier W H data (hexToRgba bgHex) gapClose !! Z.to_nat (y * W + x)
  = Some true
  /\ Js.le (seed_dist data target (idx W x y)) (Z.max tolerance 24) = false.
Proof.
  intros Himg Hin. pose proof (pixel_number_inside W H x y Hin) as Hp.
  unfold final_barrier, carve_out. rewrite foldl_clears.
  rewrite Z2Nat.id, <- idx_pixel by lia.
  assert (Hloop : y * W + x ∈ pixel_loop data).
  { unfold pixel_loop. apply elem_of_seqZ. unfold image_data in Himg.
    rewrite Himg. replace (4 * (W * H) + 3) with (3 + (W * H) * 4) by lia.
    rewrite Z.div_add by lia. change (3 / 4) with 0. lia. }
  split; intros [Hd Hc]; (split; [done |]); [by apply Hc | by intros _].
Qed.

(** ** Colours from strings *)

Lemma land_255 a : Z.land a 255 = a mod 256.
Proof. change 255 with (Z.ones 8). rewrite Z.land_ones by lia. reflexivity. Qed.

(** X6. [hexToRgba] never fails and never leaves the byte range: whatever
    the string, the three colour channels are between 0 and 255 and the
    alpha channel is 255. *)
Theorem hexToRgba_bytes (hex : string) :
  byte_rgba (hexToRgba hex) /\ ch3 (hexToRgba hex) = 255.
Proof.
  unfold byte_rgba, is_byte, hexToRgba. simpl. rewrite !land_255.
  pose proof (fun a => Z.mod_pos_bound a 256 ltac:(lia)) as Hmod.
  repeat split; try apply Hmod; try lia.
  - pose proof (Hmod (Z.shiftr (Js.to_int32
      (parseInt16 (if (String.length (replace_hash hex) =? 3)%nat
                   then double_chars (replace_hash hex) else replace_hash hex))) 16)).
    lia.
  - pose proof (Hmod (Z.shiftr (Js.to_int32
      (parseInt16 (if (String.length (replace_hash hex) =? 3)%nat
                   then double_chars (replace_hash hex) else replace_hash hex))) 8)).
    lia.
  - pose proof (Hmod (Js.to_int32
      (parseInt16 (if (String.length (replace_hash hex) =? 3)%nat
                   then double_chars (replace_hash hex) else replace_hash hex)))).
    lia.
Qed.








(** On a string of hexadecimal digits [parseInt] reads digits only: no
    space, no sign and no [0x] prefix is skipped. *)
Lemma parseInt16_hex c s :
  forallb (fun c => bool_decide (is_Some (hex_digit c)))
    (list_ascii_of_string (String c s)) = true ->
  parseInt16 (String c s) = hex_digits (String c s) None.
Proof.
  simpl. intros Hall. apply andb_prop in Hall as [Hc Hs].
  destruct s as [| c' s'].
  - destruct c as [[|] [|] [|] [|] [|] [|] [|] [|]]; vm_compute in Hc; try done;
      reflexivity.
  - simpl in Hs. apply andb_prop in Hs as [Hc' _].
    destruct c as [[|] [|] [|] [|] [|] [|] [|] [|]]; vm_compute in Hc; try done;
      try reflexivity.
    destruct c' as [[|] [|] [|] [|] [|] [|] [|] [|]]; vm_compute in Hc'; try done;
      reflexivity.
Qed.





Lemma num_or_positive (k : Z) (d : Q) : 0 < k -> num_or (inject_Z k) d = inject_Z k.
Proof.
  intros Hk. unfold num_or.
  destruct (Qeq_bool (inject_Z k) 0) eqn:Hz; [| done].
  apply Qeq_bool_iff in Hz. unfold Qeq in Hz. simpl in Hz. lia.
Qed.

(** X8. The seeds of [handleMagic] are on the canvas: on a canvas with at
    least one pixel (and fewer than [2^53] a side), every pair of values of
    [Math.random()], doubles from 0 to the last double before 1, gives a
    seed inside the pixel buffer: the product with the width rounds to a
    double below the width. *)
Theorem magic_seeds_inside_canvas (canvas_width canvas_height : Z)
    (rect_width rect_height r1 r2 : Q) :
  0 < canvas_width < 2 ^ 53 -> 0 < canvas_height < 2 ^ 53 ->
  (0 <= r1)%Q -> (r1 <= 1 - (1 # 2 ^ 53))%Q ->
  (0 <= r2)%Q -> (r2 <= 1 - (1 # 2 ^ 53))%Q ->
  inside canvas_width canvas_height
    (magic_point r1 canvas_width rect_width)
    (magic_point r2 canvas_height rect_height).
Proof.
  intros Hcw Hch Hr1 Hr1' Hr2 Hr2'.
  assert (Hrand : forall (k : Z) (r w : Q), 0 < k < 2 ^ 53 ->
            (0 <= r)%Q -> (r <= 1 - (1 # 2 ^ 53))%Q ->
            0 <= magic_point r k w < k).
  { intros k r w Hk Hr Hr'. unfold magic_point.
    rewrite num_or_positive by lia.
    assert (Hkq : (0 < inject_Z k)%Q)
      by (change 0%Q with (inject_Z 0); rewrite <- Zlt_Qlt; lia).
    split.
    - change 0 with (Qfloor 0). apply Qfloor_resp_le.
      apply double_round_nonneg. apply Qmult_le_0_compat; [done | lra].
    - rewrite Zlt_Qlt. eapply Qle_lt_trans; [apply Qfloor_le |].
      apply double_round_below; [done | |].
      + apply Qmult_le_0_compat; [done | lra].
      + rewrite (Qmult_comm r). apply Qmult_le_l; done. }
  split; by apply Hrand.
Qed.

(** X17. A click at or after the left and top edges of the bounding
    rectangle never gives [handleBucketClick] a negative seed coordinate,
    whatever the rounding of the difference, the scale and the product. *)
Theorem click_seed_not_negative (canvas_width canvas_height : Z)
    (rect_left rect_top rect_width rect_height clientX clientY : Q) :
  0 < canvas_width -> 0 < canvas_height ->
  (0 < rect_width)%Q -> (0 < rect_height)%Q ->
  (rect_left <= clientX)%Q -> (rect_top <= clientY)%Q ->
  0 <= fst (click_seed canvas_width canvas_height rect_left rect_top rect_width
              rect_height clientX clientY)
  /\ 0 <= snd (click_seed canvas_width canvas_height rect_left rect_top rect_width
                 rect_height clientX clientY).
Proof.
  intros Hcw Hch Hrw Hrh Hx Hy.
  assert (Hcoord : forall (k : Z) (s w a : Q), 0 < k -> (0 < w)%Q -> (s <= a)%Q ->
            0 <= click_coord k s w a).
  { intros k s w a Hk Hw Ha. unfold click_coord, click_scale.
    rewrite num_or_positive by done.
    assert (Hkq : (0 < inject_Z k)%Q)
      by (change 0%Q with (inject_Z 0); rewrite <- Zlt_Qlt; done).
    change 0 with (Qfloor 0). apply Qfloor_resp_le.
    apply double_round_nonneg. apply Qmult_le_0_compat.
    - apply double_round_nonneg. lra.
    - apply double_round_nonneg. apply Qlt_le_weak.
      apply Qlt_shift_div_l; [done | lra]. }
  unfold click_seed. cbn [fst snd]. split; by apply Hcoord.
Qed.

(** X18. A click strictly inside the bounding rectangle can give
    [handleBucketClick] the seed column [canvas.width]: on a canvas 2 pixels
    wide shown 105 CSS pixels wide, the scale [2 / 105] rounds up, and the
    click at the last double before 105 lands on column 2. [floodFill]
    reads the seed colour at the index of the pixel [(0, 1)] and recolours
    the white canvas. *)
Lemma click_inside_rect_seed_on_width :
  exists clientX : Q,
    (0 <= clientX)%Q /\ (clientX < 105)%Q
    /\ (double_round clientX == clientX)%Q
    /\ click_seed 2 2 0 0 105 105 clientX 0 = (2, 0)
    /\ floodFill 2 2 (enough_fuel 2 2) canvas_white 2 0 red 24 1 bgWhite
       = Some canvas_red.
Proof.
  exists (105 - (1 # 2 ^ 46))%Q.
  split; [vm_compute; discriminate |]. split; [vm_compute; reflexivity |].
  split; [vm_compute; reflexivity |]. split; [vm_compute; reflexivity |].
  reflexivity.
Qed.

(** ** The exact-colour fill of the canvas *)

Section ClickSimulation.

Variables iw ih : Z.
Variable target : seed_rgba.
Variables repR repG repB : option Z.

(** The colour at the click is a colour: the click is inside the buffer. *)
Hypothesis target_defined :
  is_Some (t0 target) /\ is_Some (t1 target) /\ is_Some (t2 target)
  /\ is_Some (t3 target).

Local Abbreviation rep := (Rgba (nan_to_0 repR) (nan_to_0 repG) (nan_to_0 repB) 255).
Local Abbreviation mt := (matchTarget target).
Local Abbreviation ce := (closeEnough [] target 0).

(** The exact match is [closeEnough] with no barrier at tolerance 0. *)
Lemma matchTarget_closeEnough data i : mt data i = ce data i.
Proof.
  destruct target_defined as ([v0 E0] & [v1 E1] & [v2 E2] & [v3 E3]).
  unfold matchTarget, closeEnough, seed_dist.
  assert (Hb : Js.truthy (rdb [] (Z.shiftr i 2)) = false).
  { unfold rdb. destruct (_ <? 0); [done |]. by rewrite lookup_nil. }
  rewrite Hb, E0, E1, E2, E3.
  destruct (rd data i) as [d0 |], (rd data (i + 1)) as [d1 |],
    (rd data (i + 2)) as [d2 |], (rd data (i + 3)) as [d3 |]; simpl;
    rewrite ?andb_false_r; try reflexivity.
  destruct (Z.eqb_spec d0 v0), (Z.eqb_spec d1 v1), (Z.eqb_spec d2 v2),
    (Z.eqb_spec d3 v3); simpl; symmetry;
    first [apply Z.leb_le; lia | apply Z.leb_gt; lia].
Qed.

Lemma click_left_scan data cy n left :
  click_left iw target data cy n left = scan_left iw [] target 0 data cy n left.
Proof.
  revert left. induction n as [| n IH]; intros left; simpl; [done |].
  change ((cy * iw + left) * 4) with (idx iw left cy).
  rewrite matchTarget_closeEnough, IH.
  by destruct (0 <=? left), (ce data (idx iw left cy)).
Qed.

Lemma click_right_scan data cy n right :
  click_right iw target data cy n right = scan_right iw [] target 0 data cy n right.
Proof.
  revert right. induction n as [| n IH]; intros right; simpl; [done |].
  change ((cy * iw + right) * 4) with (idx iw right cy).
  rewrite matchTarget_closeEnough, IH.
  by destruct (right <? iw), (ce data (idx iw right cy)).
Qed.

Lemma click_px_fill data pairs cy px :
  click_px iw ih target repR repG repB cy px (data, flat_stack pairs)
  = (fst (fill_px iw ih [] target 0 rep cy px (data, pairs)),
     flat_stack (snd (fill_px iw ih [] target 0 rep cy px (data, pairs)))).
Proof.
  unfold click_px, fill_px. cbn [fst snd].
  change (colorPixel repR repG repB data ((cy * iw + px) * 4))
    with (write_px rep data (idx iw px cy)).
  change (((cy - 1) * iw + px) * 4) with (idx iw px (cy - 1)).
  change (((cy + 1) * iw + px) * 4) with (idx iw px (cy + 1)).
  rewrite !matchTarget_closeEnough.
  by destruct (0 <? cy), (cy <? ih - 1),
    (ce (write_px rep data (idx iw px cy)) (idx iw px (cy - 1))),
    (ce (write_px rep data (idx iw px cy)) (idx iw px (cy + 1))).
Qed.

Lemma click_span_fill cy n px data pairs :
  click_span iw ih target repR repG repB cy n px (data, flat_stack pairs)
  = (fst (fill_span iw ih [] target 0 rep cy n px (data, pairs)),
     flat_stack (snd (fill_span iw ih [] target 0 rep cy n px (data, pairs)))).
Proof.
  revert px data pairs. induction n as [| n IH]; intros px data pairs; simpl; [done |].
  rewrite click_px_fill, IH. by destruct (fill_px _ _ _ _ _ _ _ _ _).
Qed.

Lemma click_step_fill data cx cy pairs :
  click_step iw ih target repR repG repB data cx cy (flat_stack pairs)
  = (fst (fill_step iw ih [] target 0 rep data cx cy pairs),
     flat_stack (snd (fill_step iw ih [] target 0 rep data cx cy pairs))).
Proof.
  unfold click_step, fill_step.
  by rewrite click_left_scan, click_right_scan, click_span_fill.
Qed.

(** The loop of [handleCanvasClick] is the loop of [floodFill] run with an
    empty barrier mask and tolerance 0. *)
Lemma click_loop_fill fuel data pairs :
  click_loop iw ih target repR repG repB fuel data (flat_stack pairs)
  = fill_loop iw ih [] target 0 rep fuel data pairs.
Proof.
  revert data pairs. induction fuel as [| fuel IH]; intros data pairs.
  - by destruct pairs as [| [cx cy] pairs].
  - destruct pairs as [| [cx cy] pairs]; [done |].
    rewrite fill_loop_unfold, <- IH. simpl.
    by rewrite click_step_fill.
Qed.

End ClickSimulation.

Lemma region_ext W H ok ok' sx sy x y :
  (forall u v, ok u v = ok' u v) ->
  region W H ok sx sy x y -> region W H ok' sx sy x y.
Proof.
  intros Hext Hr. induction Hr as [Hin Hok | u v u' v' Hr IH Hadj Hin Hok].
  - apply region_seed; [done | by rewrite <- Hext].
  - apply (region_step _ _ _ _ _ u v); [done | done | done | by rewrite <- Hext].
Qed.

Lemma same_value_eq d t : same_value d t = true -> d = t.
Proof.
  destruct d as [u |], t as [v |]; simpl; try done.
  intros Heq%Z.eqb_eq. by subst.
Qed.

Lemma matchTarget_pixel target data i :
  matchTarget target data i = true -> pixel_at data i = target.
Proof.
  unfold matchTarget. intros Hm.
  apply andb_prop in Hm as [Hm E3]. apply andb_prop in Hm as [Hm E2].
  apply andb_prop in Hm as [E0 E1].
  apply same_value_eq in E0, E1, E2, E3.
  destruct target. unfold pixel_at. simpl in *. by subst.
Qed.

Lemma pixel_defined W H data x y :
  image_data W H data -> inside W H x y ->
  exists v0 v1 v2 v3,
    pixel_at data (idx W x y) = SeedRgba (Some v0) (Some v1) (Some v2) (Some v3).
Proof.
  intros Himg [Hx Hy].
  destruct (seed_index_inside W H data x y Himg Hx Hy) as [Hlo Hhi].
  destruct (rd_inside data (idx W x y)) as [v0 E0]; [lia |].
  destruct (rd_inside data (idx W x y + 1)) as [v1 E1]; [lia |].
  destruct (rd_inside data (idx W x y + 2)) as [v2 E2]; [lia |].
  destruct (rd_inside data (idx W x y + 3)) as [v3 E3]; [lia |].
  exists v0, v1, v2, v3. unfold pixel_at. by rewrite E0, E1, E2, E3.
Qed.

(** X9. The fill of [handleCanvasClick] always ends when the replacement
    colour parses to bytes: on an image of the canvas, clicked on a pixel of
    the canvas, the call returns, the pixels that a path of edge-sharing
    pixels of exactly the clicked colour joins to the click hold the
    replacement colour, with alpha 255, and every other pixel of the canvas
    is as before. *)
Theorem canvas_click_fill_region (iw ih : Z) (data : list Z) (x y : Z)
    (hex : string) (r g b : Z) :
  image_data iw ih data -> inside iw ih x y ->
  parseHex hex = (Some r, Some g, Some b) ->
  is_byte r -> is_byte g -> is_byte b ->
  exists d',
    canvas_click_fill iw ih (enough_fuel iw ih) data x y hex = Some d'
    /\ forall px py, inside iw ih px py ->
         (region iw ih (same_colour_at iw data x y) x y px py ->
          pixel_at d' (idx iw px py)
          = SeedRgba (Some r) (Some g) (Some b) (Some 255))
         /\ (~ region iw ih (same_colour_at iw data x y) x y px py ->
             pixel_at d' (idx iw px py) = pixel_at data (idx iw px py)).
Proof.
  intros Himg Hin Hparse Hr Hg Hb.
  destruct (pixel_defined iw ih data x y Himg Hin) as (v0 & v1 & v2 & v3 & Htarget).
  unfold canvas_click_fill. rewrite Hparse.
  change ((y * iw + x) * 4) with (idx iw x y). rewrite Htarget.
  set (target := SeedRgba (Some v0) (Some v1) (Some v2) (Some v3)) in *.
  assert (Hok : forall u v,
            same_colour_at iw data x y u v = matchTarget target data (idx iw u v)).
  { intros u v. unfold same_colour_at.
    change ((y * iw + x) * 4) with (idx iw x y). by rewrite Htarget. }
  cbn [t0 t1 t2 t3 target same_number].
  destruct ((v0 =? r) && (v1 =? g) && (v2 =? b) && (v3 =? 255)) eqn:Hsame.
  - (* the clicked colour is the replacement colour *)
    exists data. split; [done |]. intros px py Hpx. split; [| done].
    intros Hreg. destruct Hreg as [_ Hs | u v u' v' _ _ _ Hs];
      rewrite Hok in Hs; apply matchTarget_pixel in Hs; rewrite Hs;
      apply andb_prop in Hsame as [Hsame E3]; apply andb_prop in Hsame as [Hsame E2];
      apply andb_prop in Hsame as [E0 E1];
      apply Z.eqb_eq in E0, E1, E2, E3; by subst.
  - assert (Hdef : is_Some (t0 target) /\ is_Some (t1 target)
                   /\ is_Some (t2 target) /\ is_Some (t3 target))
      by (simpl; eauto).
    assert (Hfar : Js.le (colour_dist target (stored_fill (Rgba r g b 255))) 0 = false).
    { unfold colour_dist, stored_fill. simpl.
      rewrite !clamp8_byte by (done || (unfold is_byte; lia)). simpl.
      apply Z.leb_gt.
      destruct (Z.eqb_spec v0 r), (Z.eqb_spec v1 g), (Z.eqb_spec v2 b),
        (Z.eqb_spec v3 255); simpl in Hsame; try done; lia. }
    change [y; x] with (flat_stack [(x, y)]).
    rewrite (click_loop_fill iw ih target (Some r) (Some g) (Some b) Hdef).
    change (nan_to_0 (Some r)) with r. change (nan_to_0 (Some g)) with g.
    change (nan_to_0 (Some b)) with b.
    assert (Hrun : is_Some (fill_loop iw ih [] target 0 (Rgba r g b 255)
                              (enough_fuel iw ih) data [(x, y)])).
    { apply fill_loop_terminates; [done |].
      pose proof (close_count_bound [] target 0 data) as Hc.
      rewrite (length_pixel_loop iw ih) in Hc by done.
      unfold enough_fuel. simpl. lia. }
    destruct Hrun as [d' Hrun]. exists d'. split; [done |].
    assert (Hclose : close_at iw [] target 0 data x y = true).
    { unfold close_at. rewrite <- (matchTarget_closeEnough target Hdef), <- Htarget.
      unfold matchTarget, pixel_at. simpl.
      unfold pixel_at in Htarget. injection Htarget as -> -> -> ->. simpl.
      by rewrite !Z.eqb_refl. }
    assert (Hstored : stored_fill (Rgba r g b 255)
                      = SeedRgba (Some r) (Some g) (Some b) (Some 255)).
    { unfold stored_fill. simpl. by rewrite !clamp8_byte by (done || (unfold is_byte; lia)). }
    intros px py Hpx.
    pose proof (fill_inv_end iw ih [] target 0 (Rgba r g b 255) data x y Hfar d' px py
                  (fill_loop_inv iw ih [] target 0 (Rgba r g b 255) data x y Hfar Hin
                     (enough_fuel iw ih) data [(x, y)] d'
                     (fill_inv_start iw ih [] target 0 (Rgba r g b 255) data x y Hin Hclose)
                     Hrun)
                  Hpx) as [Hfill Hkeep].
    rewrite Hstored in Hfill.
    assert (Hext : forall u v, same_colour_at iw data x y u v = close_at iw [] target 0 data u v).
    { intros u v. rewrite Hok. unfold close_at. by apply matchTarget_closeEnough. }
    split.
    + intros Hreg. apply Hfill. by apply (region_ext _ _ _ _ _ _ _ _ Hext).
    + intros Hnreg. apply Hkeep. intros Hreg. apply Hnreg.
      apply (region_ext _ _ (close_at iw [] target 0 data)); [| done].
      intros u v. by rewrite Hext.
Qed.

(** ** The two colour parsers *)

Lemma hex_digit_range c d : hex_digit c = Some d -> 0 <= d < 16.
Proof.
  unfold hex_digit. set (n := Z.of_N (N_of_ascii c)).
  destruct (Z.leb_spec 48 n), (Z.leb_spec n 57); simpl; try (intros [= <-]; lia);
    destruct (Z.leb_spec 97 n), (Z.leb_spec n 102); simpl; try (intros [= <-]; lia);
    destruct (Z.leb_spec 65 n), (Z.leb_spec n 70); simpl; try (intros [= <-]; lia);
    done.
Qed.

Lemma parseInt16_two_digits c1 c2 d1 d2 :
  hex_digit c1 = Some d1 -> hex_digit c2 = Some d2 ->
  parseInt16 (String c1 (String c2 EmptyString)) = Some (d1 * 16 + d2).
Proof.
  intros H1 H2. rewrite parseInt16_hex by (simpl; by rewrite H1, H2).
  simpl. by rewrite H1, H2.
Qed.

(** X10. The two parsers agree on colours as a colour input gives them: for
    six hexadecimal digits after [#], [hexToRgba] of src/App.jsx and
    [parseHex] of src/components/Canvas.jsx both read the three bytes
    [16 d1 + d2], [16 d3 + d4], [16 d5 + d6]. *)
Theorem parsers_agree (c1 c2 c3 c4 c5 c6 : ascii) (d1 d2 d3 d4 d5 d6 : Z) :
  hex_digit c1 = Some d1 -> hex_digit c2 = Some d2 -> hex_digit c3 = Some d3 ->
  hex_digit c4 = Some d4 -> hex_digit c5 = Some d5 -> hex_digit c6 = Some d6 ->
  let s := String "#"%char (String c1 (String c2 (String c3 (String c4
             (String c5 (String c6 EmptyString)))))) in
  hexToRgba s = Rgba (16 * d1 + d2) (16 * d3 + d4) (16 * d5 + d6) 255
  /\ parseHex s = (Some (16 * d1 + d2), Some (16 * d3 + d4), Some (16 * d5 + d6)).
Proof.
  intros H1 H2 H3 H4 H5 H6 s.
  pose proof (hex_digit_range _ _ H1). pose proof (hex_digit_range _ _ H2).
  pose proof (hex_digit_range _ _ H3). pose proof (hex_digit_range _ _ H4).
  pose proof (hex_digit_range _ _ H5). pose proof (hex_digit_range _ _ H6).
  split.
  - unfold s.
    set (n := ((((d1 * 16 + d2) * 16 + d3) * 16 + d4) * 16 + d5) * 16 + d6).
    assert (Hparse : parseInt16 (String c1 (String c2 (String c3 (String c4
                       (String c5 (String c6 EmptyString)))))) = Some n).
    { rewrite parseInt16_hex by (simpl; by rewrite H1, H2, H3, H4, H5, H6).
      simpl. by rewrite H1, H2, H3, H4, H5, H6. }
    unfold hexToRgba.
    assert (Hhash : replace_hash (String "#"%char (String c1 (String c2 (String c3
              (String c4 (String c5 (String c6 EmptyString)))))))
            = String c1 (String c2 (String c3 (String c4 (String c5
                (String c6 EmptyString)))))) by reflexivity.
    rewrite Hhash. cbn [String.length Nat.eqb]. rewrite Hparse.
    unfold Js.to_int32.
    assert (Hn : 0 <= n < 16777216) by (unfold n; lia).
    replace ((n + 2 ^ 31) mod 2 ^ 32 - 2 ^ 31) with n
      by (rewrite Z.mod_small; lia).
    rewrite !land_255, !Z.shiftr_div_pow2 by lia.
    change (2 ^ 16) with 65536. change (2 ^ 8) with 256.
    unfold n. f_equal.
    + pose proof (Z.div_mod n 65536 ltac:(lia)). unfold n in *.
      Z.div_mod_to_equations. lia.
    + Z.div_mod_to_equations. lia.
    + Z.div_mod_to_equations. lia.
  - unfold s, parseHex. cbn [String.length Nat.eqb substring].
    rewrite (parseInt16_two_digits c1 c2 d1 d2), (parseInt16_two_digits c3 c4 d3 d4),
      (parseInt16_two_digits c5 c6 d5 d6) by done.
    replace (d1 * 16 + d2) with (16 * d1 + d2) by lia.
    replace (d3 * 16 + d4) with (16 * d3 + d4) by lia.
    replace (d5 * 16 + d6) with (16 * d5 + d6) by lia.
    reflexivity.
Qed.

(** ** Where the rasterizer draws *)

Lemma num_or_nonzero (v d : Q) : ~ (v == 0)%Q -> num_or v d = v.
Proof.
  intros Hne. unfold num_or. destruct (Qeq_bool v 0) eqn:Hz; [| done].
  by apply Qeq_bool_iff in Hz.
Qed.

Section SegmentFacts.

Variable Math_PI : Q.
Variables Math_cos Math_sin : Q -> Q.
Variable compiled : scope -> sample.
Variable sc : scope.
Variables width height tiltAngleDeg : Q.

Local Abbreviation steps := (draw_steps Math_PI Math_cos Math_sin width height tiltAngleDeg).
Local Abbreviation run :=
  (draw_loop Math_PI Math_cos Math_sin compiled sc width height tiltAngleDeg).

Lemma draw_loop_starts (n : nat) :
  forall (a : Z) (first : bool) (prev : option Z),
    flag_tracks first prev a ->
    List.map is_moveTo (run first (seqZ a (Z.of_nat n)))
    = segment_starts prev (finite_indices compiled sc steps (seqZ a (Z.of_nat n))).
Proof.
  induction n as [| n IH]; intros a first prev Hflag; [done |].
  rewrite seqZ_cons by lia.
  replace (Z.pred (Z.of_nat (S n))) with (Z.of_nat n) by lia.
  unfold finite_indices in *. cbn [draw_loop List.filter].
  destruct (compiled (set_x sc (sample_x steps a))) as [y | |] eqn:Hc;
    cbn [failed negb].
  - cbn [segment_starts].
    assert (Hhead : is_moveTo (if first then MoveTo
                       ((sample_x steps a - X_RANGE_min)
                        * pxPerXExt Math_PI Math_cos Math_sin width height tiltAngleDeg
                        - overscanPx Math_PI Math_cos Math_sin width height tiltAngleDeg)
                       (height - (y - yMin) * pxPerY height)
                     else LineTo
                       ((sample_x steps a - X_RANGE_min)
                        * pxPerXExt Math_PI Math_cos Math_sin width height tiltAngleDeg
                        - overscanPx Math_PI Math_cos Math_sin width height tiltAngleDeg)
                       (height - (y - yMin) * pxPerY height))
                     = match prev with
                       | Some p => negb (a =? p + 1)
                       | None => true
                       end).
    { destruct prev as [p |]; simpl in Hflag.
      - destruct Hflag as [[-> ->] | [-> Hp]]; simpl.
        + symmetry. apply negb_false_iff. lia.
        + symmetry. apply negb_true_iff. lia.
      - by rewrite Hflag. }
    rewrite <- Hhead.
    rewrite <- (IH (Z.succ a) false (Some a)) by (simpl; left; split; [done | lia]).
    by destruct first.
  - apply IH. destruct prev as [p |]; simpl in *; [| done].
    right. split; [done | lia].
  - apply IH. destruct prev as [p |]; simpl in *; [| done].
    right. split; [done | lia].
Qed.

End SegmentFacts.

(** X11. The polylines follow the gaps of the sampling: the path has one
    command for each finite sample, in the order of the samples; the
    command is a [moveTo] at the first finite sample and at every finite
    sample whose predecessor in the sampling failed, and a [lineTo] at every
    finite sample that directly follows a finite one. So no line is drawn
    across a failed sample, and no polyline breaks between two finite
    neighbours; in particular a path never begins with a [lineTo]. *)
Theorem path_segments_follow_gaps (Math_PI : Q) (Math_cos Math_sin : Q -> Q)
    (c : canvas) (compiled : scope -> sample) (sc : scope)
    (lineColor bgColor : string) (tiltAngleDeg : Q) (skipClear : bool)
    (lineWidth lineOpacity : Q) :
  let width := css_width c in
  let height := css_height c in
  let steps := draw_steps Math_PI Math_cos Math_sin width height tiltAngleDeg in
  let path := d_path (drawFunction Math_PI Math_cos Math_sin c compiled sc lineColor
                        bgColor tiltAngleDeg skipClear lineWidth lineOpacity) in
  List.map is_moveTo path
  = segment_starts None (finite_indices compiled sc steps (seqZ 0 (steps + 1)))
  /\ (forall px py rest, path <> LineTo px py :: rest).
Proof.
  intros width height steps path.
  assert (Hstarts : List.map is_moveTo path
            = segment_starts None
                (finite_indices compiled sc steps (seqZ 0 (steps + 1)))).
  { unfold path. simpl. unfold sample_indices. fold width height steps.
    pose proof (draw_steps_min Math_PI Math_cos Math_sin width height tiltAngleDeg)
      as Hs. fold steps in Hs.
    replace (steps + 1) with (Z.of_nat (Z.to_nat (steps + 1))) by lia.
    by apply draw_loop_starts. }
  split; [exact Hstarts |].
  intros px py rest Hpath. rewrite Hpath in Hstarts. simpl in Hstarts.
  destruct (finite_indices _ _ _ _); simpl in Hstarts; discriminate.
Qed.

(** X12. The stroke style stays in range: whatever the arguments, the stroke
    opacity is between 0 and 1 and the stroke is at least half a pixel wide;
    an opacity in (0, 1] and a width of at least one half, as the sliders
    give them, are used as they are. *)
Theorem stroke_style_range (Math_PI : Q) (Math_cos Math_sin : Q -> Q)
    (c : canvas) (compiled : scope -> sample) (sc : scope)
    (lineColor bgColor : string) (tiltAngleDeg : Q) (skipClear : bool)
    (lineWidth lineOpacity : Q) :
  let d := drawFunction Math_PI Math_cos Math_sin c compiled sc lineColor bgColor
             tiltAngleDeg skipClear lineWidth lineOpacity in
  (0 <= d_alpha d /\ d_alpha d <= 1)%Q
  /\ ((1 # 2) <= d_width d)%Q
  /\ ((0 < lineOpacity)%Q -> (lineOpacity <= 1)%Q -> (d_alpha d == lineOpacity)%Q)
  /\ (((1 # 2) <= lineWidth)%Q -> (d_width d == lineWidth)%Q).
Proof.
  intros d. unfold d. simpl.
  split; [split |]; [| apply Q.le_min_l |].
  { apply Q.min_glb; [done | apply Q.le_max_l]. }
  split; [apply Q.le_max_l |]. split.
  - intros Hpos Hle.
    rewrite num_or_nonzero by (intros Hz; rewrite Hz in Hpos; by apply Qlt_irrefl in Hpos).
    rewrite (Q.max_r 0 lineOpacity) by (by apply Qlt_le_weak).
    by apply Q.min_r.
  - intros Hle.
    rewrite num_or_nonzero by (intros Hz; rewrite Hz in Hle; by apply Hle).
    by apply Q.max_r.
Qed.

(** X13. At an integer device pixel ratio the logical size [drawFunction]
    derives from the canvas that [fitCanvas] sized is exactly the CSS size
    (for products below [2^53]): the product, and the quotient that undoes
    it, are integers, which rounding leaves alone. *)
Theorem logical_size_integer_ratio (clientWidth clientHeight innerHeight : Z)
    (heightVh : Q) (fillParent : bool) (devicePixelRatio : Q) (k : Z) :
  let c := fitCanvas clientWidth clientHeight innerHeight heightVh fillParent
             devicePixelRatio in
  (cv_dpr c == inject_Z k)%Q ->
  Z.abs (style_width c * k) < 2 ^ 53 ->
  Z.abs (style_height c * k) < 2 ^ 53 ->
  (css_width c == inject_Z (style_width c))%Q
  /\ (css_height c == inject_Z (style_height c))%Q.
Proof.
  intros c Hk Hw Hh.
  assert (Hdpr : (1 <= cv_dpr c)%Q) by apply Q.le_max_l.
  assert (Hk1 : 1 <= k).
  { rewrite Hk in Hdpr. change 1%Q with (inject_Z 1) in Hdpr.
    by rewrite <- Zle_Qle in Hdpr. }
  assert (Hgen : forall w : Z, Z.abs (w * k) < 2 ^ 53 ->
            (double_round (inject_Z (Qfloor (double_round (inject_Z w * cv_dpr c)))
                           / num_or (cv_dpr c) 1) == inject_Z w)%Q).
  { intros w Hwk.
    rewrite num_or_nonzero by (intros Hz; rewrite Hz in Hdpr; by apply Hdpr).
    assert (Hp : (double_round (inject_Z w * cv_dpr c) == inject_Z (w * k))%Q).
    { apply double_round_Z; [| done]. by rewrite Hk, inject_Z_mult. }
    rewrite (Qfloor_comp _ _ Hp), Qfloor_Z.
    apply double_round_Z; [| nia].
    rewrite Hk, inject_Z_mult. field.
    change 0%Q with (inject_Z 0). rewrite inject_Z_injective. lia. }
  split; [apply (Hgen (style_width c) Hw) | apply (Hgen (style_height c) Hh)].
Qed.

(** ** Fills in a row *)

(** A fill that returns leaves each pixel as it was or with the stored fill
    colour, and keeps the size of the buffer. *)
Lemma floodFill_pixel_cases W H fuel data x y fillRgba tolerance gapClose bgHex d' :
  floodFill W H fuel data x y fillRgba tolerance gapClose bgHex = Some d' ->
  length d' = length data
  /\ forall p : Z,
       pixel_at d' (4 * p) = pixel_at data (4 * p)
       \/ pixel_at d' (4 * p) = stored_fill fillRgba.
Proof.
  unfold floodFill. intros Hrun.
  destruct (sameColor _ _); [injection Hrun as <-; by split; [| left] |].
  destruct (bool_decide _); [injection Hrun as <-; by split; [| left] |].
  split; [by eapply length_fill_loop |].
  intros p.
  destruct (fill_loop_only_close W H _ _ _ _ data _ _ _ _ ltac:(by left) Hrun p)
    as [Hsame | [_ Hst]]; [by left | by right].
Qed.

(** X14. The batch of [handleMagic] composes its fills: when all ten
    return, the buffer has the size it had, and every pixel is as before the
    batch or holds the colour of one of the ten fills. *)
Theorem handleMagic_pixels (W H : Z) (fuel : nat) (tolerance gapClose : Z)
    (bgHex : string) (rect_width rect_height : Q) (rand : nat -> Q)
    (data d' : list Z) :
  handleMagic W H fuel tolerance gapClose bgHex rect_width rect_height rand data
  = Some d' ->
  length d' = length data
  /\ forall p : Z,
       pixel_at d' (4 * p) = pixel_at data (4 * p)
       \/ exists i : nat,
            (i < 10)%nat
            /\ pixel_at d' (4 * p)
               = stored_fill (hexToRgba (magic_color (rand (3 * i + 2)%nat))).
Proof.
  unfold handleMagic.
  set (f := fun (acc : option (list Z)) (i : nat) =>
              match acc with
              | Some d => magic_fill W H fuel tolerance gapClose bgHex rect_width
                            rect_height rand i d
              | None => None
              end).
  assert (Hnone : forall l, foldl f None l = None).
  { induction l as [| a l IH]; [done | exact IH]. }
  assert (Hgen : forall l d,
    foldl f (Some d) l = Some d' ->
    length d' = length d
    /\ forall p : Z,
         pixel_at d' (4 * p) = pixel_at d (4 * p)
         \/ exists i : nat,
              i ∈ l
              /\ pixel_at d' (4 * p)
                 = stored_fill (hexToRgba (magic_color (rand (3 * i + 2)%nat)))).
  { induction l as [| a l IH]; intros d Hrun.
    - injection Hrun as <-. split; [done | by left].
    - simpl in Hrun.
      destruct (magic_fill W H fuel tolerance gapClose bgHex rect_width rect_height
                  rand a d) as [d1 |] eqn:Hfill; [| by rewrite Hnone in Hrun].
      apply floodFill_pixel_cases in Hfill as [Hlen1 Hpx1].
      destruct (IH d1 Hrun) as [Hlen Hpx].
      split; [congruence |]. intros p.
      destruct (Hpx p) as [Hsame | (i & Hi & Hst)].
      + rewrite Hsame. destruct (Hpx1 p) as [Hsame1 | Hst1]; [by left |].
        right. exists a. split; [by left | done].
      + right. exists i. split; [by right | done]. }
  intros Hrun. destruct (Hgen _ _ Hrun) as [Hlen Hpx].
  split; [done |]. intros p.
  destruct (Hpx p) as [Hsame | (i & Hi & Hst)]; [by left |].
  right. exists i. split; [| done].
  apply elem_of_seq in Hi. lia.
Qed.


Lemma floodFill_changes_only_close_witness :
  length (red_px ++ black ++ white) = length row_wbw.
Proof.
  apply (floodFill_changes_only_close 3 1 (enough_fuel 3 1) row_wbw 0 0 red 24 0
           bgWhite (red_px ++ black ++ white)).
  reflexivity.
Defined.

Lemma floodFill_fills_region_witness :
  exists d',
    floodFill 3 1 (enough_fuel 3 1) row_wbw 0 0 red 24 0 bgWhite = Some d'
    /\ pixel_at d' (idx 3 0 0) = stored_fill red
    /\ pixel_at d' (idx 3 2 0) = pixel_at row_wbw (idx 3 2 0).
Proof.
  destruct (floodFill_fills_region 3 1 row_wbw 0 0 red 24 0 bgWhite)
    as (d' & Hrun & Hreg);
    [reflexivity | unfold inside; lia | unfold byte_rgba, is_byte; simpl; lia
    | lia | reflexivity |].
  exists d'. split; [exact Hrun |]. split.
  - apply (Hreg 0 0); [unfold inside; lia |].
    apply region_seed; [unfold inside; lia | reflexivity].
  - apply (Hreg 2 0); [unfold inside; lia |].
    intros Hr.
    assert (Hgen : forall u v,
      region 3 1
        (close_at 3 (final_barrier 3 1 row_wbw (seed_colour 3 row_wbw 0 0) 24 0 bgWhite)
           (seed_colour 3 row_wbw 0 0) 24 row_wbw) 0 0 u v -> u = 0).
    { intros u v Hu. induction Hu as [| u v u' v' Hu IH Hadj [Hu' Hv'] Hok]; [done |].
      unfold adjacent in Hadj.
      assert (u' = 0 \/ u' = 1) as [-> | ->] by lia; [done |].
      assert (v' = 0) as -> by lia. vm_compute in Hok. discriminate. }
    specialize (Hgen 2 0 Hr). lia.
Defined.

Lemma floodFill_uniform_canvas_witness :
  exists d',
    floodFill 2 2 (enough_fuel 2 2) canvas_white 0 0 red 24 1 bgWhite = Some d'
    /\ pixel_at d' (idx 2 1 1) = stored_fill red.
Proof.
  destruct (floodFill_uniform_canvas 2 2 canvas_white 0 0 red 24 1 bgWhite)
    as (d' & Hrun & Hall);
    [reflexivity | unfold inside; lia | unfold byte_rgba, is_byte; simpl; lia
    | lia | reflexivity | |].
  - intros px py [Hpx Hpy].
    assert (px = 0 \/ px = 1) as [-> | ->] by lia;
      (assert (py = 0 \/ py = 1) as [-> | ->] by lia); reflexivity.
  - exists d'. split; [exact Hrun |]. apply Hall. unfold inside. lia.
Defined.

Lemma dilated_barrier_radius_witness :
  dilated_barrier 3 1 row_wbw (hexToRgba bgWhite) 1 !! Z.to_nat (0 * 3 + 0) = Some true.
Proof.
  apply (dilated_barrier_radius 3 1 row_wbw (hexToRgba bgWhite) 1 0 0);
    [reflexivity | lia | unfold inside; lia |].
  exists 1, 0. split; [unfold inside; lia |]. split; [simpl; lia |].
  split; [simpl; lia | reflexivity].
Defined.

Lemma final_barrier_lookup_witness :
  final_barrier 3 1 row_wbw (seed_colour 3 row_wbw 0 0) 24 0 bgWhite
    !! Z.to_nat (0 * 3 + 1) = Some true.
Proof.
  apply (final_barrier_lookup 3 1 row_wbw (seed_colour 3 row_wbw 0 0) 24 0 bgWhite 1 0);
    [reflexivity | unfold inside; lia |].
  split; reflexivity.
Defined.


Lemma magic_seeds_inside_canvas_witness :
  inside 200 100 (magic_point (1 # 2) 200 400)
    (magic_point (1 - (1 # 2 ^ 53)) 100 200).
Proof.
  apply (magic_seeds_inside_canvas 200 100 400 200 (1 # 2) (1 - (1 # 2 ^ 53)));
    try (split; reflexivity); vm_compute; discriminate.
Defined.

Lemma click_seed_not_negative_witness :
  0 <= fst (click_seed 200 100 10 20 400 200 10 70)
  /\ 0 <= snd (click_seed 200 100 10 20 400 200 10 70).
Proof.
  apply (click_seed_not_negative 200 100 10 20 400 200 10 70);
    try reflexivity; vm_compute; discriminate.
Defined.

Lemma canvas_click_fill_region_witness :
  exists d',
    canvas_click_fill 3 1 (enough_fuel 3 1) row_wbw 0 0 "#ff0000" = Some d'
    /\ pixel_at d' (idx 3 0 0) = SeedRgba (Some 255) (Some 0) (Some 0) (Some 255).
Proof.
  destruct (canvas_click_fill_region 3 1 row_wbw 0 0 "#ff0000" 255 0 0)
    as (d' & Hrun & Hreg);
    [reflexivity | unfold inside; lia | reflexivity
    | unfold is_byte; lia | unfold is_byte; lia | unfold is_byte; lia |].
  exists d'. split; [exact Hrun |].
  apply (Hreg 0 0); [unfold inside; lia |].
  apply region_seed; [unfold inside; lia | reflexivity].
Defined.

Lemma parsers_agree_witness :
  hexToRgba "#12aBcd" = Rgba 18 171 205 255
  /\ parseHex "#12aBcd" = (Some 18, Some 171, Some 205).
Proof.
  apply (parsers_agree "1" "2" "a" "B" "c" "d" 1 2 10 11 12 13); reflexivity.
Defined.

Lemma logical_size_integer_ratio_witness :
  (css_width (fitCanvas 101 50 800 60 false 2) == 101)%Q
  /\ (css_height (fitCanvas 101 50 800 60 false 2) == 480)%Q.
Proof.
  apply (logical_size_integer_ratio 101 50 800 60 false 2 2);
    [reflexivity | vm_compute; reflexivity | vm_compute; reflexivity].
Defined.

Lemma stroke_style_range_witness :
  (d_alpha (render_200x100 half_domain) == 1)%Q.
Proof.
  destruct (stroke_style_range pi_approx cos_at_0 sin_at_0 canvas_200x100
              half_domain scope_101 "#111827" "#ffffff" 0 false 2 1)
    as (_ & _ & Halpha & _).
  apply Halpha; [reflexivity | vm_compute; discriminate].
Defined.

Lemma handleMagic_pixels_witness :
  handleMagic 2 2 (enough_fuel 2 2) 24 1 bgWhite 2 2 (fun _ => 1 # 2) canvas_white
  = Some ([127; 255; 255; 255] ++ [127; 255; 255; 255] ++ [127; 255; 255; 255]
          ++ [127; 255; 255; 255])
  /\ length ([127; 255; 255; 255] ++ [127; 255; 255; 255] ++ [127; 255; 255; 255]
             ++ [127; 255; 255; 255]) = length canvas_white.
Proof.
  split; [vm_compute; reflexivity |].
  apply (handleMagic_pixels 2 2 (enough_fuel 2 2) 24 1 bgWhite 2 2 (fun _ => 1 # 2)
           canvas_white).
  vm_compute. reflexivity.
Defined.

